(** * burp_to_xml: streaming reconstruction of HTTP messages

    A shallow embedding of the message framing and pairing core of
    [script/burp_to_xml.py]: the chunked-body walker [parse_chunked_end],
    the start locator [find_next_http_start], the framer
    [extract_http_message], the generator [iter_http_messages] and the
    request/response pairing loop of [write_http_messages_as_xml], with
    [write_http_item] and [request_metadata] as far as they return or
    raise; beside them the header splitter [split_http_message], the
    text sanitizer [sanitize_xml_text] with the [escape] it is written
    through, the payload classifier [detect_payload] over an abstract
    decompression, and the issue-block generator [iter_issue_blocks] with
    a matcher for its pattern.

    Python [bytes] are lists of [byte]; Python [str] values obtained by
    [decode("latin-1")] are [string]s (one character per byte), other
    [str] values are lists of code points; Python integers are [Z]; the
    header [dict] is a [gmap string string].  Loops that the source
    writes as [while True] are driven by a fuel argument; [OutOfFuel] is
    reported separately from every value the code can return, so that
    termination is a statement about the model and not an assumption of
    it.  A call that an uncaught exception can leave has a [raising]
    result.  The library functions [urlparse] and [gzip] are taken as
    they are, as variables of a section. *)

From Stdlib Require Import ZArith Lia Strings.String Strings.Ascii Strings.Byte Init.Byte
  DecimalString.
From stdpp Require Import base option list gmap strings.

Local Open Scope Z_scope.

(** ** Python built-ins used by the script *)

Module Py.

Abbreviation bytes := (list byte).

(** A bytes literal: [B "GET"] is [b"GET"]. *)
Definition B (s : string) : bytes := list_byte_of_string s.

Definition CR : byte := x0d.
Definition LF : byte := x0a.
Definition CRLF : bytes := [CR; LF].

Definition len {A} (l : list A) : Z := Z.of_nat (length l).

Definition byte_eqb (a b : byte) : bool := Byte.eqb a b.

Fixpoint bytes_eqb (a b : bytes) : bool :=
  match a, b with
  | [], [] => true
  | x :: a', y :: b' => byte_eqb x y && bytes_eqb a' b'
  | _, _ => false
  end.

(** [take]/[drop] counted in [Z], recursing on the list so that large
    counts (a 4 MiB read size) cost nothing. *)
Fixpoint ztake {A} (n : Z) (l : list A) : list A :=
  match l with
  | [] => []
  | x :: l' => if n <=? 0 then [] else x :: ztake (n - 1) l'
  end.

Fixpoint zdrop {A} (n : Z) (l : list A) : list A :=
  match l with
  | [] => []
  | x :: l' => if n <=? 0 then l else zdrop (n - 1) l'
  end.

(** Normalisation of one slice bound against a sequence of length [n]:
    a negative bound counts from the end, and the result is clamped to
    [0 .. n]. *)
Definition norm_index (n i : Z) : Z :=
  if i <? 0 then Z.max (i + n) 0 else Z.min i n.

(** [buffer[a:b]] *)
Definition slice {A} (buffer : list A) (a b : Z) : list A :=
  let a' := norm_index (len buffer) a in
  let b' := norm_index (len buffer) b in
  ztake (b' - a') (zdrop a' buffer).

(** [buffer[a:]] *)
Definition slice_from {A} (buffer : list A) (a : Z) : list A :=
  zdrop (norm_index (len buffer) a) buffer.

(** [l.startswith(sub)] *)
Fixpoint startswith (sub l : bytes) : bool :=
  match sub, l with
  | [], _ => true
  | x :: sub', y :: l' => byte_eqb x y && startswith sub' l'
  | _ :: _, [] => false
  end.

(** First position [>= pos] at which [sub] occurs, scanning the suffix
    [l] whose first byte sits at position [pos]; [-1] when none. *)
Fixpoint find_from (sub l : bytes) (pos : Z) : Z :=
  if startswith sub l then pos
  else match l with
       | [] => -1
       | _ :: l' => find_from sub l' (pos + 1)
       end.

(** [buffer.find(sub, start)] *)
Definition find (sub buffer : bytes) (start : Z) : Z :=
  let n := len buffer in
  let s := if start <? 0 then Z.max (start + n) 0 else start in
  if n <? s then -1 else find_from sub (zdrop s buffer) s.

(** [sub in l] *)
Definition contains (sub l : bytes) : bool :=
  negb (find_from sub l 0 =? -1).

(** ASCII whitespace, as stripped by [bytes.strip()] and matched by
    [\s] in a bytes pattern. *)
Definition is_space (b : byte) : bool :=
  match b with
  | x09 | x0a | x0b | x0c | x0d | x20 => true
  | _ => false
  end.

(** Whitespace of [str.strip()] on the code points below 256. *)
Definition is_uspace (b : byte) : bool :=
  match b with
  | x09 | x0a | x0b | x0c | x0d | x1c | x1d | x1e | x1f | x20
  | x85 | xa0 => true
  | _ => false
  end.

Fixpoint lstrip (sp : byte → bool) (l : bytes) : bytes :=
  match l with
  | [] => []
  | x :: l' => if sp x then lstrip sp l' else l
  end.

Definition rstrip (sp : byte → bool) (l : bytes) : bytes :=
  rev (lstrip sp (rev l)).

Definition strip (sp : byte → bool) (l : bytes) : bytes :=
  rstrip sp (lstrip sp l).

(** [l.split(sep, 1)] for a one-byte separator: the part before the
    first separator and, when there is one, the part after it. *)
Fixpoint split1 (sep : byte) (l : bytes) : bytes * option bytes :=
  match l with
  | [] => ([], None)
  | x :: l' =>
      if byte_eqb x sep then ([], Some l')
      else let '(h, t) := split1 sep l' in (x :: h, t)
  end.

(** [l.splitlines()] on bytes: lines end at [\n], [\r\n] or [\r]; the
    line breaks are dropped and no empty line follows a final break. *)
Fixpoint splitlines_go (cur l : bytes) : list bytes :=
  match l with
  | [] => match cur with [] => [] | _ => [cur] end
  | x :: l' =>
      if byte_eqb x CR then
        match l' with
        | y :: l'' =>
            if byte_eqb y LF then cur :: splitlines_go [] l''
            else cur :: splitlines_go [] l'
        | [] => [cur]
        end
      else if byte_eqb x LF then cur :: splitlines_go [] l'
      else splitlines_go (cur ++ [x]) l'
  end.

Definition splitlines (l : bytes) : list bytes := splitlines_go [] l.

(** [b.decode("latin-1", "replace")]: every byte is one character. *)
Definition decode_latin1 (b : bytes) : string := string_of_list_byte b.

(** The code points of a latin-1 decoded string. *)
Definition ords (s : string) : bytes := list_byte_of_string s.

Definition str_strip (s : string) : string :=
  decode_latin1 (strip is_uspace (ords s)).

Definition byte_of_N (n : N) : byte :=
  match Byte.of_N n with Some b => b | None => x00 end.

(** [str.lower()] on one code point below 256: [A-Z] and the accented
    capitals [U+00C0 .. U+00DE] except the multiplication sign. *)
Definition lower_byte (b : byte) : byte :=
  let n := Byte.to_N b in
  if ((65 <=? n) && (n <=? 90))%N then byte_of_N (n + 32)
  else if ((192 <=? n) && (n <=? 222) && negb (n =? 215))%N then byte_of_N (n + 32)
  else b.

Definition str_lower (s : string) : string :=
  decode_latin1 (map lower_byte (ords s)).

(** [str.upper()] on one code point below 256, as a list of code
    points: the sharp s becomes two letters, the micro sign and the y
    with diaeresis leave the latin-1 range. *)
Definition upper_cp (b : byte) : list N :=
  let n := Byte.to_N b in
  if ((97 <=? n) && (n <=? 122))%N then [(n - 32)%N]
  else if (n =? 223)%N then [83%N; 83%N]
  else if (n =? 181)%N then [924%N]
  else if (n =? 255)%N then [376%N]
  else if ((224 <=? n) && (n <=? 254) && negb (n =? 247))%N then [(n - 32)%N]
  else [n].

Definition str_upper (s : string) : list N :=
  flat_map upper_cp (ords s).

(** [u.startswith(m)] on code points. *)
Fixpoint cp_startswith (m u : list N) : bool :=
  match m, u with
  | [], _ => true
  | x :: m', y :: u' => (x =? y)%N && cp_startswith m' u'
  | _ :: _, [] => false
  end.

(** Value of a digit character in [int(literal, base)]. *)
Definition digit_value (b : byte) : option Z :=
  let n := Z.of_N (Byte.to_N b) in
  if (48 <=? n) && (n <=? 57) then Some (n - 48)
  else if (97 <=? n) && (n <=? 122) then Some (n - 87)
  else if (65 <=? n) && (n <=? 90) then Some (n - 55)
  else None.

(** The digits of an integer literal, with single underscores allowed
    between digits; [prev_us] records that the previous character was
    an underscore. *)
Fixpoint int_digits (base acc : Z) (prev_us : bool) (l : bytes) : option Z :=
  match l with
  | [] => if prev_us then None else Some acc
  | c :: l' =>
      if byte_eqb c "_"%byte then
        if prev_us then None else int_digits base acc true l'
      else
        match digit_value c with
        | Some d => if d <? base then int_digits base (acc * base + d) false l' else None
        | None => None
        end
  end.

(** An unsigned literal: for base 16 an optional [0x]/[0X] prefix,
    after which one underscore may stand; then at least one digit, not
    starting with an underscore. *)
Definition int_unsigned (base : Z) (l : bytes) : option Z :=
  let l :=
    match l with
    | c0 :: c1 :: l' =>
        if (base =? 16) && byte_eqb c0 "0"%byte
           && (byte_eqb c1 "x"%byte || byte_eqb c1 "X"%byte)
        then match l' with
             | c2 :: l'' => if byte_eqb c2 "_"%byte then l'' else l'
             | [] => l'
             end
        else l
    | _ => l
    end in
  match l with
  | [] => None
  | c :: _ => if byte_eqb c "_"%byte then None else int_digits base 0 false l
  end.

(** [int(literal, base)] after the surrounding whitespace [sp] is
    removed; [None] stands for [ValueError].  The cap that newer
    interpreters put on the number of digits of a decimal literal (4300
    unless configured otherwise), above which [int] raises [ValueError]
    too, is not modelled: the literals are read whatever their length. *)
Definition int_parse (sp : byte → bool) (base : Z) (l : bytes) : option Z :=
  match strip sp l with
  | c :: l' =>
      if byte_eqb c "-"%byte then Z.opp <$> int_unsigned base l'
      else if byte_eqb c "+"%byte then int_unsigned base l'
      else int_unsigned base (c :: l')
  | [] => None
  end.

(** [int(b, 16)] for bytes [b] *)
Definition int_of_bytes (b : bytes) (base : Z) : option Z :=
  int_parse is_space base b.

(** Whitespace that [int(s)] removes around a string: the ASCII
    whitespace and the whitespace code points above 127. *)
Definition is_int_space (b : byte) : bool :=
  match b with
  | x85 | xa0 => true
  | _ => is_space b
  end.

(** [int(s)] for a string [s] *)
Definition int_of_str (s : string) : option Z :=
  int_parse is_int_space 10 (ords s).

End Py.

Import Py.

(** Result of a computation that is driven by fuel. *)
Inductive outcome (A : Type) : Type :=
| Done (a : A)
| OutOfFuel.
Arguments Done {A} a.
Arguments OutOfFuel {A}.

(** ** [parse_chunked_end] *)

(** What one pass through the body of the [while True] loop does:
    it leaves the function with a value, or it goes round again with a
    new [idx]. *)
Inductive loop_step : Type :=
| Return (r : option Z)
| Continue (idx : Z).

Definition chunk_step (buffer : bytes) (idx : Z) : loop_step :=
  let line_end := find CRLF buffer idx in
  let '(line_end, line_break) :=
    if line_end =? -1 then (find [LF] buffer idx, 1) else (line_end, 2) in
  if line_end =? -1 then Return None
  else
    let size_line := strip is_space (fst (split1 ";"%byte (slice buffer idx line_end))) in
    match int_of_bytes size_line 16 with
    | None => Return None
    | Some size =>
        let idx := line_end + line_break in
        if len buffer <? idx + size + line_break then Return None
        else
          let idx := idx + size in
          let after (idx : Z) := if size =? 0 then Return (Some idx) else Continue idx in
          if bytes_eqb (slice buffer idx (idx + 2)) CRLF then after (idx + 2)
          else if bytes_eqb (slice buffer idx (idx + 1)) [LF] then after (idx + 1)
          else Return None
    end.

Fixpoint parse_chunked_end (fuel : nat) (buffer : bytes) (start : Z) : outcome (option Z) :=
  match fuel with
  | O => OutOfFuel
  | S fuel' =>
      match chunk_step buffer start with
      | Return r => Done r
      | Continue idx => parse_chunked_end fuel' buffer idx
      end
  end.

(** ** The two start patterns *)

Module Re.

(** The fragment of the pattern language that [REQUEST_START_RE] and
    [RESPONSE_START_RE] are written in.  Repetition only ever applies
    to a one-byte class. *)
Inductive regex : Type :=
| Bol                                               (* ^ *)
| Cls (p : byte → bool)                             (* \s, \d, [..] *)
| Lit (s : bytes)                                   (* literal, IGNORECASE *)
| Seq (r1 r2 : regex)
| Alt (r1 r2 : regex)
| Opt (r : regex)                                   (* (?:r)? *)
| Rep (p : byte → bool) (lo : nat) (hi : option nat). (* c+, c*, c{lo,hi} *)

(** ASCII case folding of [re.IGNORECASE] on a bytes pattern. *)
Definition fold_case (b : byte) : byte :=
  let n := Byte.to_N b in
  if ((65 <=? n) && (n <=? 90))%N then byte_of_N (n + 32) else b.

Definition byte_eqb_ic (a b : byte) : bool :=
  byte_eqb (fold_case a) (fold_case b).

(** Matches the literal at the head of [s]; returns what follows. *)
Fixpoint lit_match (l s : bytes) : option bytes :=
  match l, s with
  | [], _ => Some s
  | x :: l', y :: s' => if byte_eqb_ic x y then lit_match l' s' else None
  | _ :: _, [] => None
  end.

Definition may_repeat (hi : option nat) : bool :=
  match hi with Some O => false | _ => true end.

Definition pred_bound (hi : option nat) : option nat :=
  match hi with Some n => Some (Nat.pred n) | None => None end.

(** The matcher tries its alternatives in order and stops at the first
    that succeeds; [a and_then b] and [a or_else b] are conjunction and
    disjunction that do not evaluate [b] when [a] decides. *)
Local Notation "a 'and_then' b" := (if a then b else false)
  (at level 40, left associativity, only parsing).
Local Notation "a 'or_else' b" := (if a then true else b)
  (at level 50, left associativity, only parsing).

(** A class repeated between [lo] and [hi] times, longest first. *)
Fixpoint rep_match (p : byte → bool) (lo : nat) (hi : option nat)
    (pos : Z) (s : bytes) (k : Z → bytes → bool) : bool :=
  match s with
  | x :: s' =>
      (p x and_then may_repeat hi
         and_then rep_match p (Nat.pred lo) (pred_bound hi) (pos + 1) s' k)
      or_else (Nat.eqb lo 0 and_then k pos s)
  | [] => Nat.eqb lo 0 and_then k pos []
  end.

(** Backtracking matcher: is there a way to match [r] at the head of
    [s], which starts at offset [pos] of the subject, such that the
    continuation accepts what follows? *)
Fixpoint matches (r : regex) (pos : Z) (s : bytes) (k : Z → bytes → bool) : bool :=
  match r with
  | Bol => (pos =? 0) and_then k pos s
  | Cls p => match s with
             | x :: s' => p x and_then k (pos + 1) s'
             | [] => false
             end
  | Lit l => match lit_match l s with
             | Some s' => k (pos + len l) s'
             | None => false
             end
  | Seq r1 r2 => matches r1 pos s (λ pos' s', matches r2 pos' s' k)
  | Alt r1 r2 => matches r1 pos s k or_else matches r2 pos s k
  | Opt r1 => matches r1 pos s k or_else k pos s
  | Rep p lo hi => rep_match p lo hi pos s k
  end.

Definition match_at (r : regex) (pos : Z) (s : bytes) : bool :=
  matches r pos s (λ _ _, true).

(** [r.search(buffer).start()]: the leftmost offset at which the
    pattern matches. *)
Fixpoint search_from (r : regex) (s : bytes) (pos : Z) : option Z :=
  if match_at r pos s then Some pos
  else match s with
       | [] => None
       | _ :: s' => search_from r s' (pos + 1)
       end.

Definition search (r : regex) (buffer : bytes) : option Z :=
  search_from r buffer 0.

Definition seqs (rs : list regex) : regex := foldr Seq (Lit []) rs.

(** [b"|".join(words)] *)
Definition any_of (words : list bytes) : regex :=
  foldr (λ w r, Alt (Lit w) r) (Cls (λ _, false)) words.

Definition is_break (b : byte) : bool :=
  match b with x0a | x0d => true | _ => false end.

Definition is_digit (b : byte) : bool :=
  let n := Byte.to_N b in ((48 <=? n) && (n <=? 57))%N.

Definition plus (p : byte → bool) : regex := Rep p 1 None.
Definition star (p : byte → bool) : regex := Rep p 0 None.

End Re.

Import Re.

Definition HTTP_METHODS : list bytes :=
  [B "GET"; B "POST"; B "PUT"; B "DELETE"; B "HEAD"; B "OPTIONS"; B "PATCH";
   B "CONNECT"; B "TRACE"].

(** [HTTP/\d(?:\.\d)?] *)
Definition http_version : regex :=
  seqs [Lit (B "HTTP/"); Cls is_digit; Opt (Seq (Lit (B ".")) (Cls is_digit))].

(** [(?:^|[\r\n])(GET|...|TRACE)\s+[^\r\n]{1,2048}\s+HTTP/\d(?:\.\d)?] *)
Definition REQUEST_START_RE : regex :=
  seqs [Alt Bol (Cls is_break);
        any_of HTTP_METHODS;
        plus is_space;
        Rep (λ b, negb (is_break b)) 1 (Some 2048%nat);
        plus is_space;
        http_version].

(** [(?:^|[\r\n])HTTP/\d(?:\.\d)?\s+\d{3}[^\r\n]*] *)
Definition RESPONSE_START_RE : regex :=
  seqs [Alt Bol (Cls is_break);
        http_version;
        plus is_space;
        Rep is_digit 3 (Some 3%nat);
        star (λ b, negb (is_break b))].

(** ** [find_next_http_start] *)

(** [min(m :: ms, key=lambda item: item[0])]: the first entry with the
    least offset. *)
Definition min_by_offset {A} (m : Z * A) (ms : list (Z * A)) : Z * A :=
  fold_left (λ best x, if fst x <? fst best then x else best) ms m.

(** The loop [while start < len(buffer) and buffer[start] in (10, 13)],
    run on the bytes from [start] on. *)
Fixpoint skip_breaks (l : bytes) (start : Z) : Z :=
  match l with
  | x :: l' => if is_break x then skip_breaks l' (start + 1) else start
  | [] => start
  end.

Definition find_next_http_start (buffer : bytes) : option (Z * string) :=
  let req_match := search REQUEST_START_RE buffer in
  let resp_match := search RESPONSE_START_RE buffer in
  let found :=
    match req_match with Some s => [(s, "request"%string)] | None => [] end
    ++ match resp_match with Some s => [(s, "response"%string)] | None => [] end in
  match found with
  | [] => None
  | m :: ms =>
      let '(start, kind) := min_by_offset m ms in
      Some (skip_breaks (zdrop start buffer) start, kind)
  end.

(** ** [parse_headers] *)

Definition add_header (headers : gmap string string) (line : bytes) : gmap string string :=
  match strip is_space line with
  | [] => headers
  | _ :: _ =>
      if negb (contains (B ":") line) then headers
      else
        match split1 ":"%byte line with
        | (name, Some value) =>
            <[ str_lower (str_strip (decode_latin1 name)) := str_strip (decode_latin1 value) ]> headers
        | (_, None) => headers
        end
  end.

Definition parse_headers (header_bytes : bytes) : string * gmap string string :=
  match splitlines header_bytes with
  | [] => (""%string, ∅)
  | first :: rest =>
      (str_strip (decode_latin1 first), fold_left add_header rest ∅)
  end.

(** ** [extract_http_message] *)

(** What the generator yields: [(message, first_line, headers)]. *)
Definition message : Type := bytes * string * gmap string string.

(** [sub in s] for strings *)
Definition str_contains (sub s : string) : bool := contains (ords sub) (ords s).

(** The header terminator: [\r\n\r\n], else a bare [\n\n]; the offset
    and the width of the separator. *)
Definition find_header_end (buffer : bytes) (start : Z) : option (Z * Z) :=
  let header_end := find (CRLF ++ CRLF) buffer start in
  let '(header_end, header_sep) :=
    if header_end =? -1 then (find [LF; LF] buffer start, 2) else (header_end, 4) in
  if header_end =? -1 then None else Some (header_end, header_sep).

(** The length taken from a [content-length] value: [int(value)], and 0
    when that raises [ValueError]. *)
Definition content_length (value : string) : Z :=
  default 0 (int_of_str value).

(** The [return message, first_line, headers, remaining] at the end. *)
Definition framed (buffer : bytes) (start body_end : Z) (first_line : string)
    (headers : gmap string string)
  : option (bytes * string * gmap string string * bytes) :=
  Some (slice buffer start body_end, first_line, headers, slice_from buffer body_end).

Definition extract_http_message (fuel : nat) (buffer : bytes)
  : outcome (option (bytes * string * gmap string string * bytes)) :=
  match find_next_http_start buffer with
  | None => Done None
  | Some (start, _) =>
      match find_header_end buffer start with
      | None => Done None
      | Some (header_end, header_sep) =>
          let header_bytes := slice buffer start header_end in
          let '(first_line, headers) := parse_headers header_bytes in
          let body_start := header_end + header_sep in
          match headers !! "content-length"%string with
          | Some value =>
              let length := content_length value in
              if len buffer <? body_start + length then Done None
              else Done (framed buffer start (body_start + length) first_line headers)
          | None =>
              match headers !! "transfer-encoding"%string with
              | Some te =>
                  if str_contains "chunked" (str_lower te) then
                    match parse_chunked_end fuel buffer body_start with
                    | OutOfFuel => OutOfFuel
                    | Done None => Done None
                    | Done (Some chunked_end) =>
                        Done (framed buffer start chunked_end first_line headers)
                    end
                  else Done (framed buffer start body_start first_line headers)
              | None => Done (framed buffer start body_start first_line headers)
              end
          end
      end
  end.

(** ** [iter_http_messages] *)

(** [4 * 1024 * 1024], the default of [chunk_size]. *)
Definition default_chunk_size : Z := 4 * 1024 * 1024.

(** [f.read(chunk_size)] on a file whose unread content is [rest]: the
    bytes read and what stays unread.  The size [-1] reads to the end.
    The sizes below [-1], on which [read] raises [ValueError], are not
    told apart from it here: the script calls its two generators with
    the default size only. *)
Definition file_read (chunk_size : Z) (rest : bytes) : bytes * bytes :=
  if chunk_size <? 0 then (rest, []) else (ztake chunk_size rest, zdrop chunk_size rest).

(** Where the generator is suspended or about to run: before the
    [f.read] of the outer loop, or at the top of the inner loop (which is
    also where it resumes after a [yield]). *)
Inductive gen_pc : Type := AtRead | AtExtract.

Record gen_state : Type := GenState {
  gen_buffer : bytes;
  gen_rest : bytes;
  gen_pc_of : gen_pc
}.

Definition gen_init (input : bytes) : gen_state := GenState [] input AtRead.

(** One [next()] on the generator: runs to the next [yield] (the message
    and the suspended state) or to the end of the generator ([None]). *)
Fixpoint gen_next (fuel : nat) (chunk_size : Z) (st : gen_state)
  : outcome (option (message * gen_state)) :=
  match fuel with
  | O => OutOfFuel
  | S fuel' =>
      match gen_pc_of st with
      | AtRead =>
          let '(chunk, rest) := file_read chunk_size (gen_rest st) in
          match chunk with
          | [] => Done None
          | _ :: _ => gen_next fuel' chunk_size (GenState (gen_buffer st ++ chunk) rest AtExtract)
          end
      | AtExtract =>
          let buffer := gen_buffer st in
          match extract_http_message fuel' buffer with
          | OutOfFuel => OutOfFuel
          | Done None =>
              let buffer :=
                if chunk_size * 2 <? len buffer then slice_from buffer (- chunk_size)
                else buffer in
              gen_next fuel' chunk_size (GenState buffer (gen_rest st) AtRead)
          | Done (Some (msg, remaining)) =>
              (* [msg] is the triple [message, first_line, headers] *)
              Done (Some (msg, GenState remaining (gen_rest st) AtExtract))
          end
      end
  end.

(** Everything the generator yields when it is run to its end, with
    [true] when its end was reached within the fuel. *)
Fixpoint gen_run (fuel : nat) (chunk_size : Z) (st : gen_state) : list message * bool :=
  match fuel with
  | O => ([], false)
  | S fuel' =>
      match gen_next fuel' chunk_size st with
      | OutOfFuel => ([], false)
      | Done None => ([], true)
      | Done (Some (msg, st')) =>
          let '(msgs, finished) := gen_run fuel' chunk_size st' in
          (msg :: msgs, finished)
      end
  end.

Definition iter_http_messages (fuel : nat) (input : bytes) (chunk_size : Z)
  : list message * bool :=
  gen_run fuel chunk_size (gen_init input).

(** ** [request_metadata] *)

(** [s.split()]: the words between runs of whitespace. *)
Fixpoint split_go (cur l : bytes) : list bytes :=
  match l with
  | [] => match cur with [] => [] | _ => [cur] end
  | x :: l' =>
      if is_uspace x then
        match cur with
        | [] => split_go [] l'
        | _ => cur :: split_go [] l'
        end
      else split_go (cur ++ [x]) l'
  end.

Definition str_split (s : string) : list string :=
  map decode_latin1 (split_go [] (ords s)).

(** [s.startswith(prefix)] for strings *)
Definition str_startswith (prefix s : string) : bool :=
  startswith (ords prefix) (ords s).

(** [str(n)] for an integer *)
Definition str_of_int (n : Z) : string := NilZero.string_of_int (Z.to_int n).

(** What [request_metadata] reads of [urlparse(target)]: the attributes
    [scheme], [hostname], [path], [query] and [port]. *)
Record url : Type := Url {
  url_scheme : string;
  url_hostname : option string;
  url_path : string;
  url_query : string;
  url_port : option Z
}.

(** The dictionary that [request_metadata] returns when the request
    line has two words at least. *)
Record metadata : Type := Metadata {
  meta_method : list N;
  meta_path : string;
  meta_host : string;
  meta_protocol : string;
  meta_url : string;
  meta_port : string
}.

(** A call that returns a value, or that an exception leaves. *)
Inductive raising (A : Type) : Type :=
| Returned (a : A)
| Raised.
Arguments Returned {A} a.
Arguments Raised {A}.

Section Pairing.

(** [urlparse(target)] with the five attributes read: [None] when the
    call or one of the reads raises [ValueError], as the read of [port]
    does for a port that is not a decimal number or lies above 65535.
    Nothing in the script catches it. *)
Variable urlparse : string → option url.

(** [None] is the empty dictionary. *)
Definition request_metadata (first_line : string) (headers : gmap string string)
  : raising (option metadata) :=
  match str_split first_line with
  | word :: target :: _ =>
      let method := str_upper word in
      let host := default ""%string (headers !! "host"%string) in
      if str_startswith "http://" target || str_startswith "https://" target then
        match urlparse target with
        | None => Raised
        | Some parsed =>
            let protocol := url_scheme parsed in
            let host :=
              match url_hostname parsed with
              | Some h => if String.eqb h "" then host else h
              | None => host
              end in
            let path := if String.eqb (url_path parsed) "" then "/"%string else url_path parsed in
            let path :=
              if String.eqb (url_query parsed) "" then path
              else String.append path (String.append "?" (url_query parsed)) in
            let port :=
              match url_port parsed with
              | Some p =>
                  if p =? 0 then (if String.eqb protocol "https" then "443" else "80")%string
                  else str_of_int p
              | None => (if String.eqb protocol "https" then "443" else "80")%string
              end in
            Returned (Some (Metadata method path host protocol target port))
        end
      else if negb (String.eqb host "") then
        Returned (Some (Metadata method target host "http"
                          (String.append "http" (String.append "://" (String.append host target)))
                          ""))
      else Returned (Some (Metadata method target host "" "" ""))
  | _ => Returned None
  end.

(** ** [write_http_item] *)

(** What one call [write_http_item(out, request, response)] renders. *)
Record item : Type := Item {
  item_request : option message;
  item_response : option message
}.

(** The call returns when the item is rendered; it raises when
    [request_metadata] does.  The text that is written for the item is
    outside this model. *)
Definition write_http_item (request response : option message) : raising item :=
  match request with
  | Some (_, req_line, req_headers) =>
      match request_metadata req_line req_headers with
      | Returned _ => Returned (Item request response)
      | Raised => Raised
      end
  | None => Returned (Item request response)
  end.

(** ** The pairing loop of [write_http_messages_as_xml] *)

Record pair_state : Type := PairState {
  pending_request : option message;
  count_items : Z;
  written : list item
}.

Definition codepoints (m : bytes) : list N := map Byte.to_N m.

Definition is_request (first_line : string) : bool :=
  negb (String.eqb first_line "")
  && existsb (λ m, cp_startswith (codepoints m) (str_upper first_line)) HTTP_METHODS.

(** The state after a call of [write_http_item] that is followed by
    [count_items += 1]. *)
Definition write_item (request response pending : option message) (st : pair_state)
  : raising pair_state :=
  match write_http_item request response with
  | Returned it => Returned (PairState pending (count_items st + 1) (written st ++ [it]))
  | Raised => Raised
  end.

(** The body of the [for] loop, up to the test of the limit. *)
Definition pair_message (msg : message) (st : pair_state) : raising pair_state :=
  let '(_, first_line, _) := msg in
  if is_request first_line then
    match pending_request st with
    | Some pending => write_item (Some pending) None (Some msg) st
    | None => Returned (PairState (Some msg) (count_items st) (written st))
    end
  else
    match pending_request st with
    | Some pending => write_item (Some pending) (Some msg) None st
    | None => write_item None (Some msg) None st
    end.

(** [limit is not None and count_items >= limit] *)
Definition limit_reached (limit : option Z) (count : Z) : bool :=
  match limit with Some l => l <=? count | None => false end.

Fixpoint pair_loop (fuel : nat) (limit : option Z) (gen : gen_state) (st : pair_state)
  : outcome (raising pair_state) :=
  match fuel with
  | O => OutOfFuel
  | S fuel' =>
      match gen_next fuel' default_chunk_size gen with
      | OutOfFuel => OutOfFuel
      | Done None => Done (Returned st)
      | Done (Some (msg, gen')) =>
          match pair_message msg st with
          | Raised => Done Raised
          | Returned st' =>
              if limit_reached limit (count_items st') then Done (Returned st')
              else pair_loop fuel' limit gen' st'
          end
      end
  end.

(** The flush after the loop. *)
Definition pair_flush (limit : option Z) (st : pair_state) : raising pair_state :=
  match pending_request st with
  | Some pending =>
      if negb (limit_reached limit (count_items st)) then
        write_item (Some pending) None (Some pending) st
      else Returned st
  | None => Returned st
  end.

(** The items written between [<items>] and [</items>] and the value
    returned, or the exception that leaves the function; the issue
    records are outside this model. *)
Definition write_http_messages_as_xml (fuel : nat) (input : bytes) (limit : option Z)
  : outcome (raising (list item * Z)) :=
  match pair_loop fuel limit (gen_init input) (PairState None 0 []) with
  | OutOfFuel => OutOfFuel
  | Done Raised => Done Raised
  | Done (Returned st) =>
      match pair_flush limit st with
      | Raised => Done Raised
      | Returned st => Done (Returned (written st, count_items st))
      end
  end.

End Pairing.

(** ** [split_http_message] *)

Definition split_http_message (message : bytes) : bytes * bytes :=
  let header_end := find (CRLF ++ CRLF) message 0 in
  let '(header_end, header_sep) :=
    if header_end =? -1 then (find [LF; LF] message 0, 2) else (header_end, 4) in
  if header_end =? -1 then (message, [])
  else (slice message 0 header_end, slice_from message (header_end + header_sep)).

(** ** [sanitize_xml_text] and the escaping of text *)

(** A Python [str] that does not come from [decode("latin-1")] is the
    list of its code points. *)
Definition AMP : N := 38.
Definition LT : N := 60.
Definition GT : N := 62.

(** The class [[\x00-\x08\x0B\x0C\x0E-\x1F]] of [XML_INVALID_RE]. *)
Definition XML_INVALID_RE (c : N) : bool :=
  ((c <=? 8) || (c =? 11) || (c =? 12) || ((14 <=? c) && (c <=? 31)))%N.

(** [XML_INVALID_RE.sub("", text)]: every character of the class is a
    match and is replaced by nothing. *)
Definition sanitize_xml_text (text : list N) : list N :=
  filter (λ c, XML_INVALID_RE c = false) text.

(** [s.replace(old, new)] for a one-character [old]. *)
Definition str_replace (old : N) (new : list N) (s : list N) : list N :=
  flat_map (λ c, if (c =? old)%N then new else [c]) s.

(** The code points of an ASCII literal. *)
Definition cps (s : string) : list N := codepoints (B s).

(** [xml.sax.saxutils.escape(data)] without further entities: the
    ampersand first, then the two angle brackets. *)
Definition escape (data : list N) : list N :=
  let data := str_replace AMP (cps "&amp;") data in
  let data := str_replace GT (cps "&gt;") data in
  str_replace LT (cps "&lt;") data.

(** ** [detect_payload] *)

Definition SQLITE_MAGIC : bytes := B "SQLite format 3" ++ [x00].
Definition GZIP_MAGIC : bytes := [x1f; x8b].
Definition ZIP_MAGIC : bytes := B "PK" ++ [x03; x04].

Section Payload.

(** [gzip.GzipFile(fileobj=io.BytesIO(raw)).read()]: the decompressed
    bytes, or [None] when the library raises. *)
Variable gunzip : bytes → option bytes.

(** [None] is the exception that the decompression raised. *)
Definition detect_payload (raw : bytes) : option (string * bytes) :=
  raw ← (if startswith GZIP_MAGIC raw then gunzip raw else Some raw);
  if startswith ZIP_MAGIC raw then Some ("zip"%string, raw)
  else if startswith SQLITE_MAGIC raw then Some ("sqlite"%string, raw)
  else if startswith (B "<?xml") (lstrip is_space raw)
          || startswith (B "<") (lstrip is_space raw)
  then Some ("xml"%string, raw)
  else Some ("unknown"%string, raw).

End Payload.

(** ** [iter_issue_blocks] *)

Module Rx.

(** The fragment of the pattern language that [ISSUE_BLOCK_RE] is
    written in; the matcher answers with the offset at which the match
    ends. *)
Inductive pattern : Type :=
| Chars (s : bytes)            (* literal, IGNORECASE *)
| Boundary                     (* \b *)
| Greedy (p : byte → bool)     (* c* *)
| Lazy (p : byte → bool)       (* c*? *)
| Then (r1 r2 : pattern).

(** [\w] of a bytes pattern: the ASCII letters and digits and the
    underscore. *)
Definition is_word (b : byte) : bool :=
  let n := Byte.to_N b in
  ((48 <=? n) && (n <=? 57) || (65 <=? n) && (n <=? 90)
   || (97 <=? n) && (n <=? 122) || (n =? 95))%N.

Definition word_before (prev : option byte) : bool :=
  match prev with Some b => is_word b | None => false end.

Definition word_after (s : bytes) : bool :=
  match s with b :: _ => is_word b | [] => false end.

(** The literal at the head of [s]: the byte matched last and what
    follows. *)
Fixpoint chars_match (l : bytes) (prev : option byte) (s : bytes)
  : option (option byte * bytes) :=
  match l, s with
  | [], _ => Some (prev, s)
  | x :: l', y :: s' => if byte_eqb_ic x y then chars_match l' (Some y) s' else None
  | _ :: _, [] => None
  end.

(** The continuation takes the byte before the position, the position
    and the bytes from it on. *)
Fixpoint greedy_match (p : byte → bool) (prev : option byte) (pos : Z) (s : bytes)
    (k : option byte → Z → bytes → option Z) : option Z :=
  match s with
  | x :: s' =>
      if p x then
        match greedy_match p (Some x) (pos + 1) s' k with
        | Some e => Some e
        | None => k prev pos s
        end
      else k prev pos s
  | [] => k prev pos []
  end.

Fixpoint lazy_match (p : byte → bool) (prev : option byte) (pos : Z) (s : bytes)
    (k : option byte → Z → bytes → option Z) : option Z :=
  match k prev pos s with
  | Some e => Some e
  | None =>
      match s with
      | x :: s' => if p x then lazy_match p (Some x) (pos + 1) s' k else None
      | [] => None
      end
  end.

Fixpoint span (r : pattern) (prev : option byte) (pos : Z) (s : bytes)
    (k : option byte → Z → bytes → option Z) : option Z :=
  match r with
  | Chars l =>
      match chars_match l prev s with
      | Some (prev', s') => k prev' (pos + len l) s'
      | None => None
      end
  | Boundary => if xorb (word_before prev) (word_after s) then k prev pos s else None
  | Greedy p => greedy_match p prev pos s k
  | Lazy p => lazy_match p prev pos s k
  | Then r1 r2 => span r1 prev pos s (λ prev' pos' s', span r2 prev' pos' s' k)
  end.

(** The end of the match that begins at [pos], if there is one. *)
Definition match_end (r : pattern) (prev : option byte) (pos : Z) (s : bytes) : option Z :=
  span r prev pos s (λ _ e _, Some e).

(** [r.finditer(buffer)], as the spans of the matches: the search goes
    from left to right and resumes where the last match ended; [skip]
    counts the bytes still to pass over inside the last match.  For
    patterns that match no empty string. *)
Fixpoint finditer_from (r : pattern) (prev : option byte) (pos : Z) (s : bytes)
    (skip : nat) : list (Z * Z) :=
  match s with
  | [] => []
  | x :: s' =>
      match skip with
      | S skip' => finditer_from r (Some x) (pos + 1) s' skip'
      | O =>
          match match_end r prev pos s with
          | Some e => (pos, e) :: finditer_from r (Some x) (pos + 1) s' (Z.to_nat (e - pos) - 1)
          | None => finditer_from r (Some x) (pos + 1) s' 0
          end
      end
  end.

Definition finditer (r : pattern) (buffer : bytes) : list (Z * Z) :=
  finditer_from r None 0 buffer 0.

End Rx.

Import Rx.

(** [<issue\b[^>]*>.*?</issue>] with [re.IGNORECASE | re.DOTALL] *)
Definition ISSUE_BLOCK_RE : pattern :=
  Then (Chars (B "<issue"))
    (Then Boundary
       (Then (Greedy (λ b, negb (byte_eqb b ">"%byte)))
          (Then (Chars (B ">"))
             (Then (Lazy (λ _, true)) (Chars (B "</issue>")))))).

(** [match.end()] of the last match, or the initial 0. *)
Definition last_end (spans : list (Z * Z)) : Z :=
  match last spans with Some (_, e) => e | None => 0 end.

(** The blocks that the generator yields, in the order of the yields,
    from the [f.read] of the loop on.  The generator holds no state that
    its consumer can reach, so a consumer that stops early has seen a
    prefix of this list. *)
Fixpoint issue_blocks_loop (fuel : nat) (chunk_size : Z) (buffer rest : bytes)
  : outcome (list bytes) :=
  match fuel with
  | O => OutOfFuel
  | S fuel' =>
      let tail_keep := chunk_size in
      let '(chunk, rest) := file_read chunk_size rest in
      match chunk with
      | [] => Done []
      | _ :: _ =>
          let buffer := buffer ++ chunk in
          let spans := finditer ISSUE_BLOCK_RE buffer in
          let blocks := map (λ m : Z * Z, slice buffer m.1 m.2) spans in
          let buffer :=
            if last_end spans =? 0 then buffer else slice_from buffer (last_end spans) in
          let buffer :=
            if tail_keep <? len buffer then slice_from buffer (- tail_keep) else buffer in
          match issue_blocks_loop fuel' chunk_size buffer rest with
          | Done more => Done (blocks ++ more)
          | OutOfFuel => OutOfFuel
          end
      end
  end.

Definition iter_issue_blocks (fuel : nat) (input : bytes) (chunk_size : Z)
  : outcome (list bytes) :=
  issue_blocks_loop fuel chunk_size [] input.

(** * Notions used in the statements *)

Definition msg_bytes (m : message) : bytes := m.1.1.

Definition first_line_of (m : message) : string := m.1.2.

Definition headers_of (m : message) : gmap string string := m.2.

(** The part of the stream that no emitted message has taken yet: the
    buffer followed by what is still unread. *)
Definition unconsumed (st : gen_state) : bytes := gen_buffer st ++ gen_rest st.

(** [laid_out s ms]: the byte strings [ms] occur in [s] one after the
    other, in this order and without sharing a byte. *)
Inductive laid_out : bytes → list bytes → Prop :=
| laid_out_nil s : laid_out s []
| laid_out_cons gap m rest ms :
    laid_out rest ms → laid_out (gap ++ m ++ rest) (m :: ms).

(** Byte ranges [lo, hi) listed in stream order from offset [from]:
    each range starts at or after the end of the one before it. *)
Fixpoint ranges_ordered (from : Z) (ranges : list (Z * Z)) : Prop :=
  match ranges with
  | [] => True
  | (lo, hi) :: ranges' => from ≤ lo ∧ lo ≤ hi ∧ ranges_ordered hi ranges'
  end.

(** [begins_line r]: whatever [r] matches begins with a byte that is
    not a line break. *)
Definition begins_line (r : regex) : Prop :=
  ∀ pos s k, matches r pos s k = true → ∃ c s', s = c :: s' ∧ is_break c = false.

(** [sub] occurs in [l] at offset [q]. *)
Definition occurs_at (sub l : bytes) (q : Z) : Prop :=
  ∃ pre post, l = pre ++ sub ++ post ∧ len pre = q.

(** What [add_header] stores: a lower-case name without surrounding
    whitespace and without a colon, and a value without surrounding
    whitespace. *)
Definition normalised (name value : string) : Prop :=
  str_lower name = name ∧ str_strip name = name ∧ (":"%byte ∉ ords name)
  ∧ str_strip value = value.

(** The messages that an item holds, request first. *)
Definition item_messages (it : item) : list message :=
  option_list (item_request it) ++ option_list (item_response it).

(** An item holds at least one message; its request side is a message
    that the pairing loop takes for a request, its response side one that
    it does not. *)
Definition item_sound (it : item) : Prop :=
  item_messages it ≠ []
  ∧ (∀ m, item_request it = Some m → is_request (first_line_of m) = true)
  ∧ (∀ m, item_response it = Some m → is_request (first_line_of m) = false).

(** The target of a request line, its second word, is one that
    [request_metadata] can describe: it does not begin with [http://] or
    [https://], or the URL parser accepts it. *)
Definition target_parses (urlparse : string → option url) (first_line : string) : Prop :=
  ∀ target,
    str_split first_line !! 1%nat = Some target →
    str_startswith "http://" target || str_startswith "https://" target = true →
    is_Some (urlparse target).

(** Every message that the pairing loop takes for a request has such a
    target. *)
Definition requests_parse (urlparse : string → option url) (msgs : list message) : Prop :=
  Forall (λ m, is_request (first_line_of m) = true
               → target_parses urlparse (first_line_of m)) msgs.

(** The body of the pairing loop applied to one message after the
    other, as long as no call raises. *)
Fixpoint pair_messages (urlparse : string → option url) (msgs : list message)
    (st : pair_state) : raising pair_state :=
  match msgs with
  | [] => Returned st
  | msg :: msgs' =>
      match pair_message urlparse msg st with
      | Returned st' => pair_messages urlparse msgs' st'
      | Raised => Raised
      end
  end.

(** The bytes that the method names and [HTTP/] are written in: the
    capital letters and the slash. *)
Definition word_byte (x : byte) : bool :=
  let n := Byte.to_N x in ((65 <=? n) && (n <=? 90) || (n =? 47))%N.

(** A size line that the walker reads as [n]: no line feed in it, and
    [int(.., 16)] of what stands before the first semicolon, stripped,
    is [n]. *)
Definition size_reads (size_line : bytes) (n : Z) : Prop :=
  (LF ∉ size_line)
  ∧ int_of_bytes (strip is_space (split1 ";" size_line).1) 16 = Some n.

(** A chunked body: chunks of a size line, [\r\n], the data and
    [\r\n], then the size line of the last chunk and two [\r\n]. *)
Definition chunked (chunks : list (bytes * bytes)) (last : bytes) : bytes :=
  flat_map (λ c, c.1 ++ CRLF ++ c.2 ++ CRLF) chunks ++ last ++ CRLF ++ CRLF.

(** The body that a header block declares: as many bytes as its
    content-length reads; without a content-length, a chunked body of
    well-formed chunks when the transfer-encoding is chunked, and no
    body otherwise. *)
Definition declares (headers : gmap string string) (body : bytes) : Prop :=
  match headers !! "content-length"%string with
  | Some value => int_of_str value = Some (len body)
  | None =>
      match headers !! "transfer-encoding"%string with
      | Some te =>
          if str_contains "chunked" (str_lower te) then
            ∃ chunks last,
              body = chunked chunks last
              ∧ Forall (λ c, size_reads c.1 (len c.2) ∧ c.2 ≠ []) chunks
              ∧ size_reads last 0
          else body = []
      | None => body = []
      end
  end.

(** A message as a well-formed stream holds it: a head on whose first
    byte the start locator rests, which ends with its first [\r\n\r\n]
    and holds no bare [\n\n], followed by the body that its headers
    declare; the first line and the headers are those of the head. *)
Definition well_framed (msg : message) : Prop :=
  ∃ head body kind,
    msg_bytes msg = head ++ body
    ∧ find_next_http_start head = Some (0, kind)
    ∧ find_header_end head 0 = Some (len head - 4, 4)
    ∧ find [LF; LF] head 0 = -1
    ∧ parse_headers (slice head 0 (len head - 4)) = (first_line_of msg, headers_of msg)
    ∧ declares (headers_of msg) body.

(** [w] spells the literal [l], in either case of its letters. *)
Definition spells (l w : bytes) : Prop :=
  Forall2 (λ x y, byte_eqb_ic x y = true) l w.

(** An issue block: an opening tag [<issue ...>] whose name ends at a
    byte that is not a word byte, and behind it everything up to the
    first closing tag [</issue>], with that tag. *)
Definition issue_block (block : bytes) : Prop :=
  ∃ opening attrs inner closing,
    block = opening ++ attrs ++ B ">" ++ inner ++ closing
    ∧ spells (B "<issue") opening
    ∧ Forall (λ x, x ≠ ">"%byte) attrs
    ∧ word_after (attrs ++ B ">") = false
    ∧ spells (B "</issue>") closing
    ∧ ∀ j : nat, (j < length inner)%nat →
        lit_match (B "</issue>") (drop j (inner ++ closing)) = None.

(** The state of the pairing loop between two messages: sound items,
    and a pending message that is a request. *)
Definition pair_sound (st : pair_state) : Prop :=
  Forall item_sound (written st)
  ∧ ∀ m, pending_request st = Some m → is_request (first_line_of m) = true.

(** * The body-length rule in the words of the specification *)

(** A content-length that is present and parses as a non-negative
    integer fixes the length. *)
Definition spec_fixed_length (headers : gmap string string) : option Z :=
  match headers !! "content-length"%string with
  | Some value =>
      match int_of_str value with
      | Some n => if 0 <=? n then Some n else None
      | None => None
      end
  | None => None
  end.

(** Otherwise a transfer-encoding that contains "chunked" is walked;
    otherwise the body is empty. *)
Definition spec_body_end (fuel : nat) (buffer : bytes) (body_start : Z)
    (headers : gmap string string) : outcome (option Z) :=
  match spec_fixed_length headers with
  | Some n => if len buffer <? body_start + n then Done None else Done (Some (body_start + n))
  | None =>
      match headers !! "transfer-encoding"%string with
      | Some te =>
          if str_contains "chunked" (str_lower te)
          then parse_chunked_end fuel buffer body_start
          else Done (Some body_start)
      | None => Done (Some body_start)
      end
  end.

(** The framer with that rule in place of the one in the code. *)
Definition spec_extract_http_message (fuel : nat) (buffer : bytes)
  : outcome (option (bytes * string * gmap string string * bytes)) :=
  match find_next_http_start buffer with
  | None => Done None
  | Some (start, _) =>
      match find_header_end buffer start with
      | None => Done None
      | Some (header_end, header_sep) =>
          let '(first_line, headers) := parse_headers (slice buffer start header_end) in
          match spec_body_end fuel buffer (header_end + header_sep) headers with
          | OutOfFuel => OutOfFuel
          | Done None => Done None
          | Done (Some body_end) => Done (framed buffer start body_end first_line headers)
          end
      end
  end.

(** * Sample inputs *)

(** The chunked body of the specification's example. *)
Definition wiki_body : bytes :=
  B "4" ++ CRLF ++ B "Wiki" ++ CRLF ++ B "0" ++ CRLF ++ CRLF.

Definition wiki_response : bytes :=
  B "HTTP/1.1 200 OK" ++ CRLF ++ B "Transfer-Encoding: chunked" ++ CRLF ++ CRLF
  ++ wiki_body.

(** A chunk whose size line reads [-6]. *)
Definition negative_chunk : bytes := CRLF ++ B "-6" ++ CRLF.

Definition negative_chunk_response : bytes :=
  B "HTTP/1.1 200 OK" ++ CRLF ++ B "Transfer-Encoding: chunked" ++ CRLF ++ CRLF
  ++ B "-6" ++ CRLF.

(** A request line and a status line in one buffer. *)
Definition both_starts : bytes :=
  CRLF ++ B "GET / HTTP/1.1" ++ CRLF ++ B "HTTP/1.1 200 OK".

(** A response that carries both framings. *)
Definition both_framings : bytes :=
  B "HTTP/1.1 200 OK" ++ CRLF ++ B "Content-Length: 3" ++ CRLF
  ++ B "Transfer-Encoding: chunked" ++ CRLF ++ CRLF ++ wiki_body.

Definition both_framings_headers : gmap string string :=
  <[ "transfer-encoding"%string := "chunked"%string ]>
    (<[ "content-length"%string := "3"%string ]> ∅).

(** A chunked response whose content-length is not a number. *)
Definition unparsable_length_chunked : bytes :=
  B "HTTP/1.1 200 OK" ++ CRLF ++ B "Content-Length: abc" ++ CRLF
  ++ B "Transfer-Encoding: chunked" ++ CRLF ++ CRLF ++ wiki_body.

Definition unparsable_length_headers : gmap string string :=
  <[ "transfer-encoding"%string := "chunked"%string ]>
    (<[ "content-length"%string := "abc"%string ]> ∅).

(** Requests with a negative content-length. *)
Definition negative_length_request : bytes :=
  B "GET / HTTP/1.1" ++ CRLF ++ B "Content-Length: -20" ++ CRLF ++ CRLF.

Definition negative_length_stuck : bytes :=
  B "GET / HTTP/1.1" ++ CRLF ++ B "Content-Length: -100" ++ CRLF ++ CRLF.

Definition small_request : bytes := B "GET / HTTP/1.1" ++ CRLF ++ CRLF.

(** The two requests of the specification's pairing example. *)
Definition two_gets : bytes :=
  B "GET /a HTTP/1.1" ++ CRLF ++ B "Host: x" ++ CRLF ++ CRLF
  ++ B "GET /b HTTP/1.1" ++ CRLF ++ B "Host: y" ++ CRLF ++ CRLF.

Definition get_a : message :=
  (B "GET /a HTTP/1.1" ++ CRLF ++ B "Host: x" ++ CRLF ++ CRLF,
   "GET /a HTTP/1.1"%string, {[ "host"%string := "x"%string ]}).

Definition get_b : message :=
  (B "GET /b HTTP/1.1" ++ CRLF ++ B "Host: y" ++ CRLF ++ CRLF,
   "GET /b HTTP/1.1"%string, {[ "host"%string := "y"%string ]}).

(** A request that declares more body than the input holds. *)
Definition truncated_head : bytes :=
  B "POST /upload HTTP/1.1" ++ CRLF ++ B "Content-Length: 999999" ++ CRLF ++ CRLF.

(** That request with ten body bytes, behind a chunked response whose
    chunk size reads [-6]. *)
Definition truncated_behind_negative_chunk : bytes :=
  negative_chunk_response ++ truncated_head ++ B "0123456789".

Definition sample_request : bytes :=
  B "GET /index.html HTTP/1.1" ++ CRLF ++ B "Host: example.com" ++ CRLF ++ CRLF.

Definition sample_response : bytes :=
  B "HTTP/1.1 200 OK" ++ CRLF ++ B "Content-Length: 5" ++ CRLF ++ CRLF ++ B "hello".

Definition sample_request_msg : message :=
  (sample_request, "GET /index.html HTTP/1.1"%string,
   {[ "host"%string := "example.com"%string ]}).

Definition sample_response_msg : message :=
  (sample_response, "HTTP/1.1 200 OK"%string,
   {[ "content-length"%string := "5"%string ]}).


(** An XML document behind a blank line. *)
Definition xml_payload : bytes := CRLF ++ B "<?xml version='1.0'?><items/>".

Definition wiki_response_msg : message :=
  (wiki_response, "HTTP/1.1 200 OK"%string,
   {[ "transfer-encoding"%string := "chunked"%string ]}).

(** A request with bare line feeds, followed by one with [\r\n]. *)
Definition mixed_line_ends : bytes :=
  B "GET /a HTTP/1.1" ++ [LF] ++ B "Host: x" ++ [LF; LF]
  ++ B "GET /b HTTP/1.1" ++ CRLF ++ B "Host: y" ++ CRLF ++ CRLF.

(** Two issue blocks inside an [<issues>] element. *)
Definition sample_issues : bytes :=
  B "<issues><issue><name>XSS</name></issue><ISSUE a=1>x</Issue></issues>".

(** * Properties *)

(** ** Slices and searches *)

Section Slices.
Context {A : Type}.
Implicit Types l k : list A.

Lemma len_nonneg l : 0 ≤ len l.
Proof. unfold len. lia. Qed.

Lemma len_app l k : len (l ++ k) = len l + len k.
Proof. unfold len. rewrite length_app. lia. Qed.

Lemma len_cons x l : len (x :: l) = 1 + len l.
Proof. unfold len. simpl. lia. Qed.

Lemma ztake_take l : ∀ n, ztake n l = take (Z.to_nat n) l.
Proof.
  induction l as [|x l IH]; intros n; simpl.
  - by rewrite take_nil.
  - destruct (Z.leb_spec n 0) as [Hn|Hn].
    + by replace (Z.to_nat n) with 0%nat by lia.
    + replace (Z.to_nat n) with (S (Z.to_nat (n - 1))) by lia.
      simpl. by rewrite IH.
Qed.

Lemma zdrop_drop l : ∀ n, zdrop n l = drop (Z.to_nat n) l.
Proof.
  induction l as [|x l IH]; intros n; simpl.
  - by rewrite drop_nil.
  - destruct (Z.leb_spec n 0) as [Hn|Hn].
    + by replace (Z.to_nat n) with 0%nat by lia.
    + replace (Z.to_nat n) with (S (Z.to_nat (n - 1))) by lia.
      simpl. by rewrite IH.
Qed.

Lemma ztake_zdrop l n : ztake n l ++ zdrop n l = l.
Proof. rewrite ztake_take, zdrop_drop. apply take_drop. Qed.

Lemma norm_index_range n i : 0 ≤ n → 0 ≤ norm_index n i ≤ n.
Proof. unfold norm_index. intros Hn. destruct (Z.ltb_spec i 0); lia. Qed.

Lemma norm_index_id n i : 0 ≤ i ≤ n → norm_index n i = i.
Proof. unfold norm_index. intros Hn. destruct (Z.ltb_spec i 0); lia. Qed.

(** A slice and the rest after its upper bound are consecutive pieces
    of the sequence. *)
Lemma slice_then_rest l a b :
  ∃ gap, l = gap ++ slice l a b ++ slice_from l b ∧ len gap ≤ norm_index (len l) b.
Proof.
  unfold slice, slice_from.
  pose proof (norm_index_range (len l) a (len_nonneg l)) as Ha.
  pose proof (norm_index_range (len l) b (len_nonneg l)) as Hb.
  set (a' := norm_index (len l) a) in *. set (b' := norm_index (len l) b) in *.
  rewrite !ztake_take, !zdrop_drop.
  destruct (Z.le_gt_cases a' b') as [Hab|Hab].
  - exists (take (Z.to_nat a') l). split.
    + replace (drop (Z.to_nat b') l)
        with (drop (Z.to_nat (b' - a')) (drop (Z.to_nat a') l)).
      * by rewrite take_drop, take_drop.
      * rewrite drop_drop. f_equal. lia.
    + unfold len in *. rewrite length_take. lia.
  - exists (take (Z.to_nat b') l). split.
    + replace (Z.to_nat (b' - a')) with 0%nat by lia.
      simpl. by rewrite take_drop.
    + unfold len in *. rewrite length_take. lia.
Qed.

Lemma slice_from_suffix l a : ∃ gap, l = gap ++ slice_from l a.
Proof.
  unfold slice_from. exists (ztake (norm_index (len l) a) l).
  by rewrite ztake_zdrop.
Qed.

Lemma slice_exact l k m : slice (l ++ k ++ m) (len l) (len l + len k) = k.
Proof.
  unfold slice.
  rewrite !norm_index_id by (rewrite !len_app; pose proof (len_nonneg l);
    pose proof (len_nonneg k); pose proof (len_nonneg m); lia).
  rewrite ztake_take, zdrop_drop. unfold len.
  rewrite Nat2Z.id, drop_app_length.
  replace (Z.to_nat _) with (length k) by lia.
  by rewrite take_app_length.
Qed.
End Slices.

(** ** Emitted messages are consecutive pieces of the input *)

Lemma extract_splits fuel buffer msg remaining :
  extract_http_message fuel buffer = Done (Some (msg, remaining)) →
  ∃ gap, buffer = gap ++ msg_bytes msg ++ remaining.
Proof.
  unfold extract_http_message, framed.
  destruct (find_next_http_start buffer) as [[start kind]|]; [|done].
  destruct (find_header_end buffer start) as [[header_end header_sep]|]; [|done].
  destruct (parse_headers _) as [first_line headers].
  intros H.
  assert (∃ e, msg = (slice buffer start e, first_line, headers)
               ∧ remaining = slice_from buffer e) as (e & -> & ->).
  { repeat case_match; simplify_eq; eauto. }
  destruct (slice_then_rest buffer start e) as (gap & Hgap & _). eauto.
Qed.

Lemma file_read_splits cs rest chunk rest' :
  file_read cs rest = (chunk, rest') → rest = chunk ++ rest'.
Proof.
  unfold file_read. case_match; intros [= <- <-].
  - by rewrite app_nil_r.
  - by rewrite ztake_zdrop.
Qed.

Lemma gen_next_splits cs fuel : ∀ st msg st',
  gen_next fuel cs st = Done (Some (msg, st')) →
  ∃ gap, unconsumed st = gap ++ msg_bytes msg ++ unconsumed st'.
Proof.
  induction fuel as [|fuel IH]; intros [buffer rest pc] msg st'; [done|].
  cbn [gen_next gen_pc_of gen_buffer gen_rest]. destruct pc.
  - destruct (file_read cs rest) as [chunk rest'] eqn:Hread.
    apply file_read_splits in Hread as ->.
    destruct chunk as [|c chunk]; [done|].
    intros (gap & Hgap)%IH. exists gap. rewrite <- Hgap.
    unfold unconsumed. simpl. by rewrite <- app_assoc.
  - destruct (extract_http_message fuel buffer) as [[[m remaining]|]|] eqn:Hx; [| |done].
    + intros [= <- <-]. apply extract_splits in Hx as (gap & ->).
      exists gap. unfold unconsumed. simpl. by rewrite <- !app_assoc.
    + intros (gap & Hgap)%IH. unfold unconsumed in *. simpl in *.
      destruct (cs * 2 <? len buffer).
      * destruct (slice_from_suffix buffer (- cs)) as (g & Hg).
        exists (g ++ gap). rewrite Hg at 1.
        rewrite <- !app_assoc. f_equal. exact Hgap.
      * eauto.
Qed.

Lemma gen_run_laid_out cs fuel : ∀ st,
  laid_out (unconsumed st) (msg_bytes <$> (gen_run fuel cs st).1).
Proof.
  induction fuel as [|fuel IH]; intros st; simpl; [constructor|].
  destruct (gen_next fuel cs st) as [[[msg st']|]|] eqn:Hnext; try constructor.
  apply gen_next_splits in Hnext as (gap & ->).
  specialize (IH st'). destruct (gen_run fuel cs st') as [msgs fin].
  simpl in *. by constructor.
Qed.

Lemma laid_out_ranges s ms :
  laid_out s ms →
  ∀ pre, ∃ ranges,
    Forall2 (λ m r, r.2 ≤ len (pre ++ s) ∧ m = slice (pre ++ s) r.1 r.2) ms ranges
    ∧ ranges_ordered (len pre) ranges.
Proof.
  induction 1 as [s|gap m rest ms _ IH]; intros pre.
  - exists []. split; [constructor|done].
  - destruct (IH (pre ++ gap ++ m)) as (ranges & Hall & Hord).
    exists ((len (pre ++ gap), len (pre ++ gap) + len m) :: ranges).
    pose proof (len_nonneg pre). pose proof (len_nonneg gap).
    pose proof (len_nonneg m). pose proof (len_nonneg rest).
    split.
    + constructor.
      * simpl. split; [rewrite !len_app; lia|].
        replace (pre ++ gap ++ m ++ rest) with ((pre ++ gap) ++ m ++ rest)
          by by rewrite <- !app_assoc.
        by rewrite slice_exact.
      * replace (pre ++ gap ++ m ++ rest) with ((pre ++ gap ++ m) ++ rest)
          by by rewrite <- !app_assoc.
        done.
    + simpl. rewrite !len_app in *. split_and!; [lia|lia|].
      by replace (len pre + len gap + len m) with (len pre + (len gap + len m)) by lia.
Qed.

(** C1.  Whatever the input, the read size and the number of steps run,
    every message the generator has emitted is a slice [lo, hi) of the
    input, and each of these byte ranges begins at or after the end of
    the one emitted before it: the ranges never decrease and never
    overlap.  Nothing is assumed about the headers, so this covers a
    content-length that parses as a negative integer. *)
Theorem message_ranges_ordered fuel input chunk_size :
  ∃ ranges : list (Z * Z),
    Forall2 (λ (msg : message) r, r.2 ≤ len input ∧ msg_bytes msg = slice input r.1 r.2)
      (iter_http_messages fuel input chunk_size).1 ranges
    ∧ ranges_ordered 0 ranges.
Proof.
  pose proof (gen_run_laid_out chunk_size fuel (gen_init input)) as H.
  apply laid_out_ranges with (pre := []) in H as (ranges & Hall & Hord).
  exists ranges. split; [|done].
  unfold iter_http_messages. simpl in Hall.
  by apply Forall2_fmap_l in Hall.
Qed.

(** ** Fuel *)

Lemma parse_chunked_end_mono buffer fuel : ∀ fuel' idx r,
  parse_chunked_end fuel buffer idx = Done r → (fuel ≤ fuel')%nat →
  parse_chunked_end fuel' buffer idx = Done r.
Proof.
  induction fuel as [|fuel IH]; intros fuel' idx r; [done|].
  destruct fuel' as [|fuel']; [lia|]. simpl.
  destruct (chunk_step buffer idx); [done|]. intros. apply IH; [done|lia].
Qed.

Lemma extract_http_message_mono buffer fuel fuel' r :
  extract_http_message fuel buffer = Done r → (fuel ≤ fuel')%nat →
  extract_http_message fuel' buffer = Done r.
Proof.
  unfold extract_http_message. intros H Hle.
  repeat case_match; simplify_eq; try done;
    match goal with
    | H1 : parse_chunked_end fuel _ _ = Done _, H2 : parse_chunked_end fuel' _ _ = _ |- _ =>
        rewrite (parse_chunked_end_mono _ _ _ _ _ H1 Hle) in H2; by simplify_eq
    end.
Qed.

Lemma gen_next_mono cs fuel : ∀ fuel' st r,
  gen_next fuel cs st = Done r → (fuel ≤ fuel')%nat →
  gen_next fuel' cs st = Done r.
Proof.
  induction fuel as [|fuel IH]; intros fuel' st r; [done|].
  destruct fuel' as [|fuel']; [lia|]. intros H Hle.
  cbn [gen_next] in *. destruct (gen_pc_of st).
  - destruct (file_read cs (gen_rest st)) as [[|c chunk] rest]; [done|].
    apply IH; [done|lia].
  - destruct (extract_http_message fuel (gen_buffer st)) as [x|] eqn:Hx; [|done].
    rewrite (extract_http_message_mono _ _ fuel' _ Hx) by lia.
    destruct x as [[msg remaining]|]; [done|]. apply IH; [done|lia].
Qed.

Lemma gen_run_mono cs fuel : ∀ fuel' st msgs,
  gen_run fuel cs st = (msgs, true) → (fuel ≤ fuel')%nat →
  gen_run fuel' cs st = (msgs, true).
Proof.
  induction fuel as [|fuel IH]; intros fuel' st msgs; [done|].
  destruct fuel' as [|fuel']; [lia|]. intros H Hle.
  cbn [gen_run] in *.
  destruct (gen_next fuel cs st) as [x|] eqn:Hx; [|done].
  rewrite (gen_next_mono _ _ fuel' _ _ Hx) by lia.
  destruct x as [[msg st']|]; [|done].
  destruct (gen_run fuel cs st') as [msgs' fin] eqn:Hrun.
  simplify_eq. rewrite (IH fuel' st' msgs') by (done || lia). done.
Qed.

Lemma pair_loop_mono urlparse limit fuel : ∀ fuel' gen st r,
  pair_loop urlparse fuel limit gen st = Done r → (fuel ≤ fuel')%nat →
  pair_loop urlparse fuel' limit gen st = Done r.
Proof.
  induction fuel as [|fuel IH]; intros fuel' gen st r; [done|].
  destruct fuel' as [|fuel']; [lia|]. intros H Hle.
  cbn [pair_loop] in *.
  destruct (gen_next fuel default_chunk_size gen) as [x|] eqn:Hx; [|done].
  rewrite (gen_next_mono _ _ fuel' _ _ Hx) by lia.
  destruct x as [[msg gen']|]; [|done].
  destruct (pair_message urlparse msg st) as [st2|]; [|done].
  destruct (limit_reached _ _); [done|]. apply IH; [done|lia].
Qed.

Lemma write_http_messages_as_xml_mono urlparse input limit fuel fuel' r :
  write_http_messages_as_xml urlparse fuel input limit = Done r → (fuel ≤ fuel')%nat →
  write_http_messages_as_xml urlparse fuel' input limit = Done r.
Proof.
  unfold write_http_messages_as_xml. intros H Hle.
  destruct (pair_loop urlparse fuel _ _ _) as [st|] eqn:Hst; [|done].
  by rewrite (pair_loop_mono _ _ _ fuel' _ _ _ Hst Hle).
Qed.

(** ** Searching for a byte string *)

Lemma byte_eqb_eq a b : byte_eqb a b = true ↔ a = b.
Proof. split; [apply Byte.byte_dec_bl|apply Byte.byte_dec_lb]. Qed.

Lemma bytes_eqb_eq a : ∀ b, bytes_eqb a b = true ↔ a = b.
Proof.
  induction a as [|x a IH]; intros [|y b]; simpl; try done.
  rewrite andb_true_iff, byte_eqb_eq, IH.
  split; [by intros [-> ->]|by intros [= -> ->]].
Qed.

Lemma startswith_app sub : ∀ l, startswith sub l = true ↔ ∃ k, l = sub ++ k.
Proof.
  induction sub as [|x sub IH]; intros l; simpl.
  - split; [by exists l|done].
  - destruct l as [|y l]; [split; [done|by intros [k ?]]|].
    rewrite andb_true_iff, byte_eqb_eq, IH. split.
    + intros [-> [k ->]]. by exists k.
    + intros [k [= -> ->]]. eauto.
Qed.

Lemma find_from_bounds sub l : ∀ pos,
  find_from sub l pos = -1 ∨
  (pos ≤ find_from sub l pos ∧ find_from sub l pos + len sub ≤ pos + len l).
Proof.
  induction l as [|x l IH]; intros pos; simpl.
  - destruct sub; simpl; [right|left]; rewrite ?len_cons; unfold len; simpl; lia.
  - destruct (startswith sub (x :: l)) eqn:Hs.
    + right. apply startswith_app in Hs as [k Hk]. rewrite Hk, len_app.
      pose proof (len_nonneg k). lia.
    + destruct (IH (pos + 1)) as [->|?]; [by left|right]. rewrite len_cons. lia.
Qed.

Lemma find_bounds sub buffer start :
  0 ≤ start →
  find sub buffer start = -1 ∨
  (start ≤ find sub buffer start ∧ find sub buffer start + len sub ≤ len buffer).
Proof.
  intros Hs. unfold find.
  destruct (Z.ltb_spec start 0); [lia|].
  destruct (Z.ltb_spec (len buffer) start); [by left|].
  rewrite zdrop_drop.
  destruct (find_from_bounds sub (drop (Z.to_nat start) buffer) start) as [->|[? Hle]];
    [by left|right].
  split; [done|]. unfold len in *. rewrite length_drop in Hle. lia.
Qed.

Lemma find_header_end_bounds buffer start header_end header_sep :
  0 ≤ start →
  find_header_end buffer start = Some (header_end, header_sep) →
  start ≤ header_end ∧ 0 < header_sep ∧ header_end + header_sep ≤ len buffer.
Proof.
  intros Hs. unfold find_header_end.
  pose proof (find_bounds (CRLF ++ CRLF) buffer start Hs) as H4.
  pose proof (find_bounds [LF; LF] buffer start Hs) as H2.
  replace (len (CRLF ++ CRLF)) with 4 in H4 by done.
  replace (len [LF; LF]) with 2 in H2 by done.
  set (f4 := find (CRLF ++ CRLF) buffer start) in *.
  set (f2 := find [LF; LF] buffer start) in *.
  destruct (Z.eqb_spec f4 (-1)) as [E4|E4].
  - destruct (Z.eqb_spec f2 (-1)) as [E2|E2]; [done|]. intros [= <- <-]. lia.
  - destruct (Z.eqb_spec f4 (-1)) as [|_]; [done|]. intros [= <- <-]. lia.
Qed.

(** ** The start locator *)

Lemma search_from_spec r s : ∀ pos p,
  search_from r s pos = Some p →
  ∃ n : nat, p = pos + Z.of_nat n ∧ (n ≤ length s)%nat ∧ match_at r p (drop n s) = true
    ∧ ∀ m : nat, (m < n)%nat → match_at r (pos + Z.of_nat m) (drop m s) = false.
Proof.
  induction s as [|x s IH]; intros pos p; simpl.
  - destruct (match_at r pos []) eqn:Hm; [|done].
    intros [= <-]. exists 0%nat. rewrite Z.add_0_r. split_and!; [done|done|done|lia].
  - destruct (match_at r pos (x :: s)) eqn:Hm.
    + intros [= <-]. exists 0%nat. rewrite Z.add_0_r. split_and!; [done|lia|done|lia].
    + intros (n & -> & Hn & Hat & Hleft)%IH. exists (S n).
      split_and!; [lia|lia|by replace (pos + Z.of_nat (S n)) with (pos + 1 + Z.of_nat n) by lia|].
      intros [|m] Hlt; simpl; [by rewrite Z.add_0_r|].
      replace (pos + Z.of_nat (S m)) with (pos + 1 + Z.of_nat m) by lia. apply Hleft. lia.
Qed.

Lemma search_from_none r s : ∀ pos,
  search_from r s pos = None →
  ∀ m : nat, (m ≤ length s)%nat → match_at r (pos + Z.of_nat m) (drop m s) = false.
Proof.
  induction s as [|x s IH]; intros pos; simpl.
  - destruct (match_at r pos []) eqn:Hm; [done|].
    intros _ m Hm'. replace m with 0%nat by lia. by rewrite Z.add_0_r.
  - destruct (match_at r pos (x :: s)) eqn:Hm; [done|].
    intros Hnone [|m] Hle; simpl; [by rewrite Z.add_0_r|].
    replace (pos + Z.of_nat (S m)) with (pos + 1 + Z.of_nat m) by lia. apply IH; [done|lia].
Qed.

Lemma skip_breaks_bounds l : ∀ start,
  start ≤ skip_breaks l start ≤ start + len l.
Proof.
  induction l as [|x l IH]; intros start; simpl.
  - unfold len. simpl. lia.
  - rewrite len_cons. pose proof (len_nonneg l).
    destruct (is_break x); [specialize (IH (start + 1))|]; lia.
Qed.

Lemma min_by_offset_in {A} (ms : list (Z * A)) : ∀ m, min_by_offset m ms ∈ m :: ms.
Proof.
  unfold min_by_offset.
  induction ms as [|x ms IH]; intros m; simpl; [by left|].
  specialize (IH (if x.1 <? m.1 then x else m)).
  destruct (x.1 <? m.1); apply elem_of_cons in IH as [->|IH].
  - right. by left.
  - by do 2 right.
  - by left.
  - by do 2 right.
Qed.

Lemma search_bounds r buffer p : search r buffer = Some p → 0 ≤ p ≤ len buffer.
Proof. intros (n & -> & Hn & _)%search_from_spec. unfold len. lia. Qed.

Lemma find_next_http_start_bounds buffer start kind :
  find_next_http_start buffer = Some (start, kind) → 0 ≤ start ≤ len buffer.
Proof.
  unfold find_next_http_start.
  set (found := _ ++ _).
  assert (Forall (λ x : Z * string, 0 ≤ x.1 ≤ len buffer) found) as Hall.
  { apply Forall_app. split.
    - destruct (search REQUEST_START_RE buffer) as [a|] eqn:Ha; [|done].
      apply search_bounds in Ha. by apply Forall_singleton.
    - destruct (search RESPONSE_START_RE buffer) as [b|] eqn:Hb; [|done].
      apply search_bounds in Hb. by apply Forall_singleton. }
  destruct found as [|m ms]; [done|].
  pose proof (min_by_offset_in ms m) as Hin.
  destruct (min_by_offset m ms) as [s k]. intros [= <- <-].
  rewrite Forall_forall in Hall. apply Hall in Hin. simpl in Hin.
  pose proof (skip_breaks_bounds (zdrop s buffer) s) as Hskip.
  rewrite zdrop_drop in *. unfold len in *. rewrite length_drop in Hskip. lia.
Qed.

(** ** What a match of a start pattern looks like at its first bytes *)

Lemma is_break_fold_case c : is_break c = true → fold_case c = c.
Proof. by destruct c. Qed.

Lemma begins_line_lit x l : is_break (fold_case x) = false → begins_line (Lit (x :: l)).
Proof.
  intros Hx pos [|c s] k; simpl; [done|].
  unfold byte_eqb_ic. destruct (byte_eqb _ _) eqn:Heq; [|done].
  intros _. exists c, s. split; [done|].
  apply byte_eqb_eq in Heq. destruct (is_break c) eqn:Hc; [|done].
  rewrite (is_break_fold_case c Hc) in Heq. congruence.
Qed.

Lemma begins_line_seq r1 r2 : begins_line r1 → begins_line (Seq r1 r2).
Proof. intros H pos s k. simpl. apply H. Qed.

Lemma begins_line_alt r1 r2 : begins_line r1 → begins_line r2 → begins_line (Alt r1 r2).
Proof.
  intros H1 H2 pos s k. simpl. intros [?|?]%orb_true_iff; [by eapply H1|by eapply H2].
Qed.

Lemma begins_line_never : begins_line (Cls (λ _, false)).
Proof. by intros pos [|c s] k. Qed.

Lemma begins_line_methods : begins_line (any_of HTTP_METHODS).
Proof.
  unfold HTTP_METHODS. simpl.
  repeat (apply begins_line_alt; [by apply begins_line_lit|]).
  apply begins_line_never.
Qed.

Lemma begins_line_version r : begins_line (Seq http_version r).
Proof. apply begins_line_seq, begins_line_seq. by apply begins_line_lit. Qed.

(** The anchor [(?:^|[\r\n])] in front of a pattern that begins a line:
    the match starts on the first byte of the line, or on the line break
    just before it. *)
Lemma anchored_match r pos s :
  begins_line r →
  match_at (Seq (Alt Bol (Cls is_break)) r) pos s = true →
  (∃ c s', s = c :: s' ∧ is_break c = false)
  ∨ (∃ x c s', s = x :: c :: s' ∧ is_break x = true ∧ is_break c = false).
Proof.
  intros Hr. unfold match_at. simpl. intros [H|H]%orb_true_iff.
  - apply andb_true_iff in H as [_ H]. left. by eapply Hr.
  - right. destruct s as [|x s]; [done|].
    apply andb_true_iff in H as [Hx H]. apply Hr in H as (c & s' & -> & Hc).
    by exists x, c, s'.
Qed.

Lemma request_start_match pos s :
  match_at REQUEST_START_RE pos s = true →
  (∃ c s', s = c :: s' ∧ is_break c = false)
  ∨ (∃ x c s', s = x :: c :: s' ∧ is_break x = true ∧ is_break c = false).
Proof. apply anchored_match, begins_line_seq, begins_line_methods. Qed.

Lemma response_start_match pos s :
  match_at RESPONSE_START_RE pos s = true →
  (∃ c s', s = c :: s' ∧ is_break c = false)
  ∨ (∃ x c s', s = x :: c :: s' ∧ is_break x = true ∧ is_break c = false).
Proof. apply anchored_match, begins_line_version. Qed.

(** After the skip loop the offset is on the first byte of the line. *)
Lemma skip_to_content buffer (n : nat) :
  ((∃ c s', drop n buffer = c :: s' ∧ is_break c = false)
   ∨ (∃ x c s', drop n buffer = x :: c :: s' ∧ is_break x = true ∧ is_break c = false)) →
  ∃ start c,
    skip_breaks (zdrop (Z.of_nat n) buffer) (Z.of_nat n) = start
    ∧ Z.of_nat n ≤ start
    ∧ (∀ i, Z.of_nat n ≤ i < start → ∃ x, buffer !! Z.to_nat i = Some x ∧ is_break x = true)
    ∧ buffer !! Z.to_nat start = Some c ∧ is_break c = false.
Proof.
  rewrite zdrop_drop, Nat2Z.id.
  intros [(c & s' & Hd & Hc)|(x & c & s' & Hd & Hx & Hc)]; rewrite Hd; simpl.
  - rewrite Hc. exists (Z.of_nat n), c. split_and!; [done|lia|lia| |done].
    rewrite Nat2Z.id, <- (Nat.add_0_r n), <- lookup_drop. by rewrite Hd.
  - rewrite Hx, Hc. exists (Z.of_nat n + 1), c. split_and!; [done|lia| | |done].
    + intros i Hi. assert (i = Z.of_nat n) as -> by lia. exists x. split; [|done].
      rewrite Nat2Z.id, <- (Nat.add_0_r n), <- lookup_drop. by rewrite Hd.
    + replace (Z.to_nat (Z.of_nat n + 1)) with (n + 1)%nat by lia.
      rewrite <- lookup_drop. by rewrite Hd.
Qed.

Lemma search_content r buffer p :
  (∀ pos s, match_at r pos s = true →
     (∃ c s', s = c :: s' ∧ is_break c = false)
     ∨ (∃ x c s', s = x :: c :: s' ∧ is_break x = true ∧ is_break c = false)) →
  search r buffer = Some p →
  ∃ start c,
    skip_breaks (zdrop p buffer) p = start
    ∧ p ≤ start
    ∧ (∀ i, p ≤ i < start → ∃ x, buffer !! Z.to_nat i = Some x ∧ is_break x = true)
    ∧ buffer !! Z.to_nat start = Some c ∧ is_break c = false.
Proof.
  intros Hr (n & -> & _ & Hm & _)%search_from_spec. simpl.
  apply skip_to_content. by eapply Hr.
Qed.

(** C9.  When both patterns match, the locator answers with the lesser
    of the two match offsets, the request on a tie, moved past the line
    breaks in front of the line so that it rests on a byte that is not a
    line break; when neither pattern matches it answers [None]. *)
Theorem find_next_http_start_earliest buffer :
  (∀ a b,
     search REQUEST_START_RE buffer = Some a →
     search RESPONSE_START_RE buffer = Some b →
     ∃ start c,
       find_next_http_start buffer
       = Some (start, if a <=? b then "request"%string else "response"%string)
       ∧ Z.min a b ≤ start
       ∧ (∀ i, Z.min a b ≤ i < start →
            ∃ x, buffer !! Z.to_nat i = Some x ∧ is_break x = true)
       ∧ buffer !! Z.to_nat start = Some c ∧ is_break c = false)
  ∧ (search REQUEST_START_RE buffer = None →
     search RESPONSE_START_RE buffer = None →
     find_next_http_start buffer = None).
Proof.
  split.
  - intros a b Ha Hb. unfold find_next_http_start. rewrite Ha, Hb.
    cbn [app min_by_offset fold_left fst].
    destruct (Z.ltb_spec b a) as [Hlt|Hge].
    + destruct (search_content _ _ _ response_start_match Hb)
        as (start & c & Hskip & ? & ? & ? & ?).
      exists start, c. rewrite Hskip.
      destruct (Z.leb_spec a b); [lia|].
      by replace (Z.min a b) with b by lia.
    + destruct (search_content _ _ _ request_start_match Ha)
        as (start & c & Hskip & ? & ? & ? & ?).
      exists start, c. rewrite Hskip.
      destruct (Z.leb_spec a b); [|lia].
      by replace (Z.min a b) with a by lia.
  - intros Ha Hb. unfold find_next_http_start. by rewrite Ha, Hb.
Qed.

(** C9, at a buffer holding both a request line and a status line, and
    at one holding neither. *)
Lemma find_next_http_start_earliest_witness :
  (∃ start c,
     find_next_http_start both_starts = Some (start, "request"%string)
     ∧ 1 ≤ start
     ∧ (∀ i, 1 ≤ i < start → ∃ x, both_starts !! Z.to_nat i = Some x ∧ is_break x = true)
     ∧ both_starts !! Z.to_nat start = Some c ∧ is_break c = false)
  ∧ find_next_http_start (B "no start line here") = None.
Proof.
  split.
  - apply (proj1 (find_next_http_start_earliest both_starts) 1 17); vm_compute; reflexivity.
  - apply (proj2 (find_next_http_start_earliest (B "no start line here"))); vm_compute; reflexivity.
Defined.

(** ** The framer once the header block is resolved *)

Section Framer.
Variables (buffer : bytes) (start : Z) (kind : string).
Variables (header_end header_sep : Z) (first_line : string).
Variable headers : gmap string string.

Hypothesis Hstart : find_next_http_start buffer = Some (start, kind).
Hypothesis Hend : find_header_end buffer start = Some (header_end, header_sep).
Hypothesis Hheaders :
  parse_headers (slice buffer start header_end) = (first_line, headers).

Lemma body_start_bounds :
  0 ≤ start ≤ header_end ∧ header_end < header_end + header_sep ≤ len buffer.
Proof.
  pose proof (find_next_http_start_bounds _ _ _ Hstart).
  pose proof (find_header_end_bounds _ _ _ _ (proj1 H) Hend).
  lia.
Qed.

Lemma extract_content_length fuel value :
  headers !! "content-length"%string = Some value →
  extract_http_message fuel buffer
  = if len buffer <? header_end + header_sep + content_length value then Done None
    else Done (framed buffer start (header_end + header_sep + content_length value)
                 first_line headers).
Proof.
  intros Hcl. unfold extract_http_message.
  by rewrite Hstart, Hend, Hheaders, Hcl.
Qed.

Lemma extract_chunked fuel te :
  headers !! "content-length"%string = None →
  headers !! "transfer-encoding"%string = Some te →
  str_contains "chunked" (str_lower te) = true →
  extract_http_message fuel buffer
  = match parse_chunked_end fuel buffer (header_end + header_sep) with
    | OutOfFuel => OutOfFuel
    | Done None => Done None
    | Done (Some chunked_end) => Done (framed buffer start chunked_end first_line headers)
    end.
Proof.
  intros Hcl Hte Hch. unfold extract_http_message.
  by rewrite Hstart, Hend, Hheaders, Hcl, Hte, Hch.
Qed.

Lemma extract_no_body fuel :
  headers !! "content-length"%string = None →
  match headers !! "transfer-encoding"%string with
  | Some te => str_contains "chunked" (str_lower te) = false
  | None => True
  end →
  extract_http_message fuel buffer
  = Done (framed buffer start (header_end + header_sep) first_line headers).
Proof.
  intros Hcl Hte. unfold extract_http_message.
  rewrite Hstart, Hend, Hheaders, Hcl.
  destruct (headers !! "transfer-encoding"%string); [by rewrite Hte|done].
Qed.
End Framer.

(** C4.  When the header block carries both a content-length and a
    transfer-encoding that contains "chunked", the body end is the body
    start plus the content-length (need-more-data while that much is not
    buffered), with any fuel: the chunk stream is not walked. *)
Theorem content_length_precedence fuel buffer start kind header_end header_sep
    first_line headers value te :
  find_next_http_start buffer = Some (start, kind) →
  find_header_end buffer start = Some (header_end, header_sep) →
  parse_headers (slice buffer start header_end) = (first_line, headers) →
  headers !! "content-length"%string = Some value →
  headers !! "transfer-encoding"%string = Some te →
  str_contains "chunked" (str_lower te) = true →
  let body_start := header_end + header_sep in
  let body_end := body_start + content_length value in
  extract_http_message fuel buffer
  = if len buffer <? body_end then Done None
    else Done (Some (slice buffer start body_end, first_line, headers,
                     slice_from buffer body_end)).
Proof. intros Hs He Hh Hcl _ _. by apply extract_content_length with kind. Qed.

(** C4, at a response that declares three body bytes and is also marked
    chunked, with no fuel for the walker. *)
Lemma content_length_precedence_witness :
  extract_http_message 0 both_framings
  = Done (Some (B "HTTP/1.1 200 OK" ++ CRLF ++ B "Content-Length: 3" ++ CRLF
                ++ B "Transfer-Encoding: chunked" ++ CRLF ++ CRLF ++ B "4" ++ CRLF,
                "HTTP/1.1 200 OK"%string, both_framings_headers,
                B "Wiki" ++ CRLF ++ B "0" ++ CRLF ++ CRLF)).
Proof.
  rewrite (content_length_precedence 0 both_framings 0 "response" 62 4
             "HTTP/1.1 200 OK" both_framings_headers "3" "chunked");
    vm_compute; reflexivity.
Defined.

(** ** Slices and searches behind a prefix *)

Lemma zdrop_app_shift {A} (pre l : list A) k :
  0 ≤ k → zdrop (len pre + k) (pre ++ l) = zdrop k l.
Proof.
  intros Hk. rewrite !zdrop_drop. unfold len.
  replace (Z.to_nat (Z.of_nat (length pre) + k)) with (length pre + Z.to_nat k)%nat by lia.
  by rewrite drop_app_add.
Qed.

Lemma slice_app_shift {A} (pre l : list A) i j :
  0 ≤ i → 0 ≤ j → slice (pre ++ l) (len pre + i) (len pre + j) = slice l i j.
Proof.
  intros Hi Hj. unfold slice. rewrite len_app.
  pose proof (len_nonneg pre). pose proof (len_nonneg l).
  assert (∀ x, 0 ≤ x → norm_index (len pre + len l) (len pre + x)
                       = len pre + norm_index (len l) x) as Hn.
  { intros x Hx. unfold norm_index.
    destruct (Z.ltb_spec (len pre + x) 0), (Z.ltb_spec x 0); lia. }
  rewrite !Hn by done.
  rewrite zdrop_app_shift by (apply norm_index_range; lia).
  f_equal. lia.
Qed.

Lemma slice_from_app_shift {A} (pre l : list A) j :
  0 ≤ j → slice_from (pre ++ l) (len pre + j) = slice_from l j.
Proof.
  intros Hj. unfold slice_from. rewrite len_app.
  pose proof (len_nonneg pre). pose proof (len_nonneg l).
  replace (norm_index (len pre + len l) (len pre + j))
    with (len pre + norm_index (len l) j).
  - rewrite zdrop_app_shift; [done|]. apply norm_index_range. lia.
  - unfold norm_index. destruct (Z.ltb_spec (len pre + j) 0), (Z.ltb_spec j 0); lia.
Qed.

Lemma find_from_shift sub l : ∀ p q,
  0 ≤ q →
  find_from sub l p
  = (let r := find_from sub l q in if r =? -1 then -1 else r - q + p).
Proof.
  induction l as [|x l IH]; intros p q Hq; simpl.
  - destruct (startswith sub []); [|done].
    destruct (Z.eqb_spec q (-1)); lia.
  - destruct (startswith sub (x :: l)).
    + destruct (Z.eqb_spec q (-1)); lia.
    + rewrite (IH (p + 1) (q + 1)) by lia. simpl.
      destruct (Z.eqb_spec (find_from sub l (q + 1)) (-1)); lia.
Qed.

Lemma find_app_shift sub pre l k :
  0 ≤ k →
  find sub (pre ++ l) (len pre + k)
  = (let r := find sub l k in if r =? -1 then -1 else len pre + r).
Proof.
  intros Hk. unfold find. rewrite len_app.
  pose proof (len_nonneg pre).
  destruct (Z.ltb_spec (len pre + k) 0); [lia|].
  destruct (Z.ltb_spec k 0); [lia|].
  destruct (Z.ltb_spec (len pre + len l) (len pre + k)),
    (Z.ltb_spec (len l) k); try lia; [done|].
  rewrite zdrop_app_shift by done.
  rewrite (find_from_shift sub _ (len pre + k) k) by done. simpl.
  destruct (Z.eqb_spec (find_from sub (zdrop k l) k) (-1)); [done|]. lia.
Qed.

(** [find] inside the sequence, from a position that is in range. *)
Lemma find_in_range sub l k :
  0 ≤ k ≤ len l → find sub l k = find_from sub (zdrop k l) k.
Proof.
  intros Hk. unfold find.
  destruct (Z.ltb_spec k 0); [lia|]. by destruct (Z.ltb_spec (len l) k); [lia|].
Qed.

Lemma slice_in_range {A} (l : list A) i j :
  0 ≤ i → 0 ≤ j ≤ len l → i ≤ j → slice l i j = ztake (j - i) (zdrop i l).
Proof.
  intros Hi Hj Hij. unfold slice. by rewrite !norm_index_id by lia.
Qed.

Lemma slice_split {A} (l : list A) a b c :
  0 ≤ a ≤ b → b ≤ c ≤ len l → slice l a c = slice l a b ++ slice l b c.
Proof.
  intros Hab Hbc. rewrite !slice_in_range by lia.
  rewrite !ztake_take, !zdrop_drop.
  replace (Z.to_nat (c - a)) with (Z.to_nat (b - a) + Z.to_nat (c - b))%nat by lia.
  rewrite <- take_take_drop, drop_drop. do 3 f_equal. lia.
Qed.

(** ** The chunked example of the specification *)

(** One round of the walker over a chunk whose size line and data both
    end in [\r\n]. *)
Lemma chunk_step_crlf buffer idx line_end size :
  find CRLF buffer idx = line_end → line_end ≠ -1 →
  int_of_bytes (strip is_space (split1 ";" (slice buffer idx line_end)).1) 16 = Some size →
  line_end + 2 + size + 2 ≤ len buffer →
  slice buffer (line_end + 2 + size) (line_end + 2 + size + 2) = CRLF →
  chunk_step buffer idx
  = if size =? 0 then Return (Some (line_end + 2 + size + 2))
    else Continue (line_end + 2 + size + 2).
Proof.
  intros Hfind Hne Hsize Hlen Hterm. unfold chunk_step. rewrite Hfind.
  assert ((line_end =? -1) = false) as Hb by lia.
  rewrite Hb. cbv beta iota zeta. rewrite Hb, Hsize.
  destruct (Z.ltb_spec (len buffer) (line_end + 2 + size + 2)); [lia|].
  rewrite Hterm. reflexivity.
Qed.

Lemma wiki_body_walk fuel pre rest :
  (2 ≤ fuel)%nat →
  parse_chunked_end fuel (pre ++ wiki_body ++ rest) (len pre) = Done (Some (len pre + 14)).
Proof.
  intros Hfuel. destruct fuel as [|[|fuel]]; [lia|lia|].
  pose proof (len_nonneg pre). pose proof (len_nonneg rest).
  assert (len (wiki_body ++ rest) = 14 + len rest) as Hlen by by rewrite len_app.
  assert (∀ k r, 0 ≤ k ≤ 14 → r ≠ -1 →
    find_from CRLF (zdrop k (wiki_body ++ rest)) k = r →
    find CRLF (pre ++ wiki_body ++ rest) (len pre + k) = len pre + r) as Hfind.
  { intros k r Hk Hr Hf. rewrite find_app_shift by lia. rewrite find_in_range by lia.
    rewrite Hf. simpl. by destruct (Z.eqb_spec r (-1)). }
  assert (∀ i j x, 0 ≤ i → 0 ≤ j ≤ 14 → i ≤ j →
    take (Z.to_nat (j - i)) (drop (Z.to_nat i) (wiki_body ++ rest)) = x →
    slice (pre ++ wiki_body ++ rest) (len pre + i) (len pre + j) = x) as Hslice.
  { intros i j x Hi Hj Hij <-. rewrite slice_app_shift by lia.
    rewrite slice_in_range by lia. by rewrite ztake_take, zdrop_drop. }
  assert (len (pre ++ wiki_body ++ rest) = len pre + 14 + len rest) as Hlen'
    by (rewrite len_app; lia).
  cbn [parse_chunked_end].
  replace (len pre) with (len pre + 0) at 1 by lia.
  rewrite (chunk_step_crlf _ _ (len pre + 1) 4); [| |lia| | |].
  - change (4 =? 0) with false. cbv iota.
    replace (len pre + 1 + 2 + 4 + 2) with (len pre + 9) by lia.
    rewrite (chunk_step_crlf _ _ (len pre + 10) 0); [| |lia| | |].
    + change (0 =? 0) with true. cbv iota. do 2 f_equal. lia.
    + by apply Hfind; [lia| |vm_compute].
    + by rewrite (Hslice 9 10 (B "0")); [vm_compute|lia|lia|lia|vm_compute].
    + lia.
    + replace (len pre + 10 + 2 + 0) with (len pre + 12) by lia.
      replace (len pre + 12 + 2) with (len pre + 14) by lia.
      by apply Hslice; [lia|lia|lia|vm_compute].
  - by apply Hfind; [lia| |vm_compute].
  - by rewrite (Hslice 0 1 (B "4")); [vm_compute|lia|lia|lia|vm_compute].
  - lia.
  - replace (len pre + 1 + 2 + 4) with (len pre + 7) by lia.
    replace (len pre + 7 + 2) with (len pre + 9) by lia.
    by apply Hslice; [lia|lia|lia|vm_compute].
Qed.

Lemma slice_from_exact {A} (l k m : list A) :
  slice_from (l ++ k ++ m) (len l + len k) = m.
Proof.
  unfold slice_from.
  pose proof (len_nonneg l). pose proof (len_nonneg k). pose proof (len_nonneg m).
  rewrite norm_index_id by (rewrite !len_app; lia).
  rewrite zdrop_drop. unfold len.
  replace (Z.to_nat _) with (length l + length k)%nat by lia.
  by rewrite <- drop_drop, !drop_app_length.
Qed.

(** C5.  For a chunked message whose body bytes are
    [4\r\nWiki\r\n0\r\n\r\n], the walker returns the offset just after
    the line break that ends the zero chunk, and the message is the
    header block followed by these body bytes as they are. *)
Theorem chunked_wiki_framed fuel buffer start kind header_end header_sep
    first_line headers te pre rest :
  find_next_http_start buffer = Some (start, kind) →
  find_header_end buffer start = Some (header_end, header_sep) →
  parse_headers (slice buffer start header_end) = (first_line, headers) →
  headers !! "content-length"%string = None →
  headers !! "transfer-encoding"%string = Some te →
  str_contains "chunked" (str_lower te) = true →
  buffer = pre ++ wiki_body ++ rest →
  len pre = header_end + header_sep →
  (2 ≤ fuel)%nat →
  parse_chunked_end fuel buffer (header_end + header_sep)
  = Done (Some (len pre + len wiki_body))
  ∧ extract_http_message fuel buffer
    = Done (Some (slice buffer start (len pre) ++ wiki_body, first_line, headers, rest)).
Proof.
  intros Hs He Hh Hcl Hte Hch Hbuf Hpre Hfuel.
  pose proof (body_start_bounds _ _ _ _ _ Hs He) as Hb.
  rewrite (extract_chunked _ _ _ _ _ _ _ Hs He Hh fuel te Hcl Hte Hch).
  rewrite <- Hpre, Hbuf, (wiki_body_walk fuel pre rest Hfuel).
  split; [done|]. unfold framed. do 3 f_equal.
  - repeat f_equal.
    pose proof (len_nonneg pre). pose proof (len_nonneg rest).
    change 14 with (len wiki_body).
    rewrite (slice_split _ start (len pre) (len pre + len wiki_body));
      [|lia|rewrite !len_app; change (len wiki_body) with 14; lia].
    by rewrite slice_exact.
  - change 14 with (len wiki_body). apply slice_from_exact.
Qed.

(** C5, at a complete chunked response. *)
Lemma chunked_wiki_framed_witness :
  parse_chunked_end 2 wiki_response 47 = Done (Some 61)
  ∧ extract_http_message 2 wiki_response
    = Done (Some (wiki_response, "HTTP/1.1 200 OK"%string,
                  {[ "transfer-encoding"%string := "chunked"%string ]}, [])).
Proof.
  apply (chunked_wiki_framed 2 wiki_response 0 "response" 43 4 "HTTP/1.1 200 OK"
           {[ "transfer-encoding"%string := "chunked"%string ]} "chunked"
           (B "HTTP/1.1 200 OK" ++ CRLF ++ B "Transfer-Encoding: chunked" ++ CRLF ++ CRLF) []);
    (vm_compute; reflexivity) || lia.
Defined.

(** ** Body length as the specification words it *)

(** C2 fails as stated: with [Content-Length: abc] and a chunked
    transfer-encoding the code frames an empty body and leaves the chunk
    stream in the buffer, where the specification's rule walks it. *)
Lemma unparsable_length_not_chunked :
  int_of_str "abc" = None
  ∧ spec_extract_http_message 2 unparsable_length_chunked
    = Done (Some (unparsable_length_chunked, "HTTP/1.1 200 OK"%string,
                  unparsable_length_headers, []))
  ∧ extract_http_message 2 unparsable_length_chunked
    = Done (Some (B "HTTP/1.1 200 OK" ++ CRLF ++ B "Content-Length: abc" ++ CRLF
                  ++ B "Transfer-Encoding: chunked" ++ CRLF ++ CRLF,
                  "HTTP/1.1 200 OK"%string, unparsable_length_headers, wiki_body))
  ∧ extract_http_message 2 unparsable_length_chunked
    ≠ spec_extract_http_message 2 unparsable_length_chunked.
Proof.
  assert (extract_http_message 2 unparsable_length_chunked
    = Done (Some (B "HTTP/1.1 200 OK" ++ CRLF ++ B "Content-Length: abc" ++ CRLF
                  ++ B "Transfer-Encoding: chunked" ++ CRLF ++ CRLF,
                  "HTTP/1.1 200 OK"%string, unparsable_length_headers, wiki_body))) as Hcode
    by (vm_compute; reflexivity).
  assert (spec_extract_http_message 2 unparsable_length_chunked
    = Done (Some (unparsable_length_chunked, "HTTP/1.1 200 OK"%string,
                  unparsable_length_headers, []))) as Hspec
    by (vm_compute; reflexivity).
  split_and!; [by vm_compute|done|done|].
  rewrite Hcode, Hspec. intros H. vm_compute in H. discriminate H.
Qed.

(** C2, amended.  A content-length that parses as a non-negative
    integer fixes the body length; a content-length that does not parse
    as an integer gives length zero, whatever the transfer-encoding;
    without a content-length header a chunked transfer-encoding is
    walked; without a content-length header and without a chunked
    transfer-encoding the body is empty.  A content-length that parses
    as a negative integer is in none of the four cases. *)
Theorem body_length_rules fuel buffer start kind header_end header_sep first_line headers :
  find_next_http_start buffer = Some (start, kind) →
  find_header_end buffer start = Some (header_end, header_sep) →
  parse_headers (slice buffer start header_end) = (first_line, headers) →
  let body_start := header_end + header_sep in
  let framed_at body_end :=
    Done (Some (slice buffer start body_end, first_line, headers,
                slice_from buffer body_end)) in
  (∀ value n,
     headers !! "content-length"%string = Some value →
     int_of_str value = Some n → 0 ≤ n →
     extract_http_message fuel buffer
     = if len buffer <? body_start + n then Done None else framed_at (body_start + n))
  ∧ (∀ value,
       headers !! "content-length"%string = Some value →
       int_of_str value = None →
       extract_http_message fuel buffer = framed_at body_start)
  ∧ (∀ te,
       headers !! "content-length"%string = None →
       headers !! "transfer-encoding"%string = Some te →
       str_contains "chunked" (str_lower te) = true →
       extract_http_message fuel buffer
       = match parse_chunked_end fuel buffer body_start with
         | OutOfFuel => OutOfFuel
         | Done None => Done None
         | Done (Some chunked_end) => framed_at chunked_end
         end)
  ∧ (headers !! "content-length"%string = None →
     match headers !! "transfer-encoding"%string with
     | Some te => str_contains "chunked" (str_lower te) = false
     | None => True
     end →
     extract_http_message fuel buffer = framed_at body_start).
Proof.
  intros Hs He Hh body_start framed_at. split_and!.
  - intros value n Hcl Hint Hn.
    rewrite (extract_content_length _ _ _ _ _ _ _ Hs He Hh fuel value Hcl).
    unfold content_length. by rewrite Hint.
  - intros value Hcl Hint.
    rewrite (extract_content_length _ _ _ _ _ _ _ Hs He Hh fuel value Hcl).
    unfold content_length. rewrite Hint. simpl.
    pose proof (body_start_bounds _ _ _ _ _ Hs He).
    rewrite Z.add_0_r. by destruct (Z.ltb_spec (len buffer) (header_end + header_sep)); [lia|].
  - intros te Hcl Hte Hch.
    exact (extract_chunked _ _ _ _ _ _ _ Hs He Hh fuel te Hcl Hte Hch).
  - intros Hcl Hte. exact (extract_no_body _ _ _ _ _ _ _ Hs He Hh fuel Hcl Hte).
Qed.

(** C2 amended, at the response with [Content-Length: abc]. *)
Lemma body_length_rules_witness :
  extract_http_message 2 unparsable_length_chunked
  = Done (Some (slice unparsable_length_chunked 0 68, "HTTP/1.1 200 OK"%string,
                unparsable_length_headers,
                slice_from unparsable_length_chunked 68)).
Proof.
  refine (proj1 (proj2 (body_length_rules 2 unparsable_length_chunked 0 "response" 64 4
                          "HTTP/1.1 200 OK" unparsable_length_headers _ _ _)) "abc" _ _);
    vm_compute; reflexivity.
Defined.

(** ** Need-more-data in the generator *)

(** C3 fails as stated: read four bytes at a time, the buffer
    [GET / HTTP/1] has a located request start and the framer waits for
    more data, yet the buffer is cut down to its last four bytes, in
    which no start is found again; the complete request is never
    emitted, though it is framed when read in one piece. *)
Lemma located_start_discarded :
  let buffer := B "GET / HTTP/1" in
  find_next_http_start buffer = Some (0, "request"%string)
  ∧ extract_http_message 1 buffer = Done None
  ∧ (4 * 2 <? len buffer) = true
  ∧ slice_from buffer (- 4) = B "TP/1"
  ∧ find_next_http_start (B "TP/1" ++ B ".1" ++ CRLF ++ CRLF) = None
  ∧ iter_http_messages 20 small_request 4 = ([], true)
  ∧ iter_http_messages 20 small_request 64
    = ([(small_request, "GET / HTTP/1.1"%string, ∅)], true).
Proof. vm_compute. repeat split; reflexivity. Qed.

(** C3, amended.  After a failed extraction the generator keeps the
    whole buffer if it holds at most twice the read size and only its
    last [chunk_size] bytes otherwise, whether or not a start was located,
    then reads the next chunk and runs the locator and the framer again
    on the kept bytes followed by that chunk. *)
Theorem need_more_data_rereads fuel chunk_size buffer rest :
  extract_http_message (S fuel) buffer = Done None →
  let kept :=
    if chunk_size * 2 <? len buffer then slice_from buffer (- chunk_size) else buffer in
  gen_next (S (S fuel)) chunk_size (GenState buffer rest AtExtract)
  = (let '(chunk, rest') := file_read chunk_size rest in
     match chunk with
     | [] => Done None
     | _ :: _ => gen_next fuel chunk_size (GenState (kept ++ chunk) rest' AtExtract)
     end)
  ∧ (len buffer ≤ chunk_size * 2 → kept = buffer)
  ∧ (0 < chunk_size → chunk_size * 2 < len buffer →
     kept = drop (length buffer - Z.to_nat chunk_size) buffer ∧ len kept = chunk_size).
Proof.
  intros Hx kept. split_and!.
  - cbn [gen_next gen_pc_of gen_buffer gen_rest]. rewrite Hx.
    cbn [gen_next gen_pc_of gen_buffer gen_rest].
    by destruct (file_read chunk_size rest) as [[|c chunk] rest'].
  - intros Hle. unfold kept. by destruct (Z.ltb_spec (chunk_size * 2) (len buffer)); [lia|].
  - intros Hpos Hlt. unfold kept.
    destruct (Z.ltb_spec (chunk_size * 2) (len buffer)); [|lia].
    unfold slice_from, norm_index.
    destruct (Z.ltb_spec (- chunk_size) 0); [|lia].
    rewrite zdrop_drop. unfold len in *.
    replace (Z.to_nat (Z.max _ 0)) with (length buffer - Z.to_nat chunk_size)%nat by lia.
    split; [done|]. rewrite length_drop. lia.
Qed.

(** C3 amended, at the buffer [GET / HTTP/1] read four bytes at a time. *)
Lemma need_more_data_rereads_witness :
  gen_next 20 4 (GenState (B "GET / HTTP/1") (B ".1" ++ CRLF ++ CRLF) AtExtract)
  = gen_next 18 4 (GenState (B "TP/1" ++ B ".1" ++ CRLF) CRLF AtExtract).
Proof.
  destruct (need_more_data_rereads 18 4 (B "GET / HTTP/1") (B ".1" ++ CRLF ++ CRLF))
    as (Hstep & _ & _); [vm_compute; reflexivity|].
  exact Hstep.
Defined.

(** ** Two requests and no response *)

(** C8.  On the two requests of the specification and without a limit,
    two items are written, each with a request and no response, in input
    order: the first when the second request arrives, the second by the
    flush after the loop. *)
Theorem two_requests_unpaired urlparse fuel :
  (5 ≤ fuel)%nat →
  iter_http_messages fuel two_gets default_chunk_size = ([get_a; get_b], true)
  ∧ write_http_messages_as_xml urlparse fuel two_gets None
    = Done (Returned ([Item (Some get_a) None; Item (Some get_b) None], 2))
  ∧ pair_message urlparse get_a (PairState None 0 [])
    = Returned (PairState (Some get_a) 0 [])
  ∧ pair_message urlparse get_b (PairState (Some get_a) 0 [])
    = Returned (PairState (Some get_b) 1 [Item (Some get_a) None])
  ∧ pair_flush urlparse None (PairState (Some get_b) 1 [Item (Some get_a) None])
    = Returned (PairState (Some get_b) 2 [Item (Some get_a) None; Item (Some get_b) None]).
Proof.
  intros Hfuel. split_and!.
  - apply gen_run_mono with 5%nat; [|done]. vm_compute. reflexivity.
  - apply write_http_messages_as_xml_mono with 5%nat; [|done]. vm_compute. reflexivity.
  - vm_compute. reflexivity.
  - vm_compute. reflexivity.
  - vm_compute. reflexivity.
Qed.

(** C8, with the least fuel that suffices. *)
Lemma two_requests_unpaired_witness :
  write_http_messages_as_xml (λ _, None) 5 two_gets None
  = Done (Returned ([Item (Some get_a) None; Item (Some get_b) None], 2)).
Proof. apply (two_requests_unpaired (λ _, None) 5). lia. Defined.

(** ** Occurrences of a byte string *)

Lemma occurs_at_app_r sub l t q : occurs_at sub l q → occurs_at sub (l ++ t) q.
Proof.
  intros (pre & post & -> & Hq). exists pre, (post ++ t).
  by rewrite <- !app_assoc.
Qed.

Lemma occurs_at_bounds sub l q : occurs_at sub l q → 0 ≤ q ∧ q + len sub ≤ len l.
Proof.
  intros (pre & post & -> & <-). rewrite !len_app.
  pose proof (len_nonneg pre). pose proof (len_nonneg post). lia.
Qed.

Lemma occurs_at_app_inv sub l t q :
  occurs_at sub (l ++ t) q → q + len sub ≤ len l → occurs_at sub l q.
Proof.
  intros (pre & post & Heq & Hq) Hle.
  exists pre, (take (length l - length pre - length sub) post). split; [|done].
  apply (f_equal (take (length l))) in Heq.
  rewrite take_app_length in Heq. unfold len in *.
  rewrite take_app_ge in Heq by lia.
  rewrite take_app_ge in Heq by lia.
  by replace (length l - length pre - length sub)%nat
    with (length l - length pre - length sub)%nat by lia.
Qed.

Lemma occurs_at_drop sub l (n : nat) q :
  (n ≤ length l)%nat → occurs_at sub (drop n l) q → occurs_at sub l (Z.of_nat n + q).
Proof.
  intros Hn (pre & post & Heq & Hq).
  exists (take n l ++ pre), post. split.
  - by rewrite <- app_assoc, <- Heq, take_drop.
  - rewrite len_app. unfold len in *. rewrite length_take. lia.
Qed.

Lemma occurs_at_drop_inv sub l (n : nat) q :
  occurs_at sub l q → Z.of_nat n ≤ q → occurs_at sub (drop n l) (q - Z.of_nat n).
Proof.
  intros (pre & post & -> & Hq) Hn. unfold len in *.
  exists (drop n pre), post. split.
  - by rewrite drop_app_le by lia.
  - unfold len. rewrite length_drop. lia.
Qed.

Lemma find_from_occurs sub l : ∀ pos r,
  find_from sub l pos = r → r ≠ -1 → 0 ≤ pos →
  occurs_at sub l (r - pos)
  ∧ ∀ q, occurs_at sub l q → r - pos ≤ q.
Proof.
  induction l as [|x l IH]; intros pos r; simpl.
  - destruct (startswith sub []) eqn:Hs; [|by intros <-].
    intros <- _ Hpos. apply startswith_app in Hs as [k Hk].
    split.
    + exists [], k. by rewrite Z.sub_diag.
    + intros q Hq. apply occurs_at_bounds in Hq. lia.
  - destruct (startswith sub (x :: l)) eqn:Hs.
    + intros <- _ Hpos. apply startswith_app in Hs as [k Hk].
      split.
      * exists [], k. by rewrite Z.sub_diag.
      * intros q Hq. apply occurs_at_bounds in Hq. lia.
    + intros Hr Hne Hpos. destruct (IH (pos + 1) r Hr Hne) as [Hocc Hleast]; [lia|].
      split.
      * destruct Hocc as (pre & post & -> & Hq). exists (x :: pre), post.
        split; [done|]. rewrite len_cons. lia.
      * intros q (pre & post & Heq & Hq).
        destruct pre as [|y pre].
        { simpl in Heq. assert (startswith sub (x :: l) = true) as Hs'
            by (apply startswith_app; eauto). congruence. }
        simpl in Heq. injection Heq as _ Hl. rewrite <- Hq, len_cons.
        assert (r - (pos + 1) ≤ len pre) by (apply Hleast; by exists pre, post). lia.
Qed.

Lemma find_from_none sub l : ∀ pos q,
  find_from sub l pos = -1 → 0 ≤ pos → ¬ occurs_at sub l q.
Proof.
  induction l as [|x l IH]; intros pos q; simpl.
  - destruct (startswith sub []) eqn:Hs; [lia|].
    intros _ _ (pre & post & Heq & _). destruct pre, sub; done.
  - destruct (startswith sub (x :: l)) eqn:Hs; [lia|].
    intros Hr Hpos (pre & post & Heq & Hq).
    destruct pre as [|y pre].
    + simpl in Heq. assert (startswith sub (x :: l) = true) as Hs'
        by (apply startswith_app; eauto). congruence.
    + simpl in Heq. injection Heq as _ Hl.
      eapply (IH (pos + 1) (len pre)); [done|lia|]. by exists pre, post.
Qed.

(** [find] returns the least occurrence at or after [start]. *)
Lemma find_spec sub buffer start :
  0 ≤ start →
  (find sub buffer start = -1 ∧ ∀ q, start ≤ q → ¬ occurs_at sub buffer q)
  ∨ (start ≤ find sub buffer start
     ∧ occurs_at sub buffer (find sub buffer start)
     ∧ ∀ q, start ≤ q → occurs_at sub buffer q → find sub buffer start ≤ q).
Proof.
  intros Hs. unfold find.
  destruct (Z.ltb_spec start 0); [lia|].
  destruct (Z.ltb_spec (len buffer) start) as [Hlt|Hle].
  - left. split; [done|]. intros q Hq Hocc%occurs_at_bounds.
    destruct Hocc as [_ Hocc]. pose proof (len_nonneg sub). lia.
  - rewrite zdrop_drop.
    destruct (Z.eq_dec (find_from sub (drop (Z.to_nat start) buffer) start) (-1)) as [Hf|Hf].
    + left. split; [done|]. intros q Hq Hoccq.
      apply (occurs_at_drop_inv _ _ (Z.to_nat start)) in Hoccq; [|lia].
      by eapply find_from_none in Hoccq.
    + right. destruct (find_from_occurs _ _ _ _ eq_refl Hf Hs) as [Hocc Hleast].
      set (r := find_from _ _ _) in *.
      pose proof (occurs_at_bounds _ _ _ Hocc) as [Hge _].
      apply occurs_at_drop in Hocc; [|unfold len in *; lia].
      replace (Z.of_nat (Z.to_nat start) + (r - start)) with r in Hocc by lia.
      split_and!; [lia|done|].
      intros q Hq Hoccq.
      apply (occurs_at_drop_inv _ _ (Z.to_nat start)) in Hoccq; [|lia].
      apply Hleast in Hoccq. lia.
Qed.

Lemma find_unique sub buffer start r :
  0 ≤ start → start ≤ r → occurs_at sub buffer r →
  (∀ q, start ≤ q → occurs_at sub buffer q → r ≤ q) →
  find sub buffer start = r.
Proof.
  intros Hs Hr Hocc Hleast.
  destruct (find_spec sub buffer start Hs) as [[_ Hnone]|(Hge & Hocc2 & Hleast2)].
  - by destruct (Hnone r).
  - specialize (Hleast _ Hge Hocc2). specialize (Hleast2 _ Hr Hocc). lia.
Qed.

Lemma find_absent sub buffer start :
  0 ≤ start → (∀ q, start ≤ q → ¬ occurs_at sub buffer q) → find sub buffer start = -1.
Proof.
  intros Hs Hnone.
  destruct (find_spec sub buffer start Hs) as [[? _]|(Hge & Hocc & _)]; [done|].
  by destruct (Hnone _ Hge).
Qed.

(** ** The patterns on a longer subject *)

Lemma lit_match_app t l : ∀ s s2,
  lit_match l s = Some s2 → lit_match l (s ++ t) = Some (s2 ++ t).
Proof.
  induction l as [|x l IH]; intros s s2; simpl.
  - by intros [= ->].
  - destruct s as [|y s]; [done|]. simpl. destruct (byte_eqb_ic x y); [apply IH|done].
Qed.

Lemma rep_match_app t p (k k2 : Z → bytes → bool) :
  (∀ pos s, k pos s = true → k2 pos (s ++ t) = true) →
  ∀ s lo hi pos,
    rep_match p lo hi pos s k = true → rep_match p lo hi pos (s ++ t) k2 = true.
Proof.
  intros Hk. induction s as [|x s IH]; intros lo hi pos; simpl.
  - intros [Hlo Hk0]%andb_true_iff. apply Hk in Hk0. simpl in Hk0.
    destruct t as [|y t]; simpl; rewrite Hlo, Hk0; [done|]. apply orb_true_r.
  - intros [H|H]%orb_true_iff; apply orb_true_iff; [left|right].
    + apply andb_true_iff in H as [Hp H]. rewrite Hp. simpl. by apply IH.
    + apply andb_true_iff in H as [Hlo H]. rewrite Hlo. simpl. by apply (Hk pos (x :: s)).
Qed.

Lemma matches_app t r : ∀ (k k2 : Z → bytes → bool) pos s,
  (∀ pos s, k pos s = true → k2 pos (s ++ t) = true) →
  matches r pos s k = true → matches r pos (s ++ t) k2 = true.
Proof.
  induction r as [|p|l|r1 IH1 r2 IH2|r1 IH1 r2 IH2|r IH|p lo hi]; intros k k2 pos s Hk; simpl.
  - intros [Hp H]%andb_true_iff. rewrite Hp. simpl. by apply Hk.
  - destruct s as [|x s]; [done|]. simpl.
    intros [Hp H]%andb_true_iff. rewrite Hp. simpl. by apply Hk.
  - destruct (lit_match l s) as [s2|] eqn:Hl; [|done].
    rewrite (lit_match_app t _ _ _ Hl). apply Hk.
  - apply IH1. intros pos2 s2. by apply IH2.
  - intros [H|H]%orb_true_iff; apply orb_true_iff; [left; by eapply IH1|right; by eapply IH2].
  - intros [H|H]%orb_true_iff; apply orb_true_iff; [left; by eapply IH|right; by apply Hk].
  - by apply rep_match_app.
Qed.

Lemma match_at_app r pos s t :
  match_at r pos s = true → match_at r pos (s ++ t) = true.
Proof. unfold match_at. by apply matches_app. Qed.

Lemma zdrop_0 {A} (l : list A) : zdrop 0 l = l.
Proof. by destruct l. Qed.

(** A request located at the very start of [head]: the request pattern
    matches at offset 0 and [head] begins with the first byte of the
    request line. *)
Lemma start_at_zero_inv head :
  find_next_http_start head = Some (0, "request"%string) →
  match_at REQUEST_START_RE 0 head = true
  ∧ ∃ c s, head = c :: s ∧ is_break c = false.
Proof.
  unfold find_next_http_start.
  destruct (search REQUEST_START_RE head) as [a|] eqn:Ha.
  - assert (∀ m : Z * string,
      (let '(start, kind) := m in Some (skip_breaks (zdrop start head) start, kind))
      = Some (0, "request"%string) → m.2 = "request"%string → m = (a, "request"%string) →
      match_at REQUEST_START_RE 0 head = true ∧ ∃ c s, head = c :: s ∧ is_break c = false)
      as Hkey.
    { intros [s k] [= Hskip _] _ [= -> _].
      pose proof (search_bounds _ _ _ Ha) as [Ha0 _].
      pose proof (skip_breaks_bounds (zdrop a head) a) as [Hlo _].
      assert (a = 0) as -> by lia.
      apply search_from_spec in Ha as (n & Hn & _ & Hm & _).
      assert (n = 0%nat) as -> by lia. simpl in Hm. split; [done|].
      rewrite zdrop_0 in Hskip.
      destruct (request_start_match 0 head Hm) as [(c & s & -> & Hc)|(x & c & s & -> & Hx & Hc)].
      - eauto.
      - simpl in Hskip. rewrite Hx, Hc in Hskip. lia. }
    destruct (search RESPONSE_START_RE head) as [b|] eqn:Hb; cbn [app min_by_offset fold_left fst].
    + destruct (b <? a) eqn:Hlt.
      * intros [=].
      * intros H. by apply (Hkey (a, "request"%string)).
    + intros H. by apply (Hkey (a, "request"%string)).
  - destruct (search RESPONSE_START_RE head) as [b|]; [|done].
    cbn [app min_by_offset fold_left fst]. intros [=].
Qed.

Lemma start_at_zero_app head t :
  find_next_http_start head = Some (0, "request"%string) →
  find_next_http_start (head ++ t) = Some (0, "request"%string).
Proof.
  intros (Hm & c & s & -> & Hc)%start_at_zero_inv.
  apply (match_at_app _ _ _ t) in Hm.
  change ((c :: s) ++ t) with (c :: (s ++ t)) in *.
  unfold find_next_http_start.
  assert (search REQUEST_START_RE (c :: (s ++ t)) = Some 0) as ->.
  { unfold search. simpl search_from. by rewrite Hm. }
  assert (skip_breaks (zdrop 0 (c :: (s ++ t))) 0 = 0) as Hskip.
  { rewrite zdrop_0. simpl. by rewrite Hc. }
  destruct (search RESPONSE_START_RE (c :: (s ++ t))) as [b|] eqn:Hb;
    cbn [app min_by_offset fold_left fst].
  - apply search_bounds in Hb as [Hb _].
    destruct (Z.ltb_spec b 0); [lia|]. by rewrite Hskip.
  - by rewrite Hskip.
Qed.

Lemma slice_app_l {A} (l t : list A) a b :
  0 ≤ a → 0 ≤ b ≤ len l → slice (l ++ t) a b = slice l a b.
Proof.
  intros Ha Hb. unfold slice. rewrite len_app.
  pose proof (len_nonneg t).
  assert (norm_index (len l + len t) b = norm_index (len l) b) as ->
    by (unfold norm_index; destruct (Z.ltb_spec b 0); lia).
  destruct (Z.le_gt_cases a (len l)) as [Hal|Hal].
  - assert (norm_index (len l + len t) a = norm_index (len l) a) as ->
      by (unfold norm_index; destruct (Z.ltb_spec a 0); lia).
    rewrite !norm_index_id by lia. rewrite !ztake_take, !zdrop_drop.
    unfold len in *. rewrite drop_app_le by lia.
    rewrite take_app_le; [done|]. rewrite length_drop. lia.
  - assert (norm_index (len l) b - norm_index (len l + len t) a ≤ 0
            ∧ norm_index (len l) b - norm_index (len l) a ≤ 0) as [H1 H2]
      by (unfold norm_index; destruct (Z.ltb_spec b 0), (Z.ltb_spec a 0); lia).
    rewrite !ztake_take.
    replace (Z.to_nat (norm_index (len l) b - norm_index (len l + len t) a)) with 0%nat by lia.
    by replace (Z.to_nat (norm_index (len l) b - norm_index (len l) a)) with 0%nat by lia.
Qed.

(** ** A message with a declared length is emitted whole *)

Lemma slice_len {A} (l : list A) a b :
  0 ≤ a ≤ b → b ≤ len l → len (slice l a b) = b - a.
Proof.
  intros Hab Hb. rewrite slice_in_range by lia.
  rewrite ztake_take, zdrop_drop. unfold len in *.
  rewrite length_take, length_drop. lia.
Qed.

Lemma extract_declared_length fuel buffer msg remaining value n :
  extract_http_message fuel buffer = Done (Some (msg, remaining)) →
  headers_of msg !! "content-length"%string = Some value →
  int_of_str value = Some n → 0 ≤ n →
  n < len (msg_bytes msg).
Proof.
  unfold extract_http_message.
  destruct (find_next_http_start buffer) as [[start kind]|] eqn:Hs; [|done].
  destruct (find_header_end buffer start) as [[header_end header_sep]|] eqn:He; [|done].
  destruct (parse_headers _) as [first_line headers] eqn:Hh.
  pose proof (body_start_bounds _ _ _ _ _ Hs He) as Hb.
  destruct (headers !! "content-length"%string) as [v|] eqn:Hcl.
  - destruct (Z.ltb_spec (len buffer) (header_end + header_sep + content_length v)); [done|].
    intros [= <- _]. unfold headers_of, msg_bytes. simpl. rewrite Hcl.
    intros [= ->] Hn Hpos. unfold content_length in *. rewrite Hn in *. simpl in *.
    rewrite slice_len by lia. lia.
  - intros H Hcl2.
    assert (headers_of msg = headers) as Hm by (repeat case_match; by simplify_eq).
    congruence.
Qed.

Lemma gen_next_yield_extracted chunk_size fuel : ∀ st msg st2,
  gen_next fuel chunk_size st = Done (Some (msg, st2)) →
  ∃ fuel2 buffer remaining,
    extract_http_message fuel2 buffer = Done (Some (msg, remaining)).
Proof.
  induction fuel as [|fuel IH]; intros [buffer rest pc] msg st2; [done|].
  cbn [gen_next gen_pc_of gen_buffer gen_rest]. destruct pc.
  - destruct (file_read chunk_size rest) as [[|c chunk] rest2]; [done|]. apply IH.
  - destruct (extract_http_message fuel buffer) as [[[m remaining]|]|] eqn:Hx; [| |done].
    + intros [= <- <-]. eauto.
    + apply IH.
Qed.

Lemma emitted_declared_length fuel input chunk_size msg value n :
  msg ∈ (iter_http_messages fuel input chunk_size).1 →
  headers_of msg !! "content-length"%string = Some value →
  int_of_str value = Some n → 0 ≤ n →
  n < len (msg_bytes msg).
Proof.
  unfold iter_http_messages. generalize (gen_init input).
  induction fuel as [|fuel IH]; intros st; simpl; [set_solver|].
  destruct (gen_next fuel chunk_size st) as [[[m st2]|]|] eqn:Hnext; [| |set_solver]; [|set_solver].
  specialize (IH st2). destruct (gen_run fuel chunk_size st2) as [msgs fin]. simpl in *.
  intros [->|Hin]%elem_of_cons Hcl Hv Hn.
  - apply gen_next_yield_extracted in Hnext as (f & b & r & Hx).
    by eapply extract_declared_length.
  - by apply IH.
Qed.

(** ** A request whose declared body never arrives *)

Section TruncatedRequest.
Variables (head body : bytes) (first_line : string).
Variables (headers : gmap string string) (value : string) (declared : Z).

Hypothesis Hstart : find_next_http_start head = Some (0, "request"%string).
Hypothesis Hend : find_header_end head 0 = Some (len head - 4, 4).
Hypothesis Hbare : find [LF; LF] head 0 = -1.
Hypothesis Hheaders :
  parse_headers (slice head 0 (len head - 4)) = (first_line, headers).
Hypothesis Hcl : headers !! "content-length"%string = Some value.
Hypothesis Hvalue : int_of_str value = Some declared.
Hypothesis Hshort : len body < declared.

Lemma head_terminator :
  4 ≤ len head ∧ find (CRLF ++ CRLF) head 0 = len head - 4.
Proof.
  pose proof (find_header_end_bounds _ _ _ _ (Z.le_refl 0) Hend) as Hb.
  split; [lia|]. revert Hend. unfold find_header_end.
  set (f4 := find (CRLF ++ CRLF) head 0). set (f2 := find [LF; LF] head 0).
  destruct (f4 =? -1) eqn:E4; cbv beta iota zeta; rewrite ?E4.
  - destruct (f2 =? -1); intros H; simplify_eq.
  - intros H. by simplify_eq.
Qed.

Lemma no_terminator_in_prefix (n : nat) start :
  (n < length head)%nat → 0 ≤ start →
  find_header_end (take n head) start = None.
Proof.
  intros Hn Hs. destruct head_terminator as [H4 Hf].
  unfold find_header_end.
  assert (find (CRLF ++ CRLF) (take n head) start = -1) as ->.
  { apply find_absent; [done|]. intros q Hq Hocc.
    pose proof (occurs_at_bounds _ _ _ Hocc) as [_ Hle].
    apply (occurs_at_app_r _ _ (drop n head)) in Hocc. rewrite take_drop in Hocc.
    destruct (find_spec (CRLF ++ CRLF) head 0 (Z.le_refl 0))
      as [[E _]|(_ & _ & Hleast)]; [lia|].
    apply Hleast in Hocc; [|lia]. rewrite Hf in Hocc.
    unfold len in *. rewrite length_take in Hle. simpl in Hle. lia. }
  assert (find [LF; LF] (take n head) start = -1) as ->; [|done].
  apply find_absent; [done|]. intros q Hq Hocc.
  apply (occurs_at_app_r _ _ (drop n head)) in Hocc. rewrite take_drop in Hocc.
  destruct (find_spec [LF; LF] head 0 (Z.le_refl 0)) as [[_ Hnone]|(Hge & _)]; [|lia].
  apply (Hnone q); [lia|done].
Qed.

Lemma extract_prefix_of_head fuel (n : nat) :
  (n < length head)%nat → extract_http_message fuel (take n head) = Done None.
Proof.
  intros Hn. unfold extract_http_message.
  destruct (find_next_http_start (take n head)) as [[start kind]|] eqn:Hs; [|done].
  apply find_next_http_start_bounds in Hs as [Hs _].
  by rewrite no_terminator_in_prefix.
Qed.

Lemma extract_head_and_some_body fuel t :
  len t ≤ len body → extract_http_message fuel (head ++ t) = Done None.
Proof.
  intros Ht. destruct head_terminator as [H4 Hf].
  pose proof (len_nonneg t).
  assert (find_header_end (head ++ t) 0 = Some (len head - 4, 4)) as Hend2.
  { unfold find_header_end.
    assert (find (CRLF ++ CRLF) (head ++ t) 0 = len head - 4) as ->.
    { destruct (find_spec (CRLF ++ CRLF) head 0 (Z.le_refl 0))
        as [[E _]|(_ & Hocc & Hleast)]; [lia|]. rewrite Hf in *.
      apply find_unique; [done|lia|by apply occurs_at_app_r|].
      intros q Hq Hoccq. destruct (Z.le_gt_cases (len head - 4) q); [done|].
      apply occurs_at_app_inv in Hoccq; [|unfold len in *; simpl; lia].
      by apply Hleast. }
    destruct (Z.eqb_spec (len head - 4) (-1)); [lia|].
    by destruct (Z.eqb_spec (len head - 4) (-1)). }
  assert (parse_headers (slice (head ++ t) 0 (len head - 4)) = (first_line, headers))
    as Hheaders2 by (by rewrite slice_app_l by lia).
  rewrite (extract_content_length (head ++ t) 0 "request" (len head - 4) 4
             first_line headers (start_at_zero_app _ _ Hstart) Hend2 Hheaders2
             fuel value Hcl).
  unfold content_length. rewrite Hvalue. simpl. rewrite len_app.
  by destruct (Z.ltb_spec (len head + len t) (len head - 4 + 4 + declared)); [|lia].
Qed.

(** Every buffer that holds the first bytes of the stream
    [head ++ body] leaves the framer waiting for more data. *)
Lemma extract_starved fuel buffer rest :
  buffer ++ rest = head ++ body → extract_http_message fuel buffer = Done None.
Proof.
  intros Heq.
  destruct (decide (length buffer < length head)%nat) as [Hlt|Hge].
  - assert (∃ n, (n < length head)%nat ∧ buffer = take n head) as (n & Hn & ->).
    { exists (length buffer). split; [done|].
      apply (f_equal (take (length buffer))) in Heq.
      rewrite take_app_length in Heq. by rewrite take_app_le in Heq by lia. }
    by apply extract_prefix_of_head.
  - assert (∃ t, buffer = head ++ t ∧ len t ≤ len body) as (t & -> & Ht).
    { exists (take (length buffer - length head) body).
      apply (f_equal (take (length buffer))) in Heq.
      rewrite take_app_length in Heq. rewrite take_app_ge in Heq by lia.
      split; [done|]. unfold len. rewrite length_take. lia. }
    by apply extract_head_and_some_body.
Qed.

Variable chunk_size : Z.
Hypothesis Hchunk : 0 < chunk_size.
Hypothesis Hwindow : len (head ++ body) ≤ chunk_size * 2.

Lemma window_kept buffer rest :
  buffer ++ rest = head ++ body → (chunk_size * 2 <? len buffer) = false.
Proof.
  intros Heq. apply (f_equal len) in Heq. rewrite len_app in Heq.
  pose proof (len_nonneg rest). lia.
Qed.

Lemma gen_read_starved (n : nat) : ∀ fuel buffer rest,
  buffer ++ rest = head ++ body →
  (length rest ≤ n)%nat → (2 * n + 1 ≤ fuel)%nat →
  gen_next fuel chunk_size (GenState buffer rest AtRead) = Done None.
Proof.
  induction n as [|n IH]; intros fuel buffer rest Heq Hn Hfuel.
  - destruct rest; [|simpl in Hn; lia]. destruct fuel as [|fuel]; [lia|].
    cbn [gen_next gen_pc_of gen_buffer gen_rest].
    unfold file_read. by destruct (Z.ltb_spec chunk_size 0); [lia|].
  - destruct fuel as [|[|fuel]]; [lia|lia|].
    cbn [gen_next gen_pc_of gen_buffer gen_rest].
    destruct (file_read chunk_size rest) as [chunk rest2] eqn:Hrd.
    pose proof (file_read_splits _ _ _ _ Hrd) as Hsplit.
    destruct chunk as [|c chunk]; [done|].
    assert ((buffer ++ c :: chunk) ++ rest2 = head ++ body) as Heq2
      by (by rewrite <- app_assoc, <- Hsplit).
    cbn [gen_next gen_pc_of gen_buffer gen_rest].
    rewrite (extract_starved _ _ _ Heq2), (window_kept _ _ Heq2).
    apply IH; [done| |lia].
    apply (f_equal length) in Hsplit. rewrite length_app in Hsplit. simpl in Hsplit. lia.
Qed.

Lemma gen_next_starved fuel buffer rest pc :
  buffer ++ rest = head ++ body →
  (2 * length rest + 2 ≤ fuel)%nat →
  gen_next fuel chunk_size (GenState buffer rest pc) = Done None.
Proof.
  intros Heq Hfuel. destruct pc.
  - apply (gen_read_starved (length rest)); [done|lia|lia].
  - destruct fuel as [|fuel]; [lia|].
    cbn [gen_next gen_pc_of gen_buffer gen_rest].
    rewrite (extract_starved _ _ _ Heq), (window_kept _ _ Heq).
    apply (gen_read_starved (length rest)); [done|lia|lia].
Qed.
End TruncatedRequest.

(** ** The empty buffer *)

Lemma extract_empty fuel : extract_http_message fuel [] = Done None.
Proof. reflexivity. Qed.

(** ** A negative content-length *)

Example negative_length_framed :
  extract_http_message 0 negative_length_request
  = Done (Some (B "GET / HTTP/1.1" ++ CRLF ++ B "Con", "GET / HTTP/1.1"%string,
                {[ "content-length"%string := "-20"%string ]},
                B "tent-Length: -20" ++ CRLF ++ CRLF))
  ∧ iter_http_messages 10 negative_length_request default_chunk_size
    = ([(B "GET / HTTP/1.1" ++ CRLF ++ B "Con", "GET / HTTP/1.1"%string,
         {[ "content-length"%string := "-20"%string ]})], true).
Proof. vm_compute. split; reflexivity. Qed.

Lemma gen_run_S fuel chunk_size st :
  gen_run (S fuel) chunk_size st
  = match gen_next fuel chunk_size st with
    | OutOfFuel => ([], false)
    | Done None => ([], true)
    | Done (Some (msg, st2)) =>
        let '(msgs, finished) := gen_run fuel chunk_size st2 in (msg :: msgs, finished)
    end.
Proof. reflexivity. Qed.

(** With a length that reaches before the start of the buffer the
    framer returns an empty message and the whole buffer as the rest,
    so the generator yields empty messages without end. *)
Lemma negative_length_repeats :
  extract_http_message 0 negative_length_stuck
  = Done (Some ([], "GET / HTTP/1.1"%string,
                {[ "content-length"%string := "-100"%string ]}, negative_length_stuck))
  ∧ ∀ fuel, (iter_http_messages fuel negative_length_stuck default_chunk_size).2 = false.
Proof.
  assert (∀ f, extract_http_message f negative_length_stuck
    = Done (Some ([], "GET / HTTP/1.1"%string,
                  {[ "content-length"%string := "-100"%string ]}, negative_length_stuck)))
    as Hx by (intros f; vm_compute; reflexivity).
  split; [apply Hx|].
  assert (∀ fuel, (gen_run fuel default_chunk_size
                     (GenState negative_length_stuck [] AtExtract)).2 = false) as Hloop.
  { induction fuel as [|fuel IH]; [done|]. rewrite gen_run_S.
    destruct fuel as [|fuel]; [done|].
    cbn [gen_next gen_pc_of gen_buffer gen_rest]. rewrite Hx.
    revert IH. by destruct (gen_run (S fuel) _ _) as [msgs fin]. }
  intros fuel. unfold iter_http_messages.
  destruct fuel as [|fuel]; [done|]. rewrite gen_run_S.
  destruct fuel as [|fuel]; [done|].
  assert (gen_next (S fuel) default_chunk_size (gen_init negative_length_stuck)
          = gen_next fuel default_chunk_size (GenState negative_length_stuck [] AtExtract))
    as -> by reflexivity.
  destruct fuel as [|fuel]; [done|].
  cbn [gen_next gen_pc_of gen_buffer gen_rest]. rewrite Hx.
  generalize (Hloop (S (S fuel))).
  by destruct (gen_run (S (S fuel)) _ _) as [msgs fin].
Qed.

(** ** The chunk walker on a negative size *)

Lemma chunk_loop_stuck buffer idx :
  chunk_step buffer idx = Continue idx →
  ∀ fuel, parse_chunked_end fuel buffer idx = OutOfFuel.
Proof. intros Hstep. induction fuel as [|fuel IH]; simpl; [done|]. by rewrite Hstep. Qed.

(** C10.  On the buffer [\r\n-6\r\n], entered at offset 2, one round of
    the walker parses the size -6, steps back onto the line break in
    front of the size line and is at offset 2 again; so no amount of fuel
    lets [parse_chunked_end] return. *)
Theorem parse_chunked_end_negative_size_loops :
  chunk_step negative_chunk 2 = Continue 2
  ∧ ∀ fuel, parse_chunked_end fuel negative_chunk 2 = OutOfFuel.
Proof.
  assert (chunk_step negative_chunk 2 = Continue 2) as H by (vm_compute; reflexivity).
  split; [done|]. by apply chunk_loop_stuck.
Qed.

Lemma extract_negative_chunk_loops fuel :
  extract_http_message fuel negative_chunk_response = OutOfFuel.
Proof.
  assert (∀ f, extract_http_message f negative_chunk_response
    = match parse_chunked_end f negative_chunk_response 47 with
      | OutOfFuel => OutOfFuel
      | Done None => Done None
      | Done (Some e) => Done (framed negative_chunk_response 0 e "HTTP/1.1 200 OK"
                                 {[ "transfer-encoding"%string := "chunked"%string ]})
      end) as ->.
  { intros f. unfold extract_http_message.
    replace (find_next_http_start negative_chunk_response) with (Some (0, "response"%string))
      by (vm_compute; reflexivity).
    replace (find_header_end negative_chunk_response 0) with (Some (43, 4))
      by (vm_compute; reflexivity).
    replace (parse_headers (slice negative_chunk_response 0 43))
      with ("HTTP/1.1 200 OK"%string, ({[ "transfer-encoding"%string := "chunked"%string ]} : gmap string string))
      by (vm_compute; reflexivity).
    reflexivity. }
  rewrite chunk_loop_stuck; [done|]. vm_compute. reflexivity.
Qed.

(** C6.  The input holds a request that declares 999999 body bytes and
    has ten; in front of it stands a chunked response whose chunk size
    reads [-6].  The walker goes round on that size line without end, as
    it does in C10, so the framer never returns on the first buffer, the
    generator never yields nor ends, and the iteration does not
    terminate, whatever the fuel. *)
Theorem truncated_request_behind_stuck_walker :
  chunk_step truncated_behind_negative_chunk 47 = Continue 47
  ∧ ∀ fuel,
      extract_http_message fuel truncated_behind_negative_chunk = OutOfFuel
      ∧ gen_next fuel default_chunk_size (gen_init truncated_behind_negative_chunk)
        = OutOfFuel
      ∧ iter_http_messages fuel truncated_behind_negative_chunk default_chunk_size
        = ([], false).
Proof.
  set (input := truncated_behind_negative_chunk).
  assert (chunk_step input 47 = Continue 47) as Hstep by (vm_compute; reflexivity).
  assert (∀ f, extract_http_message f input = OutOfFuel) as Hx.
  { intros f. unfold extract_http_message.
    replace (find_next_http_start input) with (Some (0, "response"%string))
      by (vm_compute; reflexivity).
    replace (find_header_end input 0) with (Some (43, 4)) by (vm_compute; reflexivity).
    replace (parse_headers (slice input 0 43))
      with ("HTTP/1.1 200 OK"%string,
            ({[ "transfer-encoding"%string := "chunked"%string ]} : gmap string string))
      by (vm_compute; reflexivity).
    replace (({[ "transfer-encoding"%string := "chunked"%string ]} : gmap string string)
               !! "content-length"%string) with (@None string) by (vm_compute; reflexivity).
    rewrite lookup_singleton_eq.
    replace (str_contains "chunked" (str_lower "chunked")) with true
      by (vm_compute; reflexivity).
    change (43 + 4) with 47. by rewrite chunk_loop_stuck. }
  assert (∀ f, gen_next f default_chunk_size (gen_init input) = OutOfFuel) as Hnext.
  { intros [|f]; [done|]. unfold gen_init. cbn [gen_next gen_pc_of gen_buffer gen_rest].
    replace (file_read default_chunk_size input) with (input, @nil byte)
      by (vm_compute; reflexivity).
    destruct input as [|c input'] eqn:Hin; [done|].
    destruct f as [|f]; [done|].
    cbn [gen_next gen_pc_of gen_buffer gen_rest app]. by rewrite Hx. }
  split; [done|]. intros fuel. split_and!; [done|done|].
  unfold iter_http_messages. destruct fuel as [|fuel]; [done|].
  cbn [gen_run]. by rewrite Hnext.
Qed.

(** ** The chunk walker without negative sizes *)

Lemma digit_value_nonneg c d : digit_value c = Some d → 0 ≤ d.
Proof.
  unfold digit_value. set (n := Z.of_N (Byte.to_N c)).
  destruct (Z.leb_spec 48 n), (Z.leb_spec n 57); simpl; try (intros [= <-]; lia);
    destruct (Z.leb_spec 97 n), (Z.leb_spec n 122); simpl; try (intros [= <-]; lia);
    destruct (Z.leb_spec 65 n), (Z.leb_spec n 90); simpl; try (intros [= <-]; lia); done.
Qed.

Lemma int_digits_nonneg base l : ∀ acc prev_us r,
  0 ≤ base → 0 ≤ acc → int_digits base acc prev_us l = Some r → 0 ≤ r.
Proof.
  induction l as [|c l IH]; intros acc prev_us r Hb Hacc; simpl.
  - destruct prev_us; [done|]. by intros [= <-].
  - destruct (byte_eqb c "_").
    + destruct prev_us; [done|]. by apply IH.
    + destruct (digit_value c) as [d|] eqn:Hd; [|done].
      apply digit_value_nonneg in Hd.
      destruct (d <? base); [|done]. apply IH; [done|]. nia.
Qed.

Lemma int_unsigned_nonneg base l r :
  0 ≤ base → int_unsigned base l = Some r → 0 ≤ r.
Proof.
  intros Hb. unfold int_unsigned.
  set (l2 := match l with _ :: _ :: _ => _ | _ => _ end).
  destruct l2 as [|c l3]; [done|].
  destruct (byte_eqb c "_"); [done|]. by apply int_digits_nonneg.
Qed.

Lemma lstrip_elem sp l x : x ∈ lstrip sp l → x ∈ l.
Proof.
  induction l as [|y l IH]; simpl; [done|].
  destruct (sp y); [|done]. intros Hx. right. by apply IH.
Qed.

Lemma strip_elem sp l x : x ∈ strip sp l → x ∈ l.
Proof.
  unfold strip, rstrip. rewrite !list_elem_of_In, <- in_rev, <- !list_elem_of_In.
  intros Hx%lstrip_elem. rewrite list_elem_of_In, <- in_rev, <- list_elem_of_In in Hx.
  by apply lstrip_elem in Hx.
Qed.

Lemma split1_elem sep l x : x ∈ (split1 sep l).1 → x ∈ l.
Proof.
  induction l as [|y l IH]; simpl; [done|].
  destruct (byte_eqb y sep); simpl; [by intros ?%elem_of_nil|].
  destruct (split1 sep l) as [h t]. simpl in *.
  intros [->|Hx]%elem_of_cons; [by left|right; by apply IH].
Qed.

Lemma slice_elem {A} (l : list A) a b x : x ∈ slice l a b → x ∈ l.
Proof.
  unfold slice. rewrite ztake_take, zdrop_drop.
  intros Hx. eapply elem_of_sublist; [exact Hx|].
  transitivity (drop (Z.to_nat (norm_index (len l) a)) l);
    [apply sublist_take|apply sublist_drop].
Qed.

Lemma int_parse_negative sp base l r :
  0 ≤ base → int_parse sp base l = Some r → r < 0 → "-"%byte ∈ l.
Proof.
  intros Hb. unfold int_parse.
  pose proof (strip_elem sp l) as Hsub.
  destruct (strip sp l) as [|c l2]; [done|].
  destruct (byte_eqb c "-") eqn:Hc.
  - intros _ _. apply byte_eqb_eq in Hc as ->. apply Hsub. by left.
  - destruct (byte_eqb c "+").
    + intros Hr%int_unsigned_nonneg; [lia|done].
    + intros Hr%int_unsigned_nonneg; [lia|done].
Qed.

(** Without a minus sign in the buffer every round that goes on moves
    the index forward, and an end offset lies after the index. *)
Lemma chunk_step_advances buffer idx :
  "-"%byte ∉ buffer → 0 ≤ idx →
  match chunk_step buffer idx with
  | Return (Some e) => idx < e
  | Return None => True
  | Continue idx2 => idx < idx2
  end.
Proof.
  intros Hminus Hidx. unfold chunk_step.
  pose proof (find_bounds CRLF buffer idx Hidx) as H2.
  pose proof (find_bounds [LF] buffer idx Hidx) as H1.
  set (f2 := find CRLF buffer idx) in *. set (f1 := find [LF] buffer idx) in *.
  assert (∀ line_end line_break,
    idx ≤ line_end → 0 < line_break →
    match
      match int_of_bytes
              (strip is_space (split1 ";" (slice buffer idx line_end)).1) 16 with
      | Some size =>
          if len buffer <? line_end + line_break + size + line_break then Return None
          else
            if bytes_eqb (slice buffer (line_end + line_break + size)
                            (line_end + line_break + size + 2)) CRLF
            then if size =? 0 then Return (Some (line_end + line_break + size + 2))
                 else Continue (line_end + line_break + size + 2)
            else if bytes_eqb (slice buffer (line_end + line_break + size)
                                 (line_end + line_break + size + 1)) [LF]
                 then if size =? 0 then Return (Some (line_end + line_break + size + 1))
                      else Continue (line_end + line_break + size + 1)
                 else Return None
      | None => Return None
      end
    with
    | Return (Some e) => idx < e
    | Return None => True
    | Continue idx2 => idx < idx2
    end) as Hbody.
  { intros line_end line_break Hle Hlb.
    destruct (int_of_bytes _ 16) as [size|] eqn:Hsize; [|done].
    assert (0 ≤ size) as Hpos.
    { destruct (Z.le_gt_cases 0 size) as [|Hneg]; [done|].
      apply int_parse_negative in Hsize; [|lia|lia].
      destruct Hminus.
      by apply strip_elem, split1_elem, slice_elem in Hsize. }
    repeat case_match; simplify_eq; try done; lia. }
  destruct (Z.eqb_spec f2 (-1)) as [E2|E2].
  - destruct (Z.eqb_spec f1 (-1)) as [E1|E1]; [done|].
    apply Hbody; lia.
  - destruct (Z.eqb_spec f2 (-1)) as [|_]; [done|].
    apply Hbody; lia.
Qed.

Lemma chunk_step_beyond buffer idx :
  len buffer < idx → chunk_step buffer idx = Return None.
Proof.
  intros Hlt. unfold chunk_step, find.
  pose proof (len_nonneg buffer).
  destruct (Z.ltb_spec idx 0); [lia|].
  by destruct (Z.ltb_spec (len buffer) idx); [|lia].
Qed.

Lemma parse_chunked_end_total buffer :
  "-"%byte ∉ buffer →
  ∀ (n : nat) idx,
    0 ≤ idx → len buffer + 1 - idx ≤ Z.of_nat n →
    ∃ r, parse_chunked_end (S n) buffer idx = Done r
         ∧ ∀ e, r = Some e → idx < e.
Proof.
  intros Hminus. induction n as [|n IH]; intros idx Hidx Hn.
  - exists None. split; [|done]. cbn [parse_chunked_end].
    rewrite chunk_step_beyond; [done|lia].
  - cbn [parse_chunked_end].
    pose proof (chunk_step_advances buffer idx Hminus Hidx) as Hadv.
    destruct (chunk_step buffer idx) as [[e|]|idx2].
    + exists (Some e). split; [done|]. by intros ? [= <-].
    + by exists None.
    + destruct (IH idx2) as (r & Hr & He); [lia|lia|].
      exists r. split; [done|]. intros e Hre. specialize (He e Hre). lia.
Qed.

(** * The rest of the script *)

(** Membership in a list that is written out, and its refutation. *)
Ltac in_list := first [by apply list_elem_of_here | apply list_elem_of_further; in_list].
Ltac not_in_list :=
  let H := fresh in
  intros H; repeat (apply elem_of_cons in H as [H|H]; [done|]); by apply elem_of_nil in H.

(** ** Splitting a message at its blank line *)

Lemma slice_prefix {A} (pre rest : list A) : slice (pre ++ rest) 0 (len pre) = pre.
Proof.
  pose proof (slice_exact [] pre rest) as H.
  change (len (@nil A)) with 0 in H. by rewrite Z.add_0_l in H.
Qed.

Lemma slice_from_prefix {A} (pre rest : list A) : slice_from (pre ++ rest) (len pre) = rest.
Proof.
  pose proof (slice_from_exact [] pre rest) as H.
  change (len (@nil A)) with 0 in H. by rewrite Z.add_0_l in H.
Qed.

Lemma occurs_at_split sub l q :
  occurs_at sub l q →
  l = slice l 0 q ++ sub ++ slice_from l (q + len sub)
  ∧ len (slice l 0 q) = q.
Proof.
  intros (pre & post & -> & <-).
  by rewrite slice_prefix, slice_from_exact.
Qed.

(** X1.  The header part ends at the first [\r\n\r\n] of the message, or,
    when the message holds none, at its first [\n\n]; the two parts and
    the separator between them make up the message again.  A message
    without either separator is returned whole, with an empty body. *)
Theorem split_http_message_first_blank_line message :
  let header := (split_http_message message).1 in
  let body := (split_http_message message).2 in
  (∃ sep,
     message = header ++ sep ++ body
     ∧ (sep = CRLF ++ CRLF
        ∨ (sep = [LF; LF] ∧ ∀ q, ¬ occurs_at (CRLF ++ CRLF) message q))
     ∧ ∀ q, occurs_at sep message q → len header ≤ q)
  ∨ (header = message ∧ body = []
     ∧ ∀ q, ¬ occurs_at (CRLF ++ CRLF) message q ∧ ¬ occurs_at [LF; LF] message q).
Proof.
  unfold split_http_message.
  set (f4 := find (CRLF ++ CRLF) message 0). set (f2 := find [LF; LF] message 0).
  assert (∀ sub q, occurs_at sub message q → 0 ≤ q) as Hq0
    by (intros sub q Hocc; by apply occurs_at_bounds in Hocc as [? _]).
  destruct (find_spec (CRLF ++ CRLF) message 0 (Z.le_refl 0))
    as [[E4 Hno4]|(Hge4 & Hocc4 & Hleast4)]; fold f4 in E4 || fold f4 in Hge4, Hocc4, Hleast4.
  - rewrite E4. cbv beta iota zeta. simpl (-1 =? -1).
    cbv beta iota.
    destruct (find_spec [LF; LF] message 0 (Z.le_refl 0))
      as [[E2 Hno2]|(Hge2 & Hocc2 & Hleast2)]; fold f2 in E2 || fold f2 in Hge2, Hocc2, Hleast2.
    + rewrite E2. simpl. right. split_and!; [done|done|].
      intros q. split; intros Hocc; [apply (Hno4 q)|apply (Hno2 q)]; eauto.
    + destruct (Z.eqb_spec f2 (-1)) as [|_]; [lia|]. cbn [fst snd]. left.
      exists [LF; LF].
      destruct (occurs_at_split _ _ _ Hocc2) as [Hm Hl].
      split_and!; [exact Hm| |].
      * right. split; [done|]. intros q Hocc. apply (Hno4 q); eauto.
      * intros q Hocc. rewrite Hl. apply Hleast2; eauto.
  - destruct (Z.eqb_spec f4 (-1)) as [|_]; [lia|]. cbv beta iota zeta.
    destruct (Z.eqb_spec f4 (-1)) as [|_]; [lia|]. cbn [fst snd]. left.
    exists (CRLF ++ CRLF).
    destruct (occurs_at_split _ _ _ Hocc4) as [Hm Hl].
    split_and!; [exact Hm|by left|].
    intros q Hocc. rewrite Hl. apply Hleast4; eauto.
Qed.

(** ** Splitting an emitted message again *)

Lemma occurs_at_inside sub pre m post q :
  occurs_at sub m q → occurs_at sub (pre ++ m ++ post) (len pre + q).
Proof.
  intros (a & b & -> & <-). exists (pre ++ a), (b ++ post).
  rewrite len_app. split; [|done]. by rewrite <- !app_assoc.
Qed.

Lemma occurs_at_inside_inv sub pre m post r :
  occurs_at sub (pre ++ m ++ post) r →
  len pre ≤ r → r + len sub ≤ len pre + len m →
  occurs_at sub m (r - len pre).
Proof.
  intros Hocc Hge Hle.
  apply (occurs_at_drop_inv _ _ (length pre)) in Hocc; [|done].
  rewrite drop_app_length in Hocc.
  apply occurs_at_app_inv in Hocc; [done|]. unfold len in *. lia.
Qed.

(** The first occurrence from the start of a slice is the first
    occurrence in the whole from the offset of the slice, when the slice
    holds it. *)
Lemma find_in_slice sub pre m post :
  let r := find sub (pre ++ m ++ post) (len pre) in
  (r = -1 → find sub m 0 = -1)
  ∧ (r ≠ -1 → r + len sub ≤ len pre + len m → find sub m 0 = r - len pre).
Proof.
  pose proof (len_nonneg pre) as Hpre.
  destruct (find_spec sub (pre ++ m ++ post) (len pre) Hpre)
    as [[E Hno]|(Hge & Hocc & Hleast)]; cbv zeta.
  - split; [|lia]. intros _. apply find_absent; [done|].
    intros q Hq Hoccq. apply (Hno (len pre + q)); [lia|].
    by apply occurs_at_inside.
  - split.
    + intros E. rewrite E in Hocc. apply occurs_at_bounds in Hocc. lia.
    + intros Hne Hle. apply find_unique; [done|lia| |].
      * by apply occurs_at_inside_inv with post.
      * intros q Hq Hoccq.
        apply (occurs_at_inside _ pre _ post) in Hoccq.
        apply Hleast in Hoccq; lia.
Qed.

Lemma slice_decompose {A} (l : list A) a b :
  0 ≤ a ≤ len l → ∃ pre post, l = pre ++ slice l a b ++ post ∧ len pre = a.
Proof.
  intros Ha. unfold slice. rewrite (norm_index_id _ a) by done.
  rewrite ztake_take, zdrop_drop.
  exists (take (Z.to_nat a) l), (drop (Z.to_nat (norm_index (len l) b - a)) (drop (Z.to_nat a) l)).
  rewrite !take_drop. split; [done|].
  unfold len in *. rewrite length_take. lia.
Qed.

Lemma extract_shape fuel buffer start kind header_end header_sep msg remaining :
  find_next_http_start buffer = Some (start, kind) →
  find_header_end buffer start = Some (header_end, header_sep) →
  extract_http_message fuel buffer = Done (Some (msg, remaining)) →
  ∃ body_end,
    msg_bytes msg = slice buffer start body_end
    ∧ parse_headers (slice buffer start header_end) = (first_line_of msg, headers_of msg).
Proof.
  intros Hs He. unfold extract_http_message. rewrite Hs, He.
  destruct (parse_headers _) as [first_line headers].
  unfold framed, msg_bytes, first_line_of, headers_of.
  repeat case_match; intros Hx; simplify_eq; eauto.
Qed.

(** X2.  When an emitted message reaches to the end of its header
    terminator, [split_http_message] cuts it at that terminator again:
    the header part is the block that the framer parsed, and parsing it
    once more gives the first line and the headers that were emitted with
    the message. *)
Theorem split_recovers_header fuel buffer start kind header_end header_sep msg remaining :
  find_next_http_start buffer = Some (start, kind) →
  find_header_end buffer start = Some (header_end, header_sep) →
  extract_http_message fuel buffer = Done (Some (msg, remaining)) →
  header_end - start + header_sep ≤ len (msg_bytes msg) →
  (split_http_message (msg_bytes msg)).1 = slice buffer start header_end
  ∧ parse_headers (split_http_message (msg_bytes msg)).1
    = (first_line_of msg, headers_of msg)
  ∧ len (split_http_message (msg_bytes msg)).2
    = len (msg_bytes msg) - (header_end - start) - header_sep.
Proof.
  intros Hs He Hx Hlen.
  destruct (extract_shape _ _ _ _ _ _ _ _ Hs He Hx) as (body_end & Hm & Hp).
  pose proof (body_start_bounds _ _ _ _ _ Hs He) as Hb.
  destruct (slice_decompose buffer start body_end) as (pre & post & Hbuf & Hpre); [lia|].
  rewrite <- Hm in Hbuf. set (m := msg_bytes msg) in *.
  assert (slice buffer start header_end = slice m 0 (header_end - start)) as Hhead.
  { rewrite Hbuf. rewrite <- Hpre.
    replace (len pre) with (len pre + 0) at 1 by lia.
    replace header_end with (len pre + (header_end - len pre)) at 1 by lia.
    rewrite slice_app_shift by lia. rewrite slice_app_l; [done|lia|lia]. }
  assert (find (CRLF ++ CRLF) m 0 = header_end - start ∧ header_sep = 4
          ∨ find (CRLF ++ CRLF) m 0 = -1 ∧ find [LF; LF] m 0 = header_end - start
            ∧ header_sep = 2) as Hfind.
  { revert He. unfold find_header_end. rewrite Hbuf, <- Hpre.
    destruct (find_in_slice (CRLF ++ CRLF) pre m post) as [H4n H4s].
    destruct (find_in_slice [LF; LF] pre m post) as [H2n H2s].
    set (f4 := find (CRLF ++ CRLF) (pre ++ m ++ post) (len pre)) in *.
    set (f2 := find [LF; LF] (pre ++ m ++ post) (len pre)) in *.
    destruct (Z.eqb_spec f4 (-1)) as [E4|N4]; cbv beta iota zeta.
    - destruct (Z.eqb_spec f2 (-1)) as [E2|N2]; [done|]. intros [= <- <-].
      right. split_and!; [by apply H4n| |done].
      rewrite H2s; [lia|done|]. change (len [LF; LF]) with 2. lia.
    - destruct (Z.eqb_spec f4 (-1)) as [|_]; [done|]. intros [= <- <-].
      left. split; [|done]. rewrite H4s; [lia|done|].
      change (len (CRLF ++ CRLF)) with 4. lia. }
  assert (split_http_message m
          = (slice m 0 (header_end - start), slice_from m (header_end - start + header_sep)))
    as Hsplit.
  { unfold split_http_message.
    destruct Hfind as [[E4 ->]|(E4 & E2 & ->)]; rewrite E4; cbv beta iota zeta.
    - destruct (Z.eqb_spec (header_end - start) (-1)) as [|_]; [lia|]. cbv beta iota.
      by destruct (Z.eqb_spec (header_end - start) (-1)) as [|_]; [lia|].
    - simpl (-1 =? -1). cbv beta iota. rewrite E2.
      by destruct (Z.eqb_spec (header_end - start) (-1)) as [|_]; [lia|]. }
  rewrite Hsplit. cbn [fst snd]. rewrite <- Hhead. split_and!; [done|done|].
  unfold slice_from. rewrite norm_index_id by (destruct Hfind as [[_ ->]|(_ & _ & ->)]; lia).
  rewrite zdrop_drop. unfold len in *. rewrite length_drop. lia.
Qed.

(** X2, at a response with five body bytes. *)
Lemma split_recovers_header_witness :
  (split_http_message sample_response).1
  = B "HTTP/1.1 200 OK" ++ CRLF ++ B "Content-Length: 5"
  ∧ parse_headers (split_http_message sample_response).1
    = ("HTTP/1.1 200 OK"%string, {[ "content-length"%string := "5"%string ]})
  ∧ len (split_http_message sample_response).2 = 5.
Proof.
  apply (split_recovers_header 0 sample_response 0 "response" 34 4 sample_response_msg []);
    first [vm_compute; reflexivity | vm_compute; discriminate].
Defined.

(** ** The header dictionary *)

Lemma ords_decode l : ords (decode_latin1 l) = l.
Proof. apply list_byte_of_string_of_list_byte. Qed.

Lemma decode_ords s : decode_latin1 (ords s) = s.
Proof. apply string_of_list_byte_of_string. Qed.

(** A byte string is trimmed when neither end is whitespace. *)
Lemma lstrip_head sp l : lstrip sp l = [] ∨ ∃ x t, lstrip sp l = x :: t ∧ sp x = false.
Proof.
  induction l as [|x l IH]; simpl; [by left|].
  destruct (sp x) eqn:E; [done|]. right. eauto.
Qed.

Lemma lstrip_fixed sp x t : sp x = false → lstrip sp (x :: t) = x :: t.
Proof. intros E. simpl. by rewrite E. Qed.

Lemma lstrip_idem sp l : lstrip sp (lstrip sp l) = lstrip sp l.
Proof.
  destruct (lstrip_head sp l) as [->|(x & t & -> & E)]; [done|]. by apply lstrip_fixed.
Qed.

Lemma lstrip_suffix sp l : ∃ pre, l = pre ++ lstrip sp l ∧ Forall (λ x, sp x = true) pre.
Proof.
  induction l as [|x l (pre & IH & Hpre)]; simpl; [by exists []|].
  destruct (sp x) eqn:E.
  - exists (x :: pre). split; [by rewrite IH at 1|by constructor].
  - by exists [].
Qed.

Lemma strip_idem sp l : strip sp (strip sp l) = strip sp l.
Proof.
  unfold strip, rstrip. set (a := lstrip sp l). set (r := lstrip sp (rev a)).
  assert (lstrip sp (rev r) = rev r) as ->.
  { destruct (lstrip_suffix sp (rev a)) as (pre & Hra & _). fold r in Hra.
    apply (f_equal (@rev byte)) in Hra. rewrite rev_involutive, rev_app_distr in Hra.
    destruct (rev r) as [|z w]; [done|].
    destruct (lstrip_head sp l) as [Ea|(y & u & Ea & Hy)]; fold a in Ea;
      rewrite Ea in Hra; [done|].
    injection Hra as -> _. by apply lstrip_fixed. }
  rewrite rev_involutive. unfold r. by rewrite lstrip_idem.
Qed.

(** Mapping the bytes by a function that keeps whitespace whitespace
    and the rest the rest commutes with stripping. *)
Lemma lstrip_map sp f l :
  (∀ b, sp (f b) = sp b) → lstrip sp (map f l) = map f (lstrip sp l).
Proof.
  intros Hf. induction l as [|x l IH]; simpl; [done|].
  rewrite Hf. by destruct (sp x).
Qed.

Lemma strip_map sp f l :
  (∀ b, sp (f b) = sp b) → strip sp (map f l) = map f (strip sp l).
Proof.
  intros Hf. unfold strip, rstrip.
  by rewrite lstrip_map, <- map_rev, lstrip_map, map_rev.
Qed.

Lemma is_uspace_lower b : is_uspace (lower_byte b) = is_uspace b.
Proof. by destruct b. Qed.

Lemma lower_byte_idem b : lower_byte (lower_byte b) = lower_byte b.
Proof. by destruct b. Qed.

Lemma lower_byte_colon b : lower_byte b = ":"%byte → b = ":"%byte.
Proof. by destruct b. Qed.

Lemma str_lower_idem s : str_lower (str_lower s) = str_lower s.
Proof.
  unfold str_lower. rewrite ords_decode, map_map.
  f_equal. apply map_ext. intros b. apply lower_byte_idem.
Qed.

Lemma str_strip_idem s : str_strip (str_strip s) = str_strip s.
Proof. unfold str_strip. by rewrite ords_decode, strip_idem. Qed.

Lemma str_strip_lower s : str_strip (str_lower s) = str_lower (str_strip s).
Proof.
  unfold str_strip, str_lower. rewrite !ords_decode.
  by rewrite strip_map by apply is_uspace_lower.
Qed.

Lemma split1_no_sep (c : byte) l : c ∉ (split1 c l).1.
Proof.
  induction l as [|x l IH]; simpl; [set_solver|].
  destruct (byte_eqb x c) eqn:E; [set_solver|].
  destruct (split1 c l) as [h t]. simpl in *.
  intros [->|H]%elem_of_cons; [|done].
  assert (byte_eqb x x = true) by (by apply byte_eqb_eq). congruence.
Qed.

Lemma add_header_normalised headers line :
  map_Forall normalised headers → map_Forall normalised (add_header headers line).
Proof.
  intros Hh. unfold add_header.
  destruct (strip is_space line); [done|].
  destruct (negb _); [done|].
  destruct (split1 ":" line) as [name [value|]] eqn:Hsp; [|done].
  apply map_Forall_insert_2; [|done].
  unfold normalised. split_and!.
  - apply str_lower_idem.
  - by rewrite str_strip_lower, str_strip_idem.
  - unfold str_lower, str_strip. rewrite !ords_decode.
    intros (c0 & Hb & Hin)%list_elem_of_fmap. symmetry in Hb.
    apply lower_byte_colon in Hb as ->.
    apply strip_elem in Hin.
    pose proof (split1_no_sep ":" line) as Hno. rewrite Hsp in Hno. done.
  - apply str_strip_idem.
Qed.

(** X3.  Every name in the parsed headers is lower-case, carries no
    surrounding whitespace and no colon; every value carries no
    surrounding whitespace. *)
Theorem parse_headers_normalised header_bytes name value :
  (parse_headers header_bytes).2 !! name = Some value → normalised name value.
Proof.
  unfold parse_headers. destruct (splitlines header_bytes) as [|first rest]; [done|].
  cbn [snd]. revert name value. change (map_Forall normalised (fold_left add_header rest ∅)).
  assert (∀ h, map_Forall normalised h → map_Forall normalised (fold_left add_header rest h))
    as Hgen.
  { induction rest as [|line rest IH]; intros h Hh; [done|].
    simpl. apply IH. by apply add_header_normalised. }
  apply Hgen. apply map_Forall_empty.
Qed.

(** X3, at a header block with padded, mixed-case names. *)
Lemma parse_headers_normalised_witness : normalised "x-forwarded-for" "10.0.0.1".
Proof.
  apply (parse_headers_normalised
           (B "GET / HTTP/1.1" ++ CRLF ++ B " X-Forwarded-For :  10.0.0.1 ")).
  vm_compute. reflexivity.
Defined.

(** ** One more header line *)

Lemma is_break_eqb x :
  is_break x = false → byte_eqb x CR = false ∧ byte_eqb x LF = false.
Proof. by destruct x. Qed.

Lemma splitlines_go_line line : ∀ cur,
  Forall (λ x, is_break x = false) line → cur ++ line ≠ [] →
  splitlines_go cur line = [cur ++ line].
Proof.
  induction line as [|x line IH]; intros cur Hline Hne; simpl.
  - rewrite app_nil_r in *. by destruct cur.
  - apply Forall_cons in Hline as [Hx Hline].
    destruct (is_break_eqb _ Hx) as [-> ->].
    rewrite IH; [by rewrite <- app_assoc|done|]. rewrite <- app_assoc. by destruct cur.
Qed.

(** A last line after a [\r\n] is one more line. *)
Lemma splitlines_go_last_line line (n : nat) : ∀ l cur,
  (length l ≤ n)%nat →
  Forall (λ x, is_break x = false) line → line ≠ [] →
  splitlines_go cur (l ++ CRLF ++ line) = splitlines_go cur (l ++ CRLF) ++ [line].
Proof.
  intros l cur Hn Hline Hne. revert l cur Hn.
  induction n as [|n IH]; intros l cur Hn.
  - destruct l; [|simpl in Hn; lia]. simpl.
    by rewrite (splitlines_go_line line []).
  - destruct l as [|x l]; [apply IH; simpl; lia|].
    simpl in Hn. cbn [app splitlines_go].
    destruct (byte_eqb x CR).
    + destruct l as [|y l].
      * simpl. by rewrite (splitlines_go_line line []).
      * cbn [app]. destruct (byte_eqb y LF).
        -- simpl in Hn. rewrite (IH l) by lia. done.
        -- rewrite (IH (y :: l)) by (simpl in *; lia). done.
    + destruct (byte_eqb x LF); rewrite (IH l) by lia; done.
Qed.

(** A [\r\n] at the end adds at most one empty line. *)
Lemma splitlines_go_crlf (n : nat) : ∀ l cur,
  (length l ≤ n)%nat →
  ∃ extra, (extra = [] ∨ extra = [[]])
    ∧ splitlines_go cur (l ++ CRLF) = splitlines_go cur l ++ extra
    ∧ splitlines_go cur (l ++ CRLF) ≠ [].
Proof.
  induction n as [|n IH]; intros l cur Hn.
  - destruct l; [|simpl in Hn; lia]. simpl.
    destruct cur; [exists [[]]|exists []]; by split_and!; eauto.
  - destruct l as [|x l]; [apply IH; simpl; lia|].
    simpl in Hn. assert (length l ≤ n)%nat as Hl by lia.
    cbn [app splitlines_go].
    destruct (byte_eqb x CR).
    + destruct l as [|y l].
      * simpl. exists [[]]. by split_and!; eauto.
      * cbn [app]. simpl in Hn. assert (length l ≤ n)%nat as Hl2 by lia.
        destruct (byte_eqb y LF).
        -- destruct (IH l [] Hl2) as (extra & He & -> & _).
           exists extra. by split_and!.
        -- destruct (IH (y :: l) [] Hl) as (extra & He & E & _).
           cbn [app] in E. rewrite E. exists extra. by split_and!.
    + destruct (byte_eqb x LF).
      * destruct (IH l [] Hl) as (extra & He & -> & _). exists extra. by split_and!.
      * destruct (IH l (cur ++ [x]) Hl) as (extra & He & E & Hne). exists extra. by split_and!.
Qed.

Lemma add_header_blank headers : add_header headers [] = headers.
Proof. done. Qed.

Lemma parse_headers_crlf header_bytes :
  parse_headers (header_bytes ++ CRLF) = parse_headers header_bytes
  ∧ splitlines (header_bytes ++ CRLF) ≠ [].
Proof.
  unfold parse_headers, splitlines.
  destruct (splitlines_go_crlf (length header_bytes) header_bytes [] (le_n _))
    as (extra & He & -> & Hne). split; [|done].
  destruct (splitlines_go [] header_bytes) as [|first rest].
  - by destruct He as [->| ->].
  - cbn [app]. rewrite fold_left_app. by destruct He as [->| ->].
Qed.

Lemma split1_first (c : byte) name value :
  c ∉ name → split1 c (name ++ c :: value) = (name, Some value).
Proof.
  induction name as [|x name IH]; intros Hno; simpl.
  - by assert (byte_eqb c c = true) as -> by (by apply byte_eqb_eq).
  - destruct (byte_eqb x c) eqn:E; [apply byte_eqb_eq in E; set_solver|].
    rewrite IH; [done|set_solver].
Qed.

Lemma strip_nonblank sp l x : x ∈ l → sp x = false → strip sp l ≠ [].
Proof.
  intros Hin Hx Hs. unfold strip, rstrip in Hs.
  assert (∀ k, lstrip sp k = [] → Forall (λ y, sp y = true) k) as Hall.
  { intros k Hk. destruct (lstrip_suffix sp k) as (pre & E & Hpre).
    rewrite Hk, app_nil_r in E. by subst. }
  apply (f_equal (@rev byte)) in Hs. rewrite rev_involutive in Hs. simpl in Hs.
  apply Hall in Hs. rewrite Forall_forall in Hs.
  destruct (lstrip_suffix sp l) as (pre & E & Hpre). rewrite Forall_forall in Hpre.
  rewrite E in Hin. apply elem_of_app in Hin as [Hin|Hin].
  - apply Hpre in Hin. congruence.
  - assert (x ∈ rev (lstrip sp l)) as Hr
      by (apply list_elem_of_In, in_rev; rewrite rev_involutive; by apply list_elem_of_In).
    apply Hs in Hr. congruence.
Qed.

Lemma contains_byte (c : byte) pre post : contains [c] (pre ++ c :: post) = true.
Proof.
  unfold contains. destruct (Z.eqb_spec (find_from [c] (pre ++ c :: post) 0) (-1)) as [E|]; [|done].
  exfalso. apply (find_from_none _ _ _ (len pre)) in E; [|done].
  apply E. by exists pre, post.
Qed.

(** X4.  A header line appended to a header block is one insertion into the
    dictionary, under the lower-cased, stripped name; an earlier entry of
    that name is replaced.  The first line stays what it was. *)
Theorem parse_headers_append_line header_bytes name value :
  Forall (λ x, is_break x = false) (name ++ value) →
  ":"%byte ∉ name →
  parse_headers (header_bytes ++ CRLF ++ name ++ B ":" ++ value)
  = ((parse_headers header_bytes).1,
     <[ str_lower (str_strip (decode_latin1 name)) := str_strip (decode_latin1 value) ]>
       (parse_headers header_bytes).2).
Proof.
  intros Hbr Hno. apply Forall_app in Hbr as [Hn Hv].
  change (B ":" ++ value) with (":"%byte :: value).
  destruct (parse_headers_crlf header_bytes) as [Heq Hne]. rewrite <- Heq.
  unfold parse_headers, splitlines in *.
  rewrite (splitlines_go_last_line _ (length header_bytes)); [|done| |by destruct name].
  2:{ apply Forall_app. split; [done|]. by constructor. }
  destruct (splitlines_go [] (header_bytes ++ CRLF)) as [|first rest]; [done|].
  cbn [app fst snd]. rewrite fold_left_app. cbn [fold_left]. f_equal.
  unfold add_header at 1.
  destruct (strip is_space (name ++ ":"%byte :: value)) eqn:Hs.
  { exfalso. revert Hs. apply (strip_nonblank _ _ ":"%byte); [|done].
    apply elem_of_app. right. by left. }
  change (B ":") with [":"%byte]. rewrite contains_byte. cbn [negb]. by rewrite split1_first.
Qed.

(** X4, at a second [Host] line, which replaces the first. *)
Lemma parse_headers_append_line_witness :
  parse_headers (B "GET / HTTP/1.1" ++ CRLF ++ B "Host: a" ++ CRLF ++ B "HOST" ++ B ":" ++ B " b")
  = ("GET / HTTP/1.1"%string, {[ "host"%string := "b"%string ]}).
Proof.
  rewrite (app_assoc (B "GET / HTTP/1.1")), (app_assoc _ (B "Host: a")).
  rewrite (parse_headers_append_line _ (B "HOST") (B " b")).
  - vm_compute. reflexivity.
  - vm_compute. repeat constructor.
  - vm_compute. intros H. repeat (apply elem_of_cons in H as [H|H]; [done|]). by apply elem_of_nil in H.
Defined.

(** ** The calls of [write_http_item] *)

Lemma request_metadata_returns urlparse first_line headers :
  target_parses urlparse first_line
  ↔ request_metadata urlparse first_line headers ≠ Raised.
Proof.
  unfold target_parses, request_metadata.
  destruct (str_split first_line) as [|word [|target words]]; [done|done|].
  cbn [lookup list_lookup].
  destruct (str_startswith "http://" target || str_startswith "https://" target) eqn:Habs.
  - destruct (urlparse target) as [parsed|] eqn:Hp; split; try done.
    + intros _ t [= <-] _. by rewrite Hp.
    + intros H _. destruct (H target eq_refl Habs) as [parsed Hq]. congruence.
  - split; [|intros _ t [= <-] ?; congruence]. intros _. by destruct (negb _).
Qed.

Lemma target_parses_dec urlparse first_line :
  target_parses urlparse first_line ∨ ¬ target_parses urlparse first_line.
Proof.
  destruct (request_metadata urlparse first_line ∅) as [meta|] eqn:Hm.
  - left. apply (request_metadata_returns _ _ ∅). by rewrite Hm.
  - right. intros H. by apply (request_metadata_returns _ _ ∅) in H.
Qed.

Lemma write_http_item_request urlparse m response :
  target_parses urlparse (first_line_of m) →
  write_http_item urlparse (Some m) response = Returned (Item (Some m) response).
Proof.
  intros H. destruct m as [[b first_line] headers]. unfold first_line_of in H. simpl in H.
  apply (request_metadata_returns _ _ headers) in H. unfold write_http_item.
  by destruct (request_metadata urlparse first_line headers).
Qed.

Lemma write_http_item_raises urlparse m response :
  ¬ target_parses urlparse (first_line_of m) →
  write_http_item urlparse (Some m) response = Raised.
Proof.
  intros H. destruct m as [[b first_line] headers]. unfold first_line_of in H. simpl in H.
  unfold write_http_item.
  destruct (request_metadata urlparse first_line headers) eqn:Hm; [|done].
  destruct H. apply (request_metadata_returns _ _ headers). by rewrite Hm.
Qed.

Lemma write_http_item_returned urlparse request response it :
  write_http_item urlparse request response = Returned it → it = Item request response.
Proof.
  unfold write_http_item. destruct request as [[[b first_line] headers]|].
  - destruct (request_metadata _ _ _); [|done]. by intros [= <-].
  - by intros [= <-].
Qed.

Lemma write_item_returned urlparse request response pending st st2 :
  write_item urlparse request response pending st = Returned st2 →
  st2 = PairState pending (count_items st + 1) (written st ++ [Item request response]).
Proof.
  unfold write_item. destruct (write_http_item _ _ _) as [it|] eqn:Hw; [|done].
  apply write_http_item_returned in Hw as ->. by intros [= <-].
Qed.

Lemma write_item_response urlparse response pending st :
  write_item urlparse None response pending st
  = Returned (PairState pending (count_items st + 1) (written st ++ [Item None response])).
Proof. reflexivity. Qed.

Lemma write_item_request urlparse m response pending st :
  target_parses urlparse (first_line_of m) →
  write_item urlparse (Some m) response pending st
  = Returned (PairState pending (count_items st + 1)
                (written st ++ [Item (Some m) response])).
Proof. intros H. unfold write_item. by rewrite write_http_item_request. Qed.

Lemma write_item_raises urlparse m response pending st :
  ¬ target_parses urlparse (first_line_of m) →
  write_item urlparse (Some m) response pending st = Raised.
Proof. intros H. unfold write_item. by rewrite write_http_item_raises. Qed.

(** ** The pairing loop *)

Lemma pair_message_count urlparse msg st st2 :
  pair_message urlparse msg st = Returned st2 →
  count_items st = len (written st) →
  count_items st2 = len (written st2)
  ∧ count_items st ≤ count_items st2 ≤ count_items st + 1.
Proof.
  unfold pair_message. destruct msg as [[m first_line] headers].
  destruct (is_request first_line), (pending_request st); intros H Hc;
    first [apply write_item_returned in H as -> | injection H as <-];
    cbn [count_items written]; rewrite ?len_app; change (len [_]) with 1; lia.
Qed.

Lemma pair_loop_count urlparse limit fuel : ∀ gen st r,
  pair_loop urlparse fuel limit gen st = Done (Returned r) →
  count_items st = len (written st) →
  count_items r = len (written r).
Proof.
  induction fuel as [|fuel IH]; intros gen st r; [done|]. cbn [pair_loop].
  destruct (gen_next fuel default_chunk_size gen) as [[[msg gen2]|]|]; [| |done].
  - destruct (pair_message urlparse msg st) as [st2|] eqn:Hm; [|done].
    intros Hr Hc. destruct (pair_message_count _ _ _ _ Hm Hc) as [Hc2 _].
    destruct (limit_reached _ _); [by simplify_eq|]. by eapply IH.
  - intros [= <-]. done.
Qed.

Lemma pair_flush_count urlparse limit st st2 :
  pair_flush urlparse limit st = Returned st2 →
  count_items st = len (written st) →
  count_items st2 = len (written st2).
Proof.
  unfold pair_flush. destruct (pending_request st); [|by intros [= <-]].
  destruct (negb _); [|by intros [= <-]].
  intros H Hc. apply write_item_returned in H as ->. cbn [count_items written].
  rewrite len_app. change (len [_]) with 1. lia.
Qed.

Lemma written_count urlparse fuel input limit items count :
  write_http_messages_as_xml urlparse fuel input limit = Done (Returned (items, count)) →
  count = len items.
Proof.
  unfold write_http_messages_as_xml.
  destruct (pair_loop _ _ _ _ _) as [[st|]|] eqn:Hloop; [|done|done].
  destruct (pair_flush _ _ _) as [st2|] eqn:Hflush; [|done]. intros [= <- <-].
  eapply pair_flush_count; [done|]. by eapply pair_loop_count.
Qed.

(** X5.  The value that [write_http_messages_as_xml] returns is the number
    of items it has written. *)
Theorem exported_count_is_items urlparse fuel input limit items count :
  write_http_messages_as_xml urlparse fuel input limit = Done (Returned (items, count)) →
  count = len items.
Proof. apply written_count. Qed.

(** X5, at a request and its response. *)
Lemma exported_count_is_items_witness :
  1 = len [Item (Some sample_request_msg) (Some sample_response_msg)].
Proof.
  apply (exported_count_is_items (λ _, None) 5 (sample_request ++ sample_response) None).
  vm_compute. reflexivity.
Defined.

Lemma pair_loop_limit urlparse n fuel : ∀ gen st r,
  pair_loop urlparse fuel (Some n) gen st = Done (Returned r) →
  count_items r ≤ Z.max n (count_items st + 1).
Proof.
  induction fuel as [|fuel IH]; intros gen st r; [done|]. cbn [pair_loop].
  destruct (gen_next fuel default_chunk_size gen) as [[[msg gen2]|]|]; [| |done].
  - destruct (pair_message urlparse msg st) as [st2|] eqn:Hm; [|done].
    assert (count_items st2 ≤ count_items st + 1) as Hstep.
    { revert Hm. unfold pair_message. destruct msg as [[m first_line] headers].
      destruct (is_request first_line), (pending_request st); intros H;
        first [apply write_item_returned in H as -> | injection H as <-];
        cbn [count_items]; lia. }
    unfold limit_reached.
    destruct (Z.leb_spec n (count_items st2)).
    + intros [= <-]. lia.
    + intros Hr. apply IH in Hr. lia.
  - intros [= <-]. lia.
Qed.

(** X6.  With a limit of [n] items, no more than [n] items are written when
    [n] is at least one, and no more than one item otherwise. *)
Theorem limit_bounds_items urlparse fuel input n items count :
  write_http_messages_as_xml urlparse fuel input (Some n) = Done (Returned (items, count)) →
  len items ≤ Z.max n 1 ∧ count ≤ Z.max n 1.
Proof.
  intros Hw. pose proof (written_count _ _ _ _ _ _ Hw) as <-.
  revert Hw. unfold write_http_messages_as_xml.
  destruct (pair_loop _ _ _ _ _) as [[st|]|] eqn:Hloop; [|done|done].
  apply pair_loop_limit in Hloop. cbn [count_items] in Hloop.
  unfold pair_flush, limit_reached.
  destruct (pending_request st); [|intros [= _ <-]; lia].
  destruct (Z.leb_spec n (count_items st)); cbn [negb]; [intros [= _ <-]; lia|].
  destruct (write_item _ _ _ _ _) as [st2|] eqn:Hw; [|done].
  apply write_item_returned in Hw as ->. cbn [count_items]. intros [= _ <-]. lia.
Qed.

(** X6, with a limit of one, the second of two requests is not written. *)
Lemma limit_bounds_items_witness :
  len [Item (Some get_a) None] ≤ Z.max 1 1 ∧ 1 ≤ Z.max 1 1.
Proof.
  apply (limit_bounds_items (λ _, None) 5 two_gets 1). vm_compute. reflexivity.
Defined.

(** X7.  A limit of zero or less stops the loop after the first message: a
    first message that is not a request has been written by then, a first
    request has not and is not written afterwards either. *)
Theorem nonpositive_limit_first_message urlparse fuel input n msg gen :
  gen_next fuel default_chunk_size (gen_init input) = Done (Some (msg, gen)) →
  n ≤ 0 →
  write_http_messages_as_xml urlparse (S fuel) input (Some n)
  = if is_request (first_line_of msg) then Done (Returned ([], 0))
    else Done (Returned ([Item None (Some msg)], 1)).
Proof.
  intros Hnext Hn. unfold write_http_messages_as_xml. cbn [pair_loop]. rewrite Hnext.
  destruct msg as [[m first_line] headers]. unfold first_line_of. cbn [fst snd].
  unfold pair_message. cbn [pending_request count_items written].
  destruct (is_request first_line); cbn [count_items]; unfold limit_reached.
  - destruct (Z.leb_spec n 0); [|lia]. unfold pair_flush, limit_reached.
    cbn [pending_request count_items written].
    by destruct (Z.leb_spec n 0); [|lia].
  - rewrite write_item_response. cbn [count_items].
    destruct (Z.leb_spec n (0 + 1)); [|lia]. done.
Qed.

(** X7, at a limit of zero and an input that begins with a response. *)
Lemma nonpositive_limit_first_message_witness :
  write_http_messages_as_xml (λ _, None) 3 sample_response (Some 0)
  = Done (Returned ([Item None (Some sample_response_msg)], 1)).
Proof.
  apply (nonpositive_limit_first_message (λ _, None) 2 sample_response 0 sample_response_msg
           (GenState [] [] AtExtract)); [vm_compute; reflexivity|lia].
Defined.

(** ** Pairing loses no message *)

Lemma item_messages_app its it :
  flat_map item_messages (its ++ [it]) = flat_map item_messages its ++ item_messages it.
Proof. rewrite flat_map_app. simpl. by rewrite app_nil_r. Qed.

Lemma pair_loop_run urlparse fuel : ∀ gen st msgs,
  gen_run fuel default_chunk_size gen = (msgs, true) →
  pair_loop urlparse fuel None gen st = Done (pair_messages urlparse msgs st).
Proof.
  induction fuel as [|fuel IH]; intros gen st msgs; [done|].
  cbn [gen_run pair_loop].
  destruct (gen_next fuel default_chunk_size gen) as [[[msg gen2]|]|]; [| |done].
  - destruct (gen_run fuel default_chunk_size gen2) as [msgs2 fin] eqn:Hrun.
    intros [= <- ->]. cbn [pair_messages].
    destruct (pair_message urlparse msg st) as [st2|]; [|done].
    cbn [limit_reached]. by apply IH.
  - by intros [= <-].
Qed.

(** What one message does to a sound state whose pending request can
    be written. *)
Lemma pair_message_keeps urlparse msg st :
  pair_sound st →
  (∀ p, pending_request st = Some p → target_parses urlparse (first_line_of p)) →
  ∃ st2,
    pair_message urlparse msg st = Returned st2
    ∧ pair_sound st2
    ∧ (∀ p, pending_request st2 = Some p → p = msg)
    ∧ flat_map item_messages (written st2) ++ option_list (pending_request st2)
      = (flat_map item_messages (written st) ++ option_list (pending_request st)) ++ [msg].
Proof.
  intros [Hw Hp] Hparse. unfold pair_message. destruct msg as [[m first_line] headers].
  assert (∀ it, item_sound it → Forall item_sound (written st ++ [it])) as Hadd
    by (intros it Hit; apply Forall_app; split; [done|by apply Forall_singleton]).
  destruct (is_request first_line) eqn:Hreq, (pending_request st) as [pending|] eqn:Hpend;
    rewrite ?write_item_request by (by apply Hparse); rewrite ?write_item_response;
    eexists; (split; [reflexivity|]); (split; [split|split]);
    cbn [written pending_request option_list];
    try (rewrite item_messages_app; unfold item_messages at 2;
         cbn [item_request item_response option_list app]);
    rewrite <- ?app_assoc, ?app_nil_r; try done;
    try (intros ? ?; by simplify_eq);
    apply Hadd; unfold item_sound, item_messages;
    cbn [item_request item_response option_list app];
    (split_and!; [done|intros ? ?; simplify_eq; eauto..]).
Qed.

Lemma pair_messages_keeps urlparse msgs : ∀ st,
  pair_sound st →
  (∀ p, pending_request st = Some p → target_parses urlparse (first_line_of p)) →
  requests_parse urlparse msgs →
  ∃ st2,
    pair_messages urlparse msgs st = Returned st2
    ∧ pair_sound st2
    ∧ (∀ p, pending_request st2 = Some p → target_parses urlparse (first_line_of p))
    ∧ flat_map item_messages (written st2) ++ option_list (pending_request st2)
      = (flat_map item_messages (written st) ++ option_list (pending_request st)) ++ msgs.
Proof.
  induction msgs as [|msg msgs IH]; intros st Hsound Hparse Hall.
  - exists st. by rewrite app_nil_r.
  - apply Forall_cons in Hall as [Hmsg Hall].
    destruct (pair_message_keeps urlparse msg st Hsound Hparse)
      as (st1 & Hstep & Hsound1 & Hpend1 & Hflat1).
    assert (∀ p, pending_request st1 = Some p → target_parses urlparse (first_line_of p))
      as Hparse1.
    { intros p Hp. pose proof (Hpend1 p Hp) as ->. apply Hmsg.
      destruct Hsound1 as [_ Hreq]. by apply Hreq. }
    destruct (IH st1 Hsound1 Hparse1 Hall) as (st2 & Hrun & Hsound2 & Hparse2 & Hflat2).
    exists st2. cbn [pair_messages]. rewrite Hstep. split_and!; [done..|].
    rewrite Hflat2, Hflat1. by rewrite <- app_assoc.
Qed.

(** A sound state and a message: the step raises, or it returns a
    sound state; the pending request of that state is the message or
    there is none. *)
Lemma pair_message_sound urlparse msg st st2 :
  pair_sound st → pair_message urlparse msg st = Returned st2 →
  pair_sound st2 ∧ (∀ p, pending_request st2 = Some p → p = msg).
Proof.
  intros [Hw Hp]. unfold pair_message. destruct msg as [[m first_line] headers].
  assert (∀ it, item_sound it → Forall item_sound (written st ++ [it])) as Hadd
    by (intros it Hit; apply Forall_app; split; [done|by apply Forall_singleton]).
  destruct (is_request first_line) eqn:Hreq, (pending_request st) as [pending|] eqn:Hpend;
    intros H; first [apply write_item_returned in H as -> | injection H as <-];
    (split; [split|]); cbn [written pending_request]; try done;
    try (intros ? ?; by simplify_eq);
    apply Hadd; unfold item_sound, item_messages;
    cbn [item_request item_response option_list app];
    (split_and!; [done|intros ? ?; simplify_eq; eauto..]).
Qed.

(** When a request among the messages, or the pending one, cannot be
    written, the loop raises or ends with such a request pending. *)
Lemma pair_messages_raises urlparse msgs : ∀ st,
  pair_sound st →
  (∃ p, pending_request st = Some p ∧ ¬ target_parses urlparse (first_line_of p))
  ∨ ¬ requests_parse urlparse msgs →
  pair_messages urlparse msgs st = Raised
  ∨ ∃ st2 p,
      pair_messages urlparse msgs st = Returned st2
      ∧ pending_request st2 = Some p
      ∧ ¬ target_parses urlparse (first_line_of p).
Proof.
  induction msgs as [|msg msgs IH]; intros st Hsound Hbad.
  - destruct Hbad as [(p & Hp & Hno)|Hno]; [|by destruct Hno; constructor].
    right. by exists st, p.
  - cbn [pair_messages].
    destruct Hbad as [(p & Hp & Hno)|Hno].
    + (* the pending request is written when the next message comes *)
      left. unfold pair_message. destruct msg as [[m first_line] headers].
      rewrite Hp. destruct (is_request first_line); by rewrite write_item_raises.
    + destruct (pair_message urlparse msg st) as [st1|] eqn:Hstep; [|by left].
      destruct (pair_message_sound _ _ _ _ Hsound Hstep) as [Hsound1 Hpend1].
      apply IH; [done|].
      destruct (target_parses_dec urlparse (first_line_of msg)) as [Hyes|Hnot].
      * right. intros Hall. apply Hno. by constructor.
      * destruct (is_request (first_line_of msg)) eqn:Hreq.
        -- (* a request: it is pending now *)
           left. exists msg. split; [|done].
           revert Hstep. unfold pair_message. destruct msg as [[m first_line] headers].
           unfold first_line_of in Hreq. simpl in Hreq. rewrite Hreq.
           destruct (pending_request st); intros H;
             first [apply write_item_returned in H as -> | injection H as <-]; done.
        -- right. intros Hall. apply Hno. constructor; [|done]. by rewrite Hreq.
Qed.

Lemma pairing_keeps urlparse fuel input msgs :
  gen_run fuel default_chunk_size (gen_init input) = (msgs, true) →
  (requests_parse urlparse msgs →
   ∃ items,
     write_http_messages_as_xml urlparse fuel input None = Done (Returned (items, len items))
     ∧ flat_map item_messages items = msgs
     ∧ Forall item_sound items)
  ∧ (¬ requests_parse urlparse msgs →
     write_http_messages_as_xml urlparse fuel input None = Done Raised).
Proof.
  intros Hrun. unfold write_http_messages_as_xml.
  rewrite (pair_loop_run urlparse _ _ (PairState None 0 []) _ Hrun).
  assert (pair_sound (PairState None 0 [])) as Hinit by (split; [constructor|done]).
  split.
  - intros Hall.
    destruct (pair_messages_keeps urlparse msgs (PairState None 0 []) Hinit)
      as (st & Hpm & [Hw Hp] & Hparse & Hflat); [done|done|].
    assert (count_items st = len (written st)) as Hcount.
    { eapply pair_loop_count;
        [by rewrite (pair_loop_run urlparse _ _ (PairState None 0 []) _ Hrun), Hpm|done]. }
    rewrite Hpm.
    cbn [written pending_request option_list app] in Hflat.
    unfold pair_flush. cbn [limit_reached negb].
    destruct (pending_request st) as [pending|] eqn:Hpend.
    + rewrite write_item_request by (by apply Hparse). cbn [written count_items].
      exists (written st ++ [Item (Some pending) None]). split_and!.
      * rewrite len_app. change (len [_]) with 1. by rewrite Hcount.
      * by rewrite item_messages_app.
      * apply Forall_app. split; [done|]. apply Forall_singleton.
        unfold item_sound, item_messages. cbn [item_request item_response option_list app].
        split_and!; [done| |done]. intros ? [= <-]. by apply Hp.
    + exists (written st). rewrite Hcount. split_and!; [done| |done].
      cbn [option_list] in Hflat. by rewrite app_nil_r in Hflat.
  - intros Hno.
    destruct (pair_messages_raises urlparse msgs (PairState None 0 []) Hinit)
      as [->|(st & p & -> & Hp & Hbad)]; [by right|done|].
    unfold pair_flush. rewrite Hp. cbn [limit_reached negb].
    by rewrite write_item_raises.
Qed.

(** X8.  Without a limit, when the generator runs to its end and every
    request among its messages has a target that can be described, the
    items written hold exactly the messages it yielded, each once and in
    the order of the stream; every item holds a message, a request on its
    request side and a message that is not a request on its response
    side.  When a request has a target that the URL parser refuses, the
    export raises instead. *)
Theorem pairing_keeps_every_message urlparse fuel input msgs :
  iter_http_messages fuel input default_chunk_size = (msgs, true) →
  (requests_parse urlparse msgs →
   ∃ items,
     write_http_messages_as_xml urlparse fuel input None = Done (Returned (items, len items))
     ∧ flat_map item_messages items = msgs
     ∧ Forall item_sound items)
  ∧ (¬ requests_parse urlparse msgs →
     write_http_messages_as_xml urlparse fuel input None = Done Raised).
Proof. apply pairing_keeps. Qed.

(** X8, at the two requests of the pairing example, with a URL parser that
    refuses every target: their targets are paths, so it is not asked. *)
Lemma pairing_keeps_every_message_witness :
  (requests_parse (λ _, None) [get_a; get_b] →
   ∃ items,
     write_http_messages_as_xml (λ _, None) 5 two_gets None
     = Done (Returned (items, len items))
     ∧ flat_map item_messages items = [get_a; get_b]
     ∧ Forall item_sound items)
  ∧ (¬ requests_parse (λ _, None) [get_a; get_b] →
     write_http_messages_as_xml (λ _, None) 5 two_gets None = Done Raised).
Proof.
  apply (pairing_keeps_every_message (λ _, None) 5 two_gets). vm_compute. reflexivity.
Defined.

(** ** The kind of a located start and the request test of the pairing loop *)

Lemma lit_match_inv l : ∀ s s2,
  lit_match l s = Some s2 →
  ∃ w, s = w ++ s2 ∧ Forall2 (λ x y, byte_eqb_ic x y = true) l w.
Proof.
  induction l as [|x l IH]; intros s s2; simpl.
  - intros [= ->]. by exists [].
  - destruct s as [|y s]; [done|]. destruct (byte_eqb_ic x y) eqn:E; [|done].
    intros (w & -> & Hw)%IH. exists (y :: w). split; [done|]. by constructor.
Qed.

Lemma any_of_match ws pos s k :
  matches (any_of ws) pos s k = true →
  ∃ w s2, w ∈ ws ∧ lit_match w s = Some s2.
Proof.
  induction ws as [|w ws IH]; simpl.
  - by destruct s.
  - destruct (lit_match w s) as [s2|] eqn:E.
    + intros _. exists w, s2. split; [by left|done].
    + intros (w2 & s2 & Hin & Hm)%IH. exists w2, s2. split; [by right|done].
Qed.

(** Past the anchor, a request match begins with a method name and a
    response match with [HTTP/], in either case of the letters. *)
Lemma anchor_inv r pos s :
  match_at (Seq (Alt Bol (Cls is_break)) r) pos s = true →
  (pos = 0 ∧ match_at r pos s = true)
  ∨ (∃ x s1, s = x :: s1 ∧ is_break x = true ∧ match_at r (pos + 1) s1 = true).
Proof.
  unfold match_at. simpl.
  destruct (Z.eqb_spec pos 0) as [->|_].
  - destruct (matches r 0 s _) eqn:E; [by left|].
    destruct s as [|x s1]; [done|]. destruct (is_break x) eqn:Hx; [|done].
    intros H. right. by exists x, s1.
  - destruct s as [|x s1]; [done|]. destruct (is_break x) eqn:Hx; [|done].
    intros H. right. by exists x, s1.
Qed.

Lemma request_start_word pos s :
  match_at REQUEST_START_RE pos s = true →
  ∃ word s1 s2, word ∈ HTTP_METHODS ∧ lit_match word s1 = Some s2
    ∧ ((pos = 0 ∧ s = s1) ∨ (∃ x, s = x :: s1 ∧ is_break x = true)).
Proof.
  intros [[-> H]|(x & s1 & -> & Hx & H)]%anchor_inv.
  - apply any_of_match in H as (w & s2 & Hin & Hm). exists w, s, s2. eauto.
  - apply any_of_match in H as (w & s2 & Hin & Hm). exists w, s1, s2. eauto 10.
Qed.

Lemma response_start_word pos s :
  match_at RESPONSE_START_RE pos s = true →
  ∃ word s1 s2, word = B "HTTP/" ∧ lit_match word s1 = Some s2
    ∧ ((pos = 0 ∧ s = s1) ∨ (∃ x, s = x :: s1 ∧ is_break x = true)).
Proof.
  assert (∀ pos s k, matches (seqs [http_version; plus is_space; Rep is_digit 3 (Some 3%nat);
                                    star (λ b, negb (is_break b))]) pos s k = true →
                     ∃ s2, lit_match (B "HTTP/") s = Some s2) as Hv.
  { intros p t k. cbn [seqs foldr http_version matches].
    destruct (lit_match (B "HTTP/") t) as [s2|]; [eauto|done]. }
  intros [[-> H]|(x & s1 & -> & Hx & H)]%anchor_inv.
  - apply Hv in H as (s2 & Hm). exists (B "HTTP/"), s, s2. eauto.
  - apply Hv in H as (s2 & Hm). exists (B "HTTP/"), s1, s2. eauto 10.
Qed.

Lemma word_byte_match x y :
  word_byte x = true → byte_eqb_ic x y = true →
  upper_cp y = [Byte.to_N x] ∧ is_break y = false ∧ is_uspace y = false.
Proof.
  destruct x; try discriminate; intros _; destruct y; try discriminate; done.
Qed.

Lemma word_match word : ∀ w,
  Forall (λ x, word_byte x = true) word →
  Forall2 (λ x y, byte_eqb_ic x y = true) word w →
  flat_map upper_cp w = codepoints word
  ∧ Forall (λ y, is_break y = false) w
  ∧ Forall (λ y, is_uspace y = false) w
  ∧ length w = length word.
Proof.
  induction word as [|x word IH]; intros w Hword Hm.
  - by apply Forall2_nil_inv_l in Hm as ->.
  - apply Forall2_cons_inv_l in Hm as (y & w2 & Hxy & Hm & ->).
    apply Forall_cons in Hword as [Hx Hword].
    destruct (IH w2 Hword Hm) as (Hup & Hbr & Hsp & Hlen).
    destruct (word_byte_match x y Hx Hxy) as (Hy1 & Hy2 & Hy3).
    simpl. rewrite Hy1, Hup, Hlen. split_and!; by try constructor.
Qed.

Lemma start_words_are_words word :
  word ∈ HTTP_METHODS ∨ word = B "HTTP/" → word ≠ [] ∧ Forall (λ x, word_byte x = true) word.
Proof.
  intros [Hin| ->].
  - unfold HTTP_METHODS in Hin.
    repeat (apply elem_of_cons in Hin as [->|Hin]; [split; [done|by repeat constructor]|]).
    by apply elem_of_nil in Hin.
  - split; [done|by repeat constructor].
Qed.

(** The word that a located start stands on. *)
Lemma located_word r buffer p kind :
  (∀ pos s, match_at r pos s = true →
     ∃ word s1 s2, (word ∈ HTTP_METHODS ∧ kind = "request"%string
                    ∨ word = B "HTTP/" ∧ kind = "response"%string)
       ∧ lit_match word s1 = Some s2
       ∧ ((pos = 0 ∧ s = s1) ∨ (∃ x, s = x :: s1 ∧ is_break x = true))) →
  search r buffer = Some p →
  ∃ word w rest,
    (word ∈ HTTP_METHODS ∧ kind = "request"%string
     ∨ word = B "HTTP/" ∧ kind = "response"%string)
    ∧ Forall2 (λ x y, byte_eqb_ic x y = true) word w
    ∧ zdrop (skip_breaks (zdrop p buffer) p) buffer = w ++ rest.
Proof.
  intros Hr (n & -> & Hn & Hm & _)%search_from_spec. simpl in *.
  apply Hr in Hm as (word & s1 & s2 & Hkind & Hlit & Hs).
  apply lit_match_inv in Hlit as (w & -> & Hw).
  exists word, w, s2. split; [done|]. split; [done|].
  assert (∃ c w2, w = c :: w2 ∧ is_break c = false) as (c & w2 & -> & Hc).
  { destruct (start_words_are_words word) as [Hne Hall].
    { destruct Hkind as [[? _]|[? _]]; eauto. }
    destruct (word_match word w Hall Hw) as (_ & Hbr & _ & Hlen).
    destruct w as [|c w2]; [by destruct word|].
    apply Forall_cons in Hbr as [Hc _]. eauto. }
  rewrite Z.add_0_l in *. rewrite !zdrop_drop, Nat2Z.id.
  destruct Hs as [[_ Hs]|(x & Hs & Hx)]; rewrite Hs; simpl.
  - rewrite Hc. by rewrite Nat2Z.id.
  - rewrite Hx, Hc.
    replace (Z.to_nat (Z.of_nat n + 1)) with (n + 1)%nat by lia.
    rewrite <- drop_drop, Hs. done.
Qed.

Lemma start_word buffer start kind :
  find_next_http_start buffer = Some (start, kind) →
  ∃ word w rest,
    (word ∈ HTTP_METHODS ∧ kind = "request"%string
     ∨ word = B "HTTP/" ∧ kind = "response"%string)
    ∧ Forall2 (λ x y, byte_eqb_ic x y = true) word w
    ∧ zdrop start buffer = w ++ rest.
Proof.
  unfold find_next_http_start. set (found := _ ++ _).
  assert (Forall (λ x : Z * string,
            ∃ word w rest,
              (word ∈ HTTP_METHODS ∧ x.2 = "request"%string
               ∨ word = B "HTTP/" ∧ x.2 = "response"%string)
              ∧ Forall2 (λ x y, byte_eqb_ic x y = true) word w
              ∧ zdrop (skip_breaks (zdrop x.1 buffer) x.1) buffer = w ++ rest) found) as Hall.
  { apply Forall_app. split.
    - destruct (search REQUEST_START_RE buffer) as [a|] eqn:Ha; [|done].
      apply Forall_singleton. apply (located_word REQUEST_START_RE); [|done].
      intros pos s (word & s1 & s2 & ? & ? & ?)%request_start_word.
      exists word, s1, s2. eauto.
    - destruct (search RESPONSE_START_RE buffer) as [b|] eqn:Hb; [|done].
      apply Forall_singleton. apply (located_word RESPONSE_START_RE); [|done].
      intros pos s (word & s1 & s2 & ? & ? & ?)%response_start_word.
      exists word, s1, s2. eauto. }
  destruct found as [|m ms]; [done|].
  pose proof (min_by_offset_in ms m) as Hin.
  destruct (min_by_offset m ms) as [s k]. intros [= <- <-].
  rewrite Forall_forall in Hall. by apply Hall in Hin.
Qed.

Lemma occurs_at_lookup sub l q x sub2 :
  occurs_at sub l q → sub = x :: sub2 → l !! Z.to_nat q = Some x.
Proof.
  intros (pre & post & -> & <-) ->. unfold len. rewrite Nat2Z.id.
  by rewrite lookup_app_r, Nat.sub_diag.
Qed.

(** The header terminator lies behind a word without line breaks that
    the buffer holds at [start]. *)
Lemma header_end_after_word buffer start header_end header_sep w rest :
  0 ≤ start →
  find_header_end buffer start = Some (header_end, header_sep) →
  zdrop start buffer = w ++ rest →
  Forall (λ y, is_break y = false) w →
  start + len w ≤ header_end.
Proof.
  intros Hs He Hd Hw.
  assert (∃ sub x sub2, sub = x :: sub2 ∧ is_break x = true
            ∧ find sub buffer start = header_end ∧ header_end ≠ -1)
    as (sub & x & sub2 & Hsub & Hx & Hf & Hne).
  { revert He. unfold find_header_end.
    set (f4 := find (CRLF ++ CRLF) buffer start). set (f2 := find [LF; LF] buffer start).
    destruct (Z.eqb_spec f4 (-1)) as [E4|N4]; cbv beta iota zeta.
    - destruct (Z.eqb_spec f2 (-1)) as [E2|N2]; [done|]. intros [= <- <-].
      by exists [LF; LF], LF, [LF].
    - destruct (Z.eqb_spec f4 (-1)) as [|_]; [done|]. intros [= <- <-].
      by exists (CRLF ++ CRLF), CR, (LF :: CRLF). }
  destruct (find_spec sub buffer start Hs) as [[E _]|(Hge & Hocc & _)]; [congruence|].
  rewrite Hf in *. destruct (Z.le_gt_cases (start + len w) header_end) as [|Hlt]; [done|].
  exfalso. pose proof (occurs_at_lookup _ _ _ _ _ Hocc Hsub) as Hl.
  rewrite zdrop_drop in Hd.
  assert (buffer !! Z.to_nat header_end = w !! (Z.to_nat header_end - Z.to_nat start)%nat) as Hl2.
  { replace (Z.to_nat header_end)
      with (Z.to_nat start + (Z.to_nat header_end - Z.to_nat start))%nat at 1 by lia.
    rewrite <- lookup_drop, Hd. apply lookup_app_l. unfold len in *. lia. }
  rewrite Hl in Hl2. symmetry in Hl2.
  rewrite Forall_forall in Hw. apply list_elem_of_lookup_2, Hw in Hl2. congruence.
Qed.

Lemma splitlines_go_word w : ∀ cur t,
  Forall (λ y, is_break y = false) w →
  splitlines_go cur (w ++ t) = splitlines_go (cur ++ w) t.
Proof.
  induction w as [|y w IH]; intros cur t Hw; simpl; [by rewrite app_nil_r|].
  apply Forall_cons in Hw as [Hy Hw]. destruct (is_break_eqb _ Hy) as [-> ->].
  rewrite IH by done. by rewrite <- app_assoc.
Qed.

Lemma splitlines_go_first t : ∀ cur,
  cur ≠ [] → ∃ tail more, splitlines_go cur t = (cur ++ tail) :: more.
Proof.
  induction t as [|x t IH]; intros cur Hne; simpl.
  - exists [], []. rewrite app_nil_r. by destruct cur.
  - destruct (byte_eqb x CR).
    + destruct t as [|y t]; [|destruct (byte_eqb y LF)]; eexists [], _; by rewrite app_nil_r.
    + destruct (byte_eqb x LF); [eexists [], _; by rewrite app_nil_r|].
      destruct (IH (cur ++ [x])) as (tail & more & ->); [by destruct cur|].
      exists (x :: tail), more. by rewrite <- app_assoc.
Qed.

Lemma lstrip_before_word sp a : ∀ y b,
  sp y = false → ∃ c, lstrip sp (a ++ y :: b) = c ++ y :: b.
Proof.
  induction a as [|x a IH]; intros y b Hy; simpl.
  - rewrite Hy. by exists [].
  - destruct (sp x); [by apply IH|]. by exists (x :: a).
Qed.

Lemma strip_word sp w t :
  w ≠ [] → Forall (λ y, sp y = false) w → ∃ t2, strip sp (w ++ t) = w ++ t2.
Proof.
  intros Hne Hw. unfold strip, rstrip.
  destruct w as [|c w]; [done|]. apply Forall_cons in Hw as [Hc Hw].
  cbn [app lstrip]. rewrite Hc.
  destruct (rev (c :: w)) as [|z rw] eqn:Er.
  { apply (f_equal (@length byte)) in Er. rewrite length_rev in Er. done. }
  assert (sp z = false) as Hz.
  { assert (z ∈ c :: w) as Hin.
    { apply list_elem_of_In, in_rev. rewrite Er. by left. }
    apply elem_of_cons in Hin as [->|Hin]; [done|].
    rewrite Forall_forall in Hw. by apply Hw. }
  change (c :: w ++ t) with ((c :: w) ++ t). rewrite rev_app_distr, Er.
  destruct (lstrip_before_word sp (rev t) z rw Hz) as (c2 & ->).
  exists (rev c2). rewrite rev_app_distr, <- Er, rev_involutive. done.
Qed.

Lemma cp_startswith_app m u : cp_startswith m (m ++ u) = true.
Proof. induction m as [|x m IH]; simpl; [done|]. by rewrite N.eqb_refl. Qed.

(** The first line parsed from a header block that begins with a start
    word: the request test of the pairing loop accepts a method name and
    rejects [HTTP/]. *)
Lemma is_request_of_word word w t (is_method : bool) :
  (if is_method then word ∈ HTTP_METHODS else word = B "HTTP/") →
  Forall2 (λ x y, byte_eqb_ic x y = true) word w →
  is_request (parse_headers (w ++ t)).1 = is_method.
Proof.
  intros Hword Hw.
  destruct (start_words_are_words word) as [Hne Hall];
    [destruct is_method; eauto|].
  destruct (word_match word w Hall Hw) as (Hup & Hbr & Hsp & Hlen).
  assert (w ≠ []) as Hwne by (destruct w, word; done).
  unfold parse_headers, splitlines.
  rewrite splitlines_go_word by done. rewrite app_nil_l.
  destruct (splitlines_go_first t w Hwne) as (tail & more & ->). cbn [fst].
  unfold str_strip. rewrite ords_decode.
  destruct (strip_word is_uspace w tail Hwne Hsp) as (t2 & ->).
  unfold is_request, str_upper. rewrite ords_decode, flat_map_app, Hup.
  assert (String.eqb (decode_latin1 (w ++ t2)) "" = false) as ->.
  { destruct w; [done|]. done. }
  cbn [negb andb].
  destruct is_method.
  - apply existsb_exists. exists word. split; [by apply list_elem_of_In|].
    apply cp_startswith_app.
  - by rewrite Hword.
Qed.

Lemma emitted_kind fuel buffer start kind msg remaining :
  find_next_http_start buffer = Some (start, kind) →
  extract_http_message fuel buffer = Done (Some (msg, remaining)) →
  is_request (first_line_of msg) = String.eqb kind "request".
Proof.
  intros Hs Hx.
  assert (∃ header_end header_sep, find_header_end buffer start = Some (header_end, header_sep))
    as (header_end & header_sep & He).
  { revert Hx. unfold extract_http_message. rewrite Hs.
    destruct (find_header_end buffer start) as [[he hs]|]; [eauto|done]. }
  destruct (extract_shape _ _ _ _ _ _ _ _ Hs He Hx) as (_ & _ & Hp).
  pose proof (body_start_bounds _ _ _ _ _ Hs He) as Hb.
  destruct (start_word _ _ _ Hs) as (word & w & rest & Hkind & Hw & Hd).
  assert (word ∈ HTTP_METHODS ∨ word = B "HTTP/") as Hword
    by (destruct Hkind as [[? _]|[? _]]; eauto).
  destruct (start_words_are_words word Hword) as [Hne Hall].
  destruct (word_match word w Hall Hw) as (_ & Hbr & _ & _).
  pose proof (header_end_after_word _ _ _ _ _ _ (proj1 (proj1 Hb)) He Hd Hbr) as Hlong.
  assert (slice buffer start header_end = w ++ take (Z.to_nat (header_end - start) - length w) rest)
    as Hslice.
  { rewrite slice_in_range by lia. rewrite Hd, ztake_take.
    rewrite take_app_ge by (unfold len in *; lia). done. }
  rewrite Hslice in Hp. set (t := take _ rest) in Hp.
  destruct Hkind as [[Hin ->]|[Heq ->]].
  - pose proof (is_request_of_word word w t true Hin Hw) as Hreq.
    by rewrite Hp in Hreq.
  - pose proof (is_request_of_word word w t false Heq Hw) as Hreq.
    by rewrite Hp in Hreq.
Qed.

(** X9.  A message that the framer emits passes the request test of the
    pairing loop exactly when the start locator reported a request. *)
Theorem start_kind_decides_pairing fuel buffer start kind msg remaining :
  find_next_http_start buffer = Some (start, kind) →
  extract_http_message fuel buffer = Done (Some (msg, remaining)) →
  is_request (first_line_of msg) = String.eqb kind "request".
Proof. apply emitted_kind. Qed.

(** X9, at a request and at a response. *)
Lemma start_kind_decides_pairing_witness :
  is_request "GET /index.html HTTP/1.1" = true ∧ is_request "HTTP/1.1 200 OK" = false.
Proof.
  split.
  - apply (start_kind_decides_pairing 0 sample_request 0 "request" sample_request_msg []);
      vm_compute; reflexivity.
  - apply (start_kind_decides_pairing 0 sample_response 0 "response" sample_response_msg []);
      vm_compute; reflexivity.
Defined.

(** ** The walker on a well-formed chunked body *)

Lemma occurs_at_second sub l q x y sub2 :
  occurs_at sub l q → sub = x :: y :: sub2 → l !! (Z.to_nat q + 1)%nat = Some y.
Proof.
  intros (pre & post & -> & <-) ->. unfold len. rewrite Nat2Z.id.
  rewrite lookup_app_r by lia. by replace (length pre + 1 - length pre)%nat with 1%nat by lia.
Qed.

(** The first [\r\n] behind a line without a line feed is the one that
    ends the line. *)
Lemma find_line_end pre line t :
  LF ∉ line →
  find CRLF (pre ++ line ++ CRLF ++ t) (len pre) = len pre + len line.
Proof.
  intros Hno. pose proof (len_nonneg pre). pose proof (len_nonneg line).
  apply find_unique; [lia|lia| |].
  - exists (pre ++ line), t. rewrite len_app. split; [|done]. by rewrite <- !app_assoc.
  - intros q Hq Hocc. destruct (Z.le_gt_cases (len pre + len line) q) as [|Hlt]; [done|].
    exfalso. pose proof (occurs_at_second _ _ _ CR LF [] Hocc eq_refl) as Hl.
    rewrite lookup_app_r in Hl by (unfold len in *; lia).
    destruct (decide (Z.to_nat q + 1 - length pre < length line)%nat) as [Hin|Hout].
    + rewrite lookup_app_l in Hl by done.
      apply list_elem_of_lookup_2 in Hl. done.
    + rewrite lookup_app_r in Hl by lia.
      replace (Z.to_nat q + 1 - length pre - length line)%nat with 0%nat in Hl
        by (unfold len in *; lia).
      done.
Qed.

(** One round of the walker over one chunk. *)
Lemma chunk_step_chunk pre size_line data t :
  size_reads size_line (len data) →
  chunk_step (pre ++ (size_line ++ CRLF ++ data ++ CRLF) ++ t) (len pre)
  = let after := len pre + len (size_line ++ CRLF ++ data ++ CRLF) in
    if len data =? 0 then Return (Some after) else Continue after.
Proof.
  intros [Hno Hsize].
  pose proof (len_nonneg pre). pose proof (len_nonneg size_line).
  pose proof (len_nonneg data). pose proof (len_nonneg t).
  set (buffer := pre ++ _ ++ t).
  assert (buffer = pre ++ size_line ++ CRLF ++ (data ++ CRLF ++ t)) as Hb1
    by (unfold buffer; by rewrite <- !app_assoc).
  assert (buffer = (pre ++ size_line ++ CRLF ++ data) ++ CRLF ++ t) as Hb2
    by (unfold buffer; by rewrite <- !app_assoc).
  assert (len buffer = len pre + len size_line + 2 + len data + 2 + len t) as Hlen.
  { rewrite Hb1, !len_app. change (len CRLF) with 2. lia. }
  assert (len (size_line ++ CRLF ++ data ++ CRLF) = len size_line + 2 + len data + 2) as Hc.
  { rewrite !len_app. change (len CRLF) with 2. lia. }
  cbv zeta. rewrite Hc.
  rewrite (chunk_step_crlf buffer (len pre) (len pre + len size_line) (len data)).
  - replace (len pre + len size_line + 2 + len data + 2)
      with (len pre + (len size_line + 2 + len data + 2)) by lia. done.
  - rewrite Hb1. by apply find_line_end.
  - lia.
  - rewrite Hb1. by rewrite slice_exact.
  - lia.
  - rewrite Hb2.
    replace (len pre + len size_line + 2 + len data)
      with (len (pre ++ size_line ++ CRLF ++ data))
      by (rewrite !len_app; change (len CRLF) with 2; lia).
    pose proof (slice_exact (pre ++ size_line ++ CRLF ++ data) CRLF t) as Hs.
    by change (len CRLF) with 2 in Hs.
Qed.

Lemma chunked_cons c chunks last :
  chunked (c :: chunks) last = (c.1 ++ CRLF ++ c.2 ++ CRLF) ++ chunked chunks last.
Proof. unfold chunked. simpl. by rewrite <- !app_assoc. Qed.

Lemma chunked_walk chunks last pre rest fuel :
  Forall (λ c, size_reads c.1 (len c.2) ∧ c.2 ≠ []) chunks →
  size_reads last 0 →
  (length chunks < fuel)%nat →
  parse_chunked_end fuel (pre ++ chunked chunks last ++ rest) (len pre)
  = Done (Some (len pre + len (chunked chunks last))).
Proof.
  intros Hchunks Hlast. revert pre fuel.
  induction Hchunks as [|c chunks [Hc Hne] _ IH]; intros pre fuel Hfuel.
  - destruct fuel as [|fuel]; [simpl in Hfuel; lia|]. cbn [parse_chunked_end].
    unfold chunked. cbn [flat_map app].
    pose proof (chunk_step_chunk pre last [] rest Hlast) as Hstep.
    rewrite app_nil_l in Hstep. rewrite Hstep. done.
  - destruct fuel as [|fuel]; [simpl in Hfuel; lia|]. cbn [parse_chunked_end].
    rewrite chunked_cons, <- (app_assoc _ _ rest).
    rewrite (chunk_step_chunk pre c.1 c.2 _ Hc). cbv zeta.
    assert (len c.2 ≠ 0) as Hn by (unfold len; destruct c.2; [done|simpl; lia]).
    destruct (Z.eqb_spec (len c.2) 0) as [|_]; [done|].
    rewrite <- len_app, (app_assoc pre). rewrite IH by (simpl in Hfuel; lia).
    do 2 f_equal. rewrite !len_app. lia.
Qed.

(** The walker on a buffer that ends inside a size line. *)
Lemma chunk_step_no_line pre t :
  LF ∉ t → chunk_step (pre ++ t) (len pre) = Return None.
Proof.
  intros Hno. pose proof (len_nonneg pre) as Hpre.
  assert (∀ sub x sub2 (k : nat), sub = x :: sub2 → (sub !! k = Some LF) →
            find sub (pre ++ t) (len pre) = -1) as Habsent.
  { intros sub x sub2 k Hsub Hk. apply find_absent; [done|]. intros q Hq Hocc.
    destruct Hocc as (a & b & Heq & Ha).
    assert ((pre ++ t) !! (length a + k)%nat = Some LF) as Hl.
    { rewrite Heq, lookup_app_r by lia.
      replace (length a + k - length a)%nat with k by lia.
      apply lookup_app_l_Some. done. }
    rewrite lookup_app_r in Hl by (unfold len in *; lia).
    apply list_elem_of_lookup_2 in Hl. done. }
  unfold chunk_step.
  rewrite (Habsent CRLF CR [LF] 1%nat eq_refl eq_refl). simpl (-1 =? -1). cbv beta iota zeta.
  by rewrite (Habsent [LF] LF [] 0%nat eq_refl eq_refl).
Qed.

(** The walker on a buffer that ends inside the data of a chunk or
    inside the line break behind it. *)
Lemma chunk_step_short pre size_line n t :
  size_reads size_line n → len t < n + 2 →
  chunk_step (pre ++ size_line ++ CRLF ++ t) (len pre) = Return None.
Proof.
  intros [Hno Hsize] Ht.
  pose proof (len_nonneg pre). pose proof (len_nonneg size_line).
  unfold chunk_step. rewrite find_line_end by done.
  destruct (Z.eqb_spec (len pre + len size_line) (-1)) as [|_]; [lia|]. cbv beta iota zeta.
  destruct (Z.eqb_spec (len pre + len size_line) (-1)) as [|_]; [lia|].
  rewrite slice_exact, Hsize.
  rewrite !len_app. change (len CRLF) with 2.
  by destruct (Z.ltb_spec (len pre + (len size_line + (2 + len t)))
                 (len pre + len size_line + 2 + n + 2)); [|lia].
Qed.

Lemma prefix_of_line sl (t m : bytes) :
  LF ∉ sl → m ≠ [] → sl ++ CRLF = t ++ m → LF ∉ t.
Proof.
  intros Hno Hm Heq Hin.
  apply app_eq_inv in Heq as [(k & -> & _)|(k & -> & Hk)].
  - apply Hno, elem_of_app. by left.
  - apply elem_of_app in Hin as [Hin|Hin]; [done|].
    destruct k as [|a [|b k]]; [by apply elem_of_nil in Hin| |].
    + injection Hk as <- _. by apply list_elem_of_singleton in Hin.
    + injection Hk as _ _ Hk. symmetry in Hk. by apply app_eq_nil in Hk as [_ ->].
Qed.

(** On a buffer that ends before the end of a well-formed chunked body
    the walker waits for more data. *)
Lemma chunked_part_starved chunks last : ∀ pre t rest fuel,
  Forall (λ c, size_reads c.1 (len c.2) ∧ c.2 ≠ []) chunks →
  size_reads last 0 →
  t ++ rest = chunked chunks last → rest ≠ [] →
  (length chunks < fuel)%nat →
  parse_chunked_end fuel (pre ++ t) (len pre) = Done None.
Proof.
  assert (∀ pre t rest size_line data post,
            size_reads size_line (len data) →
            t ++ rest = size_line ++ CRLF ++ data ++ CRLF ++ post → rest ≠ [] →
            chunk_step (pre ++ t) (len pre) = Return None
            ∨ ∃ t2, t = (size_line ++ CRLF ++ data ++ CRLF) ++ t2 ∧ t2 ++ rest = post) as Hcase.
  { intros pre t rest sl data post Hsl Heq Hrest.
    rewrite (app_assoc sl) in Heq.
    apply app_eq_inv in Heq as [(m & -> & Hm)|(m & Hline & Hm)].
    - rewrite (app_assoc data) in Hm. symmetry in Hm.
      apply app_eq_inv in Hm as [(m2 & -> & Hm2)|(m3 & Hdata & Hm3)].
      + right. exists m2. split; [by rewrite <- !app_assoc|done].
      + destruct m3 as [|z m3].
        * right. exists []. rewrite app_nil_r in Hdata. subst m.
          split; [by rewrite <- !app_assoc, app_nil_r|done].
        * left. rewrite <- app_assoc. apply (chunk_step_short _ _ (len data)); [done|].
          apply (f_equal len) in Hdata. rewrite !len_app, len_cons in Hdata.
          change (len CRLF) with 2 in Hdata. pose proof (len_nonneg m3). lia.
    - left. destruct (decide (m = [])) as [->|Hne].
      + rewrite app_nil_r in Hline. subst t.
        rewrite <- (app_nil_r CRLF) at 1. apply (chunk_step_short _ _ (len data)); [done|].
        change (len (@nil byte)) with 0. pose proof (len_nonneg data). lia.
      + apply chunk_step_no_line. destruct Hsl as [Hno _].
        by apply (prefix_of_line sl t m). }
  induction chunks as [|c chunks IH]; intros pre t rest fuel Hchunks Hlast Heq Hrest Hfuel;
    (destruct fuel as [|fuel]; [simpl in Hfuel; lia|]); cbn [parse_chunked_end].
  - unfold chunked in Heq. cbn [flat_map app] in Heq.
    destruct (Hcase pre t rest last [] [] Hlast) as [->|(t2 & -> & Ht2)]; [by rewrite app_nil_r| done |done|].
    by apply app_eq_nil in Ht2 as [_ ->].
  - apply Forall_cons in Hchunks as [[Hc Hne] Hchunks]. rewrite chunked_cons in Heq.
    destruct (Hcase pre t rest c.1 c.2 (chunked chunks last) Hc) as [->|(t2 & -> & Ht2)];
      [by rewrite <- !app_assoc in *|done|done|].
    rewrite (chunk_step_chunk pre c.1 c.2 t2 Hc). cbv zeta.
    assert (len c.2 ≠ 0) as Hn by (unfold len; destruct c.2; [done|simpl; lia]).
    destruct (Z.eqb_spec (len c.2) 0) as [|_]; [done|].
    rewrite <- len_app, (app_assoc pre).
    apply (IH _ t2 rest); [done|done|done|done|simpl in Hfuel; lia].
Qed.

(** X10.  On a chunked body whose size lines read as the lengths of their
    chunks, the walker returns the offset just behind the body, whatever
    stands before and behind it; one round for each chunk is enough.  On
    a buffer that ends before the end of the body it waits for more
    data. *)
Theorem chunked_stream_walked chunks last pre fuel :
  Forall (λ c, size_reads c.1 (len c.2) ∧ c.2 ≠ []) chunks →
  size_reads last 0 →
  (length chunks < fuel)%nat →
  (∀ rest,
     parse_chunked_end fuel (pre ++ chunked chunks last ++ rest) (len pre)
     = Done (Some (len pre + len (chunked chunks last))))
  ∧ (∀ t rest,
       t ++ rest = chunked chunks last → rest ≠ [] →
       parse_chunked_end fuel (pre ++ t) (len pre) = Done None).
Proof.
  intros Hchunks Hlast Hfuel. split.
  - intros rest. by apply chunked_walk.
  - intros t rest Heq Hrest. by apply (chunked_part_starved chunks last pre t rest).
Qed.

(** X10, at a body of two chunks, the second with a chunk extension. *)
Lemma chunked_stream_walked_witness :
  parse_chunked_end 3
    ((B "HTTP/1.1 200 OK" ++ CRLF ++ CRLF)
     ++ chunked [(B "4", B "Wiki"); (B "0A ;x=1", B "0123456789")] (B "0") ++ B "tail")
    19
  = Done (Some 54).
Proof.
  change 19 with (len (B "HTTP/1.1 200 OK" ++ CRLF ++ CRLF)).
  change 54 with (len (B "HTTP/1.1 200 OK" ++ CRLF ++ CRLF)
                  + len (chunked [(B "4", B "Wiki"); (B "0A ;x=1", B "0123456789")] (B "0"))).
  refine (proj1 (chunked_stream_walked
                  [(B "4", B "Wiki"); (B "0A ;x=1", B "0123456789")] (B "0")
                  (B "HTTP/1.1 200 OK" ++ CRLF ++ CRLF) 3 _ _ _) (B "tail")).
  - repeat constructor; try done; vm_compute; not_in_list.
  - split; [|done]. vm_compute. not_in_list.
  - simpl. lia.
Defined.

(** ** Which blank line ends the header block *)

(** X11.  The header block ends at the first [\r\n\r\n] at or behind the
    start, wherever that is; a bare [\n\n] ends it only when no
    [\r\n\r\n] follows the start at all, and then it is the first one. *)
Theorem header_terminator_preference buffer start :
  0 ≤ start →
  match find_header_end buffer start with
  | Some (header_end, header_sep) =>
      start ≤ header_end
      ∧ ((header_sep = 4
          ∧ occurs_at (CRLF ++ CRLF) buffer header_end
          ∧ ∀ q, start ≤ q → occurs_at (CRLF ++ CRLF) buffer q → header_end ≤ q)
         ∨ (header_sep = 2
            ∧ (∀ q, start ≤ q → ¬ occurs_at (CRLF ++ CRLF) buffer q)
            ∧ occurs_at [LF; LF] buffer header_end
            ∧ ∀ q, start ≤ q → occurs_at [LF; LF] buffer q → header_end ≤ q))
  | None =>
      ∀ q, start ≤ q →
        ¬ occurs_at (CRLF ++ CRLF) buffer q ∧ ¬ occurs_at [LF; LF] buffer q
  end.
Proof.
  intros Hs. unfold find_header_end.
  set (f4 := find (CRLF ++ CRLF) buffer start). set (f2 := find [LF; LF] buffer start).
  destruct (find_spec (CRLF ++ CRLF) buffer start Hs) as [[E4 Hno4]|(Hge4 & Hocc4 & Hleast4)];
    fold f4 in E4 || fold f4 in Hge4, Hocc4, Hleast4.
  - rewrite E4. simpl (-1 =? -1). cbv beta iota zeta.
    destruct (find_spec [LF; LF] buffer start Hs) as [[E2 Hno2]|(Hge2 & Hocc2 & Hleast2)];
      fold f2 in E2 || fold f2 in Hge2, Hocc2, Hleast2.
    + rewrite E2. simpl. intros q Hq. split; [by apply Hno4|by apply Hno2].
    + destruct (Z.eqb_spec f2 (-1)) as [|_]; [lia|]. split; [done|]. right. by split_and!.
  - destruct (Z.eqb_spec f4 (-1)) as [|_]; [lia|]. cbv beta iota zeta.
    destruct (Z.eqb_spec f4 (-1)) as [|_]; [lia|]. split; [done|]. left. by split_and!.
Qed.

(** X11, at a request with bare line feeds that a request with [\r\n]
    follows: the block ends at the blank line of the second request. *)
Lemma header_terminator_preference_witness :
  match find_header_end mixed_line_ends 0 with
  | Some (header_end, header_sep) =>
      0 ≤ header_end
      ∧ ((header_sep = 4
          ∧ occurs_at (CRLF ++ CRLF) mixed_line_ends header_end
          ∧ ∀ q, 0 ≤ q → occurs_at (CRLF ++ CRLF) mixed_line_ends q → header_end ≤ q)
         ∨ (header_sep = 2
            ∧ (∀ q, 0 ≤ q → ¬ occurs_at (CRLF ++ CRLF) mixed_line_ends q)
            ∧ occurs_at [LF; LF] mixed_line_ends header_end
            ∧ ∀ q, 0 ≤ q → occurs_at [LF; LF] mixed_line_ends q → header_end ≤ q))
  | None =>
      ∀ q, 0 ≤ q →
        ¬ occurs_at (CRLF ++ CRLF) mixed_line_ends q ∧ ¬ occurs_at [LF; LF] mixed_line_ends q
  end.
Proof. apply (header_terminator_preference mixed_line_ends 0). lia. Defined.

(** The two requests come out as one message, under the first line of
    the first and with the [Host] of the second. *)
Example mixed_line_ends_merged :
  find_header_end mixed_line_ends 0 = Some (49, 4)
  ∧ extract_http_message 0 mixed_line_ends
    = Done (Some (mixed_line_ends, "GET /a HTTP/1.1"%string,
                  {[ "host"%string := "y"%string ]}, [])).
Proof. vm_compute. split; reflexivity. Qed.

(** ** A chunked body with a trailer *)

(** X12.  Behind the size line of the last chunk the walker takes nothing but
    a line break: when anything else follows, it gives up, however much
    of the stream the buffer holds. *)
Theorem chunked_trailer_not_walked chunks last x trailer pre fuel :
  Forall (λ c, size_reads c.1 (len c.2) ∧ c.2 ≠ []) chunks →
  size_reads last 0 →
  is_break x = false →
  (length chunks < fuel)%nat →
  parse_chunked_end fuel
    (pre ++ flat_map (λ c, c.1 ++ CRLF ++ c.2 ++ CRLF) chunks ++ last ++ CRLF ++ x :: trailer)
    (len pre)
  = Done None.
Proof.
  intros Hchunks Hlast Htrailer. revert pre fuel.
  induction Hchunks as [|c chunks [Hc Hne] _ IH]; intros pre fuel Hfuel.
  - destruct fuel as [|fuel]; [simpl in Hfuel; lia|]. cbn [parse_chunked_end flat_map app].
    destruct Hlast as [Hno Hsize].
    pose proof (len_nonneg pre). pose proof (len_nonneg last). pose proof (len_nonneg trailer).
    set (buffer := pre ++ last ++ CRLF ++ x :: trailer).
    assert (len buffer = len pre + len last + 2 + (1 + len trailer)) as Hlen.
    { unfold buffer. rewrite !len_app, len_cons. change (len CRLF) with 2. lia. }
    assert (chunk_step buffer (len pre) = Return None) as ->; [|done].
    assert (find CRLF buffer (len pre) = len pre + len last) as Hfind
      by (by apply find_line_end).
    unfold chunk_step. rewrite Hfind.
    destruct (Z.eqb_spec (len pre + len last) (-1)) as [|_]; [lia|]. cbv beta iota zeta.
    destruct (Z.eqb_spec (len pre + len last) (-1)) as [|_]; [lia|].
    unfold buffer at 1. rewrite slice_exact, Hsize.
    destruct (Z.ltb_spec (len buffer) (len pre + len last + 2 + 0 + 2)).
    { done. }
    destruct trailer as [|y trailer]; [rewrite Hlen in *; change (len (@nil byte)) with 0 in *; lia|].
    assert (buffer = (pre ++ last ++ CRLF) ++ [x; y] ++ trailer) as Hb2
      by (unfold buffer; by rewrite <- !app_assoc).
    assert (buffer = (pre ++ last ++ CRLF) ++ [x] ++ y :: trailer) as Hb1
      by (unfold buffer; by rewrite <- !app_assoc).
    assert (len pre + len last + 2 + 0 = len (pre ++ last ++ CRLF)) as ->
      by (rewrite !len_app; change (len CRLF) with 2; lia).
    rewrite Hb2 at 1. change 2 with (len [x; y]) at 1. rewrite slice_exact.
    rewrite Hb1 at 1. change 1 with (len [x]) at 1. rewrite slice_exact.
    unfold CRLF. cbn [bytes_eqb]. destruct (is_break_eqb _ Htrailer) as [-> ->]. done.
  - destruct fuel as [|fuel]; [simpl in Hfuel; lia|]. cbn [parse_chunked_end flat_map].
    rewrite <- !app_assoc.
    pose proof (chunk_step_chunk pre c.1 c.2
                  (flat_map (λ c, c.1 ++ CRLF ++ c.2 ++ CRLF) chunks ++ last ++ CRLF ++ x :: trailer)
                  Hc) as Hstep.
    rewrite <- !app_assoc in Hstep. rewrite Hstep. cbv zeta.
    assert (len c.2 ≠ 0) as Hn by (unfold len; destruct c.2; [done|simpl; lia]).
    destruct (Z.eqb_spec (len c.2) 0) as [|_]; [done|].
    rewrite <- len_app.
    pose proof (IH (pre ++ c.1 ++ CRLF ++ c.2 ++ CRLF) fuel) as IH2.
    rewrite <- !app_assoc in IH2. apply IH2. simpl in Hfuel. lia.
Qed.

(** X12, at a zero chunk followed by a trailer field. *)
Lemma chunked_trailer_not_walked_witness :
  parse_chunked_end 2
    ([] ++ flat_map (λ c, c.1 ++ CRLF ++ c.2 ++ CRLF) [(B "4", B "Wiki")]
        ++ B "0" ++ CRLF ++ "E"%byte :: B "xpires: never" ++ CRLF ++ CRLF)
    (len (@nil byte))
  = Done None.
Proof.
  apply (chunked_trailer_not_walked [(B "4", B "Wiki")] (B "0") "E"%byte
           (B "xpires: never" ++ CRLF ++ CRLF) [] 2).
  - repeat constructor; try done. vm_compute. not_in_list.
  - split; [vm_compute; not_in_list|done].
  - done.
  - simpl. lia.
Defined.

(** ** The walker on a body without a minus sign *)

Lemma slice_elem_behind {A} (l : list A) start a b x :
  0 ≤ start ≤ a → x ∈ slice l a b → x ∈ slice_from l start.
Proof.
  intros Ha. unfold slice, slice_from. rewrite ztake_take, !zdrop_drop.
  intros Hx. eapply elem_of_sublist; [exact Hx|].
  transitivity (drop (Z.to_nat (norm_index (len l) a)) l); [apply sublist_take|].
  assert (Z.to_nat (norm_index (len l) start) ≤ Z.to_nat (norm_index (len l) a))%nat as Hle.
  { pose proof (len_nonneg l). unfold norm_index.
    destruct (Z.ltb_spec start 0), (Z.ltb_spec a 0); lia. }
  replace (Z.to_nat (norm_index (len l) a))
    with (Z.to_nat (norm_index (len l) start)
          + (Z.to_nat (norm_index (len l) a) - Z.to_nat (norm_index (len l) start)))%nat by lia.
  rewrite <- drop_drop. apply sublist_drop.
Qed.

(** Without a minus sign behind the start every round that goes on
    moves the index forward, and an end offset lies behind the index. *)
Lemma chunk_step_advances_behind buffer start idx :
  "-"%byte ∉ slice_from buffer start → 0 ≤ start ≤ idx →
  match chunk_step buffer idx with
  | Return (Some e) => idx < e
  | Return None => True
  | Continue idx2 => idx < idx2
  end.
Proof.
  intros Hminus Hidx. unfold chunk_step.
  pose proof (find_bounds CRLF buffer idx ltac:(lia)) as H2.
  pose proof (find_bounds [LF] buffer idx ltac:(lia)) as H1.
  set (f2 := find CRLF buffer idx) in *. set (f1 := find [LF] buffer idx) in *.
  assert (∀ line_end line_break,
    idx ≤ line_end → 0 < line_break →
    match
      match int_of_bytes
              (strip is_space (split1 ";" (slice buffer idx line_end)).1) 16 with
      | Some size =>
          if len buffer <? line_end + line_break + size + line_break then Return None
          else
            if bytes_eqb (slice buffer (line_end + line_break + size)
                            (line_end + line_break + size + 2)) CRLF
            then if size =? 0 then Return (Some (line_end + line_break + size + 2))
                 else Continue (line_end + line_break + size + 2)
            else if bytes_eqb (slice buffer (line_end + line_break + size)
                                 (line_end + line_break + size + 1)) [LF]
                 then if size =? 0 then Return (Some (line_end + line_break + size + 1))
                      else Continue (line_end + line_break + size + 1)
                 else Return None
      | None => Return None
      end
    with
    | Return (Some e) => idx < e
    | Return None => True
    | Continue idx2 => idx < idx2
    end) as Hbody.
  { intros line_end line_break Hle Hlb.
    destruct (int_of_bytes _ 16) as [size|] eqn:Hsize; [|done].
    assert (0 ≤ size) as Hpos.
    { destruct (Z.le_gt_cases 0 size) as [|Hneg]; [done|].
      apply int_parse_negative in Hsize; [|lia|lia].
      destruct Hminus.
      apply strip_elem, split1_elem in Hsize. by eapply slice_elem_behind. }
    repeat case_match; simplify_eq; try done; lia. }
  destruct (Z.eqb_spec f2 (-1)) as [E2|E2].
  - destruct (Z.eqb_spec f1 (-1)) as [E1|E1]; [done|].
    apply Hbody; lia.
  - destruct (Z.eqb_spec f2 (-1)) as [|_]; [done|].
    apply Hbody; lia.
Qed.

Lemma parse_chunked_end_behind buffer start :
  "-"%byte ∉ slice_from buffer start → 0 ≤ start →
  ∀ (n : nat) idx,
    start ≤ idx → len buffer + 1 - idx ≤ Z.of_nat n →
    ∃ r, parse_chunked_end (S n) buffer idx = Done r
         ∧ ∀ e, r = Some e → idx < e.
Proof.
  intros Hminus Hstart. induction n as [|n IH]; intros idx Hidx Hn.
  - exists None. split; [|done]. cbn [parse_chunked_end].
    rewrite chunk_step_beyond; [done|lia].
  - cbn [parse_chunked_end].
    pose proof (chunk_step_advances_behind buffer start idx Hminus ltac:(lia)) as Hadv.
    destruct (chunk_step buffer idx) as [[e|]|idx2].
    + exists (Some e). split; [done|]. by intros ? [= <-].
    + by exists None.
    + destruct (IH idx2) as (r & Hr & He); [lia|lia|].
      exists r. split; [done|]. intros e Hre. specialize (He e Hre). lia.
Qed.

(** X13.  When no minus sign stands in the buffer from the start offset on,
    the walker returns within one round more than there are bytes behind
    the start, and an end offset that it returns lies behind the start. *)
Theorem parse_chunked_end_returns buffer start fuel :
  0 ≤ start →
  "-"%byte ∉ slice_from buffer start →
  (Z.to_nat (len buffer + 1 - start) < fuel)%nat →
  ∃ r, parse_chunked_end fuel buffer start = Done r ∧ ∀ e, r = Some e → start < e.
Proof.
  intros Hstart Hminus Hfuel.
  destruct (parse_chunked_end_behind buffer start Hminus Hstart
              (Z.to_nat (len buffer + 1 - start)) start) as (r & Hr & He); [lia|lia|].
  exists r. split; [|done].
  apply parse_chunked_end_mono with (S (Z.to_nat (len buffer + 1 - start))); [done|lia].
Qed.

(** X13, at the chunked response of the example, whose header block holds a
    minus sign and whose body holds none. *)
Lemma parse_chunked_end_returns_witness :
  ∃ r, parse_chunked_end 20 wiki_response 47 = Done r ∧ ∀ e, r = Some e → 47 < e.
Proof.
  apply (parse_chunked_end_returns wiki_response 47 20).
  - lia.
  - vm_compute. not_in_list.
  - vm_compute. lia.
Defined.

(** ** A stream of well-formed messages *)

Lemma byte_eqb_ic_same x x2 y :
  byte_eqb_ic x y = true → byte_eqb_ic x2 y = true → fold_case x = fold_case x2.
Proof.
  unfold byte_eqb_ic. intros H1%byte_eqb_eq H2%byte_eqb_eq. congruence.
Qed.

(** No byte string begins with both [HTTP/] and a method name. *)
Lemma status_line_is_no_request word s a b :
  word ∈ HTTP_METHODS →
  lit_match (B "HTTP/") s = Some a → lit_match word s = Some b → False.
Proof.
  intros Hin. destruct s as [|y1 [|y2 s]]; [done| |].
  { simpl. by destruct (byte_eqb_ic _ _). }
  change (B "HTTP/") with ("H"%byte :: "T"%byte :: B "TP/"). cbn [lit_match].
  unfold byte_eqb_ic.
  destruct (byte_eqb (fold_case "H") (fold_case y1)) eqn:E1; [|done].
  destruct (byte_eqb (fold_case "T") (fold_case y2)) eqn:E2; [|done]. intros _.
  apply byte_eqb_eq in E1, E2.
  unfold HTTP_METHODS in Hin.
  repeat (apply elem_of_cons in Hin as [->|Hin];
          [simpl; unfold byte_eqb_ic; rewrite <- ?E1, <- ?E2; by vm_compute|]).
  by apply elem_of_nil in Hin.
Qed.

Lemma start_at_zero_response head :
  find_next_http_start head = Some (0, "response"%string) →
  match_at RESPONSE_START_RE 0 head = true
  ∧ (∃ c s, head = c :: s ∧ is_break c = false)
  ∧ search REQUEST_START_RE head ≠ Some 0.
Proof.
  unfold find_next_http_start.
  destruct (search RESPONSE_START_RE head) as [b|] eqn:Hb.
  - assert (skip_breaks (zdrop b head) b = 0 →
            match_at RESPONSE_START_RE 0 head = true
            ∧ (∃ c s, head = c :: s ∧ is_break c = false) ∧ b = 0) as Hkey.
    { intros Hskip.
      pose proof (search_bounds _ _ _ Hb) as [Hb0 _].
      pose proof (skip_breaks_bounds (zdrop b head) b) as [Hlo _].
      assert (b = 0) as -> by lia.
      apply search_from_spec in Hb as (n & Hn & _ & Hm & _).
      assert (n = 0%nat) as -> by lia. simpl in Hm. split; [done|]. split; [|done].
      rewrite zdrop_0 in Hskip.
      destruct (response_start_match 0 head Hm) as [(c & s & -> & Hc)|(x & c & s & -> & Hx & Hc)].
      - eauto.
      - simpl in Hskip. rewrite Hx, Hc in Hskip. lia. }
    destruct (search REQUEST_START_RE head) as [a|] eqn:Ha; cbn [app min_by_offset fold_left fst].
    + destruct (Z.ltb_spec b a) as [Hlt|Hge].
      * intros [= Hskip]. destruct (Hkey Hskip) as (? & ? & ->).
        split_and!; [done|done|]. intros [= ->]. lia.
      * intros [=].
    + intros [= Hskip]. destruct (Hkey Hskip) as (? & ? & ->). done.
  - destruct (search REQUEST_START_RE head) as [a|]; [|done].
    cbn [app min_by_offset fold_left fst]. intros [=].
Qed.

(** A start that the locator finds on the first byte stays where it is
    when more bytes follow. *)
Lemma start_at_zero_grows head t kind :
  find_next_http_start head = Some (0, kind) →
  find_next_http_start (head ++ t) = Some (0, kind).
Proof.
  intros Hs.
  destruct (start_word _ _ _ Hs) as (word0 & w0 & rest0 & [[_ ->]|[_ ->]] & _ & _).
  { by apply start_at_zero_app. }
  apply start_at_zero_response in Hs as (Hm & (c & s & -> & Hc) & Hreq).
  pose proof (match_at_app _ _ _ t Hm) as Hmt.
  change ((c :: s) ++ t) with (c :: (s ++ t)) in *.
  unfold find_next_http_start.
  assert (search RESPONSE_START_RE (c :: (s ++ t)) = Some 0) as ->.
  { unfold search. simpl search_from. by rewrite Hmt. }
  assert (skip_breaks (zdrop 0 (c :: (s ++ t))) 0 = 0) as Hskip.
  { rewrite zdrop_0. simpl. by rewrite Hc. }
  destruct (search REQUEST_START_RE (c :: (s ++ t))) as [a|] eqn:Ha;
    cbn [app min_by_offset fold_left fst]; [|by rewrite Hskip].
  destruct (Z.ltb_spec 0 a) as [Hlt|Hge]; [by rewrite Hskip|].
  exfalso. pose proof (search_bounds _ _ _ Ha) as [Ha0 _].
  assert (a = 0) as -> by lia.
  apply search_from_spec in Ha as (n & Hn & _ & Hma & _).
  assert (n = 0%nat) as -> by lia. simpl in Hma.
  apply request_start_word in Hma as (word & s1 & s2 & Hin & Hlit & Hs1).
  apply response_start_word in Hmt as (word2 & r1 & r2 & -> & Hlit2 & Hr1).
  destruct Hs1 as [[_ <-]|(x & [= <- <-] & Hx)]; [|congruence].
  destruct Hr1 as [[_ <-]|(x & [= <- <-] & Hx)]; [|congruence].
  by eapply status_line_is_no_request.
Qed.

Lemma header_end_grows head t :
  find_header_end head 0 = Some (len head - 4, 4) →
  find_header_end (head ++ t) 0 = Some (len head - 4, 4).
Proof.
  intros Hend. destruct (head_terminator _ Hend) as [H4 Hf].
  unfold find_header_end.
  assert (find (CRLF ++ CRLF) (head ++ t) 0 = len head - 4) as ->.
  { destruct (find_spec (CRLF ++ CRLF) head 0 (Z.le_refl 0))
      as [[E _]|(_ & Hocc & Hleast)]; [lia|]. rewrite Hf in *.
    apply find_unique; [done|lia|by apply occurs_at_app_r|].
    intros q Hq Hoccq. destruct (Z.le_gt_cases (len head - 4) q); [done|].
    apply occurs_at_app_inv in Hoccq; [|unfold len in *; simpl; lia].
    by apply Hleast. }
  destruct (Z.eqb_spec (len head - 4) (-1)); [lia|].
  by destruct (Z.eqb_spec (len head - 4) (-1)).
Qed.

Lemma chunked_length chunks last : (length chunks < length (chunked chunks last))%nat.
Proof.
  induction chunks as [|c chunks IH].
  - unfold chunked. rewrite !length_app. simpl. lia.
  - rewrite chunked_cons, !length_app. simpl. lia.
Qed.

(** The framer on a buffer that begins with a whole well-formed
    message: it emits the message and leaves what follows. *)
Lemma extract_well_framed fuel msg more :
  well_framed msg → (length (msg_bytes msg) ≤ fuel)%nat →
  extract_http_message fuel (msg_bytes msg ++ more) = Done (Some (msg, more)).
Proof.
  intros (head & body & kind & Hm & Hs & He & _ & Hp & Hd) Hfuel.
  destruct msg as [[m first_line] headers].
  unfold msg_bytes, first_line_of, headers_of in *. cbn [fst snd] in *. subst m.
  rewrite <- app_assoc.
  pose proof (start_at_zero_grows _ (body ++ more) _ Hs) as Hs2.
  pose proof (header_end_grows _ (body ++ more) He) as He2.
  destruct (head_terminator _ He) as [H4 _].
  assert (parse_headers (slice (head ++ body ++ more) 0 (len head - 4))
          = (first_line, headers)) as Hp2 by (by rewrite slice_app_l by lia).
  pose proof (len_nonneg body). pose proof (len_nonneg more).
  assert (framed (head ++ body ++ more) 0 (len head + len body) first_line headers
          = Some (head ++ body, first_line, headers, more)) as Hframed.
  { unfold framed. rewrite <- len_app, (app_assoc head body more).
    by rewrite slice_prefix, slice_from_prefix. }
  unfold declares in Hd.
  destruct (headers !! "content-length"%string) as [value|] eqn:Hcl.
  - rewrite (extract_content_length _ _ _ _ _ _ _ Hs2 He2 Hp2 fuel value Hcl).
    unfold content_length. rewrite Hd. cbn [default from_option id].
    replace (len head - 4 + 4 + len body) with (len head + len body) by lia.
    rewrite Hframed, !len_app.
    by destruct (Z.ltb_spec (len head + (len body + len more)) (len head + len body)); [lia|].
  - assert (body = [] →
            match headers !! "transfer-encoding"%string with
            | Some te => str_contains "chunked" (str_lower te) = false
            | None => True
            end →
            extract_http_message fuel (head ++ body ++ more)
            = Done (Some (head ++ body, first_line, headers, more))) as Hnone.
    { intros -> Hte. rewrite (extract_no_body _ _ _ _ _ _ _ Hs2 He2 Hp2 fuel Hcl Hte).
      change (len (@nil byte)) with 0 in Hframed.
      replace (len head - 4 + 4) with (len head + 0) by lia. by rewrite Hframed. }
    destruct (headers !! "transfer-encoding"%string) as [te|] eqn:Hte; [|by apply Hnone].
    destruct (str_contains "chunked" (str_lower te)) eqn:Hch; [|by apply Hnone].
    destruct Hd as (chunks & last & -> & Hchunks & Hlast).
    rewrite (extract_chunked _ _ _ _ _ _ _ Hs2 He2 Hp2 fuel te Hcl Hte Hch).
    replace (len head - 4 + 4) with (len head) by lia.
    rewrite chunked_walk; [by rewrite Hframed|done|done|].
    pose proof (chunked_length chunks last). rewrite length_app in Hfuel. lia.
Qed.

(** The framer on a buffer that holds only a part of a well-formed
    message: it waits for more data. *)
Lemma extract_part_of_well_framed fuel msg buffer rest :
  well_framed msg → (length (msg_bytes msg) ≤ fuel)%nat →
  buffer ++ rest = msg_bytes msg → rest ≠ [] →
  extract_http_message fuel buffer = Done None.
Proof.
  intros (head & body & kind & Hm & Hs & He & Hbare & Hp & Hd) Hfuel Heq Hrest.
  rewrite Hm in Heq, Hfuel.
  assert (length buffer < length (head ++ body))%nat as Hshort.
  { rewrite <- Heq, length_app. destruct rest; [done|simpl; lia]. }
  rewrite length_app in Hshort.
  destruct (decide (length buffer < length head)%nat) as [Hlt|Hge].
  - assert (buffer = take (length buffer) head) as Hb.
    { apply (f_equal (take (length buffer))) in Heq.
      rewrite take_app_length in Heq. by rewrite take_app_le in Heq by lia. }
    rewrite Hb. by apply (extract_prefix_of_head head [] He Hbare).
  - assert (∃ t, buffer = head ++ t ∧ body = t ++ rest) as (t & -> & Hbody).
    { apply app_eq_inv in Heq as [(t & -> & Hbody)|(k & Hhead & Hk)]; [eauto|].
      apply (f_equal (@length byte)) in Hhead as Hlen. rewrite length_app in Hlen.
      assert (k = []) as -> by (destruct k; [done|simpl in Hlen; lia]).
      rewrite app_nil_r in Hhead. subst buffer. exists []. by rewrite app_nil_r. }
    assert (len t < len body) as Ht.
    { rewrite Hbody, len_app. destruct rest; [done|]. rewrite len_cons.
      pose proof (len_nonneg rest). lia. }
    pose proof (start_at_zero_grows _ t _ Hs) as Hs2.
    pose proof (header_end_grows _ t He) as He2.
    destruct (head_terminator _ He) as [H4 _].
    assert (parse_headers (slice (head ++ t) 0 (len head - 4))
            = (first_line_of msg, headers_of msg)) as Hp2 by (by rewrite slice_app_l by lia).
    assert (body ≠ []) as Hbne.
    { intros ->. pose proof (len_nonneg t). change (len (@nil byte)) with 0 in Ht. lia. }
    unfold declares in Hd.
    destruct (headers_of msg !! "content-length"%string) as [value|] eqn:Hcl.
    + rewrite (extract_content_length _ _ _ _ _ _ _ Hs2 He2 Hp2 fuel value Hcl).
      unfold content_length. rewrite Hd. cbn [default from_option id]. rewrite len_app.
      by destruct (Z.ltb_spec (len head + len t) (len head - 4 + 4 + len body)); [|lia].
    + destruct (headers_of msg !! "transfer-encoding"%string) as [te|] eqn:Hte; [|done].
      destruct (str_contains "chunked" (str_lower te)) eqn:Hch; [|done].
      destruct Hd as (chunks & last & -> & Hchunks & Hlast).
      rewrite (extract_chunked _ _ _ _ _ _ _ Hs2 He2 Hp2 fuel te Hcl Hte Hch).
      replace (len head - 4 + 4) with (len head) by lia.
      rewrite (chunked_part_starved chunks last head t rest); [done|done|done|done|done|].
      pose proof (chunked_length chunks last). rewrite length_app in Hfuel. lia.
Qed.

Lemma well_framed_nonempty msg : well_framed msg → (0 < length (msg_bytes msg))%nat.
Proof.
  intros (head & body & kind & -> & _ & He & _).
  destruct (head_terminator _ He) as [H4 _]. rewrite length_app. unfold len in *. lia.
Qed.

Section WellFramedStream.
Variable chunk_size : Z.
Hypothesis Hchunk : 0 < chunk_size.

Lemma file_read_some rest :
  rest ≠ [] →
  ∃ c chunk rest2,
    file_read chunk_size rest = (c :: chunk, rest2)
    ∧ rest = (c :: chunk) ++ rest2 ∧ (length rest2 < length rest)%nat.
Proof.
  intros Hne. destruct (file_read chunk_size rest) as [chunk rest2] eqn:Hrd.
  pose proof (file_read_splits _ _ _ _ Hrd) as Hsplit.
  revert Hrd. unfold file_read. destruct (Z.ltb_spec chunk_size 0); [lia|].
  destruct rest as [|x rest]; [done|]. cbn [ztake].
  destruct (Z.leb_spec chunk_size 0); [lia|]. intros [= <- Hr].
  eexists _, _, _. split; [done|]. split; [done|].
  apply (f_equal (@length byte)) in Hsplit. rewrite length_app in Hsplit.
  simpl in *. lia.
Qed.

Lemma gen_end fuel pc :
  (2 ≤ fuel)%nat → gen_next fuel chunk_size (GenState [] [] pc) = Done None.
Proof.
  intros Hfuel. destruct fuel as [|[|fuel]]; [lia|lia|].
  destruct pc; cbn [gen_next gen_pc_of gen_buffer gen_rest].
  - unfold file_read. by destruct (Z.ltb_spec chunk_size 0); [lia|].
  - rewrite extract_empty. change (len (@nil byte)) with 0.
    destruct (Z.ltb_spec (chunk_size * 2) 0); [lia|].
    cbn [gen_next gen_pc_of gen_buffer gen_rest].
    unfold file_read. by destruct (Z.ltb_spec chunk_size 0); [lia|].
Qed.

Lemma gen_yield_whole fuel buffer rest msg more :
  well_framed msg → (length (msg_bytes msg) ≤ fuel)%nat →
  buffer ++ rest = msg_bytes msg ++ more →
  (length (msg_bytes msg) ≤ length buffer)%nat →
  ∃ buffer2,
    gen_next (S fuel) chunk_size (GenState buffer rest AtExtract)
    = Done (Some (msg, GenState buffer2 rest AtExtract))
    ∧ buffer2 ++ rest = more.
Proof.
  intros Hwf Hfuel Heq Hwhole. set (m := msg_bytes msg) in *.
  assert (take (length m) buffer = m) as Htake.
  { apply (f_equal (take (length m))) in Heq.
    by rewrite take_app_le, take_app_length in Heq by lia. }
  assert (buffer = m ++ drop (length m) buffer) as Hb.
  { rewrite <- (take_drop (length m) buffer) at 1. by rewrite Htake. }
  exists (drop (length m) buffer). cbn [gen_next gen_pc_of gen_buffer gen_rest].
  rewrite Hb at 1. unfold m at 1. rewrite extract_well_framed by done.
  split; [done|]. rewrite Hb, <- app_assoc in Heq. by apply app_inv_head in Heq.
Qed.

(** From the top of the inner loop the generator reads on until the
    buffer holds the first message of the stream, and yields it. *)
Lemma gen_extract_well_framed msg more (n : nat) : ∀ fuel buffer rest,
  well_framed msg → len (msg_bytes msg) ≤ chunk_size * 2 →
  buffer ++ rest = msg_bytes msg ++ more →
  (length rest ≤ n)%nat → (2 * n + 2 + length (msg_bytes msg) ≤ fuel)%nat →
  ∃ buffer2 rest2,
    gen_next fuel chunk_size (GenState buffer rest AtExtract)
    = Done (Some (msg, GenState buffer2 rest2 AtExtract))
    ∧ buffer2 ++ rest2 = more ∧ (length rest2 ≤ length rest)%nat.
Proof.
  intros fuel buffer rest Hwf Hsize. revert fuel buffer rest.
  induction n as [|n IH]; intros fuel buffer rest Heq Hn Hfuel;
    (destruct fuel as [|[|fuel]]; [lia|lia|]).
  all: destruct (decide (length (msg_bytes msg) ≤ length buffer)%nat) as [Hwhole|Hpart].
  all: try (destruct (gen_yield_whole (S fuel) buffer rest msg more Hwf ltac:(lia) Heq Hwhole)
              as (buffer2 & Hnext & Hmore); by exists buffer2, rest).
  - (* no unread input, yet the buffer is short of the message *)
    destruct rest; [|simpl in Hn; lia]. rewrite app_nil_r in Heq.
    apply (f_equal (@length byte)) in Heq. rewrite length_app in Heq. lia.
  - cbn [gen_next gen_pc_of gen_buffer gen_rest].
    assert (rest ≠ []) as Hrest.
    { intros ->. rewrite app_nil_r in Heq.
      apply (f_equal (@length byte)) in Heq. rewrite length_app in Heq. lia. }
    assert (buffer ++ take (length (msg_bytes msg) - length buffer) rest = msg_bytes msg)
      as Hpartial.
    { apply (f_equal (take (length (msg_bytes msg)))) in Heq.
      rewrite take_app_length in Heq. by rewrite take_app_ge in Heq by lia. }
    rewrite (extract_part_of_well_framed (S fuel) msg buffer _ Hwf ltac:(lia) Hpartial).
    2:{ destruct rest; [done|]. intros E. apply (f_equal (@length byte)) in E.
        rewrite length_take in E. simpl in E. lia. }
    destruct (Z.ltb_spec (chunk_size * 2) (len buffer)); [unfold len in *; lia|].
    cbn [gen_next gen_pc_of gen_buffer gen_rest].
    destruct (file_read_some rest Hrest) as (c & chunk & rest2 & -> & Hsplit & Hlen).
    destruct (IH fuel (buffer ++ c :: chunk) rest2) as (buffer2 & rest3 & Hnext & Hmore & Hlen2).
    { by rewrite <- app_assoc, <- Hsplit. }
    { lia. }
    { lia. }
    exists buffer2, rest3. split; [done|]. split; [done|lia].
Qed.

Lemma gen_next_well_framed msg more fuel buffer rest pc :
  well_framed msg → len (msg_bytes msg) ≤ chunk_size * 2 →
  buffer ++ rest = msg_bytes msg ++ more →
  (pc = AtRead → buffer = []) →
  (2 * length rest + 3 + length (msg_bytes msg) ≤ fuel)%nat →
  ∃ buffer2 rest2,
    gen_next fuel chunk_size (GenState buffer rest pc)
    = Done (Some (msg, GenState buffer2 rest2 AtExtract))
    ∧ buffer2 ++ rest2 = more ∧ (length rest2 ≤ length rest)%nat.
Proof.
  intros Hwf Hsize Heq Hpc Hfuel. destruct pc.
  - rewrite (Hpc eq_refl) in *. cbn [app] in Heq.
    pose proof (well_framed_nonempty _ Hwf) as Hne.
    assert (rest ≠ []) as Hrest.
    { intros ->. apply (f_equal (@length byte)) in Heq. rewrite length_app in Heq.
      simpl in Heq. lia. }
    destruct fuel as [|fuel]; [lia|]. cbn [gen_next gen_pc_of gen_buffer gen_rest].
    destruct (file_read_some rest Hrest) as (c & chunk & rest2 & -> & Hsplit & Hlen).
    destruct (gen_extract_well_framed msg more (length rest2) fuel (c :: chunk) rest2)
      as (buffer2 & rest3 & Hnext & Hmore & Hlen2); [done|done| |done|lia|].
    { by rewrite <- Hsplit. }
    exists buffer2, rest3. split; [done|]. split; [done|lia].
  - apply (gen_extract_well_framed msg more (length rest)); [done|done|done|done|lia].
Qed.

Lemma gen_run_well_framed msgs : ∀ fuel buffer rest pc,
  Forall (λ msg, well_framed msg ∧ len (msg_bytes msg) ≤ chunk_size * 2) msgs →
  buffer ++ rest = concat (map msg_bytes msgs) →
  (pc = AtRead → buffer = []) →
  (3 * length (buffer ++ rest) + length msgs + 3 ≤ fuel)%nat →
  gen_run fuel chunk_size (GenState buffer rest pc) = (msgs, true).
Proof.
  induction msgs as [|msg msgs IH]; intros fuel buffer rest pc Hall Heq Hpc Hfuel;
    (destruct fuel as [|fuel]; [lia|]); cbn [gen_run].
  - simpl in Heq. apply app_eq_nil in Heq as [-> ->].
    by rewrite gen_end by (simpl in Hfuel; lia).
  - apply Forall_cons in Hall as [[Hwf Hsize] Hall]. simpl in Heq, Hfuel.
    assert (length (buffer ++ rest)
            = (length (msg_bytes msg) + length (concat (map msg_bytes msgs)))%nat) as Hlen
      by (by rewrite Heq, length_app).
    rewrite length_app in Hlen, Hfuel.
    destruct (gen_next_well_framed msg (concat (map msg_bytes msgs)) fuel buffer rest pc)
      as (buffer2 & rest2 & -> & Hmore & Hlen2); [done|done|done|done|lia|].
    rewrite (IH fuel buffer2 rest2 AtExtract); [done|done|done|done|].
    rewrite Hmore. lia.
Qed.
End WellFramedStream.

(** X14.  A stream made of well-formed messages, each no longer than twice
    the read size, is taken apart into exactly these messages, whatever
    the read size is and whichever way the bodies are framed; the
    generator then reaches its end. *)
Theorem well_framed_stream_reproduced msgs chunk_size fuel :
  0 < chunk_size →
  Forall (λ msg, well_framed msg ∧ len (msg_bytes msg) ≤ chunk_size * 2) msgs →
  (3 * length (concat (map msg_bytes msgs)) + length msgs + 3 ≤ fuel)%nat →
  iter_http_messages fuel (concat (map msg_bytes msgs)) chunk_size = (msgs, true).
Proof.
  intros Hchunk Hall Hfuel. unfold iter_http_messages, gen_init.
  by apply gen_run_well_framed.
Qed.

(** The three sample messages are well-formed: a request without a
    body, a response with a content-length and a chunked response. *)
Ltac sample_request_well_framed :=
  exists sample_request, [], "request"%string; split_and!; vm_compute; reflexivity.
Ltac sample_response_well_framed :=
  exists (B "HTTP/1.1 200 OK" ++ CRLF ++ B "Content-Length: 5" ++ CRLF ++ CRLF),
    (B "hello"), "response"%string;
  split_and!; vm_compute; reflexivity.
Ltac wiki_response_well_framed :=
  exists (B "HTTP/1.1 200 OK" ++ CRLF ++ B "Transfer-Encoding: chunked" ++ CRLF ++ CRLF),
    wiki_body, "response"%string;
  split_and!; try (vm_compute; reflexivity);
  unfold declares, headers_of, wiki_response_msg; cbn [snd];
  replace (({[ "transfer-encoding"%string := "chunked"%string ]} : gmap string string)
             !! "content-length"%string) with (@None string) by (vm_compute; reflexivity);
  rewrite lookup_singleton_eq;
  replace (str_contains "chunked" (str_lower "chunked")) with true by (vm_compute; reflexivity);
  exists [(B "4", B "Wiki")], (B "0");
  (split_and!; [vm_compute; reflexivity| |split; [vm_compute; not_in_list|done]]);
  apply Forall_cons; (split; [|constructor]);
  (split; [split; [vm_compute; not_in_list|done]|done]).
Ltac samples_well_framed :=
  repeat constructor;
  first [sample_request_well_framed | sample_response_well_framed
        | wiki_response_well_framed | (vm_compute; discriminate)].

(** X14, at a request, a response with a content-length and a chunked
    response, read forty bytes at a time. *)
Lemma well_framed_stream_reproduced_witness :
  iter_http_messages 500
    (concat (map msg_bytes [sample_request_msg; sample_response_msg; wiki_response_msg])) 40
  = ([sample_request_msg; sample_response_msg; wiki_response_msg], true).
Proof.
  apply (well_framed_stream_reproduced
           [sample_request_msg; sample_response_msg; wiki_response_msg] 40 500).
  - lia.
  - samples_well_framed.
  - vm_compute. lia.
Defined.

(** ** From the stream to the items *)

(** X15.  Of a stream made of well-formed messages, none longer than twice
    the read size, every message is written into an item, once and in the
    order of the stream, when no limit is set and every request has a
    target that can be described.  When a request has a target that the
    URL parser refuses, the export raises instead. *)
Theorem well_framed_stream_exported urlparse msgs fuel :
  Forall (λ msg, well_framed msg ∧ len (msg_bytes msg) ≤ default_chunk_size * 2) msgs →
  (3 * length (concat (map msg_bytes msgs)) + length msgs + 3 ≤ fuel)%nat →
  (requests_parse urlparse msgs →
   ∃ items,
     write_http_messages_as_xml urlparse fuel (concat (map msg_bytes msgs)) None
     = Done (Returned (items, len items))
     ∧ flat_map item_messages items = msgs
     ∧ Forall item_sound items)
  ∧ (¬ requests_parse urlparse msgs →
     write_http_messages_as_xml urlparse fuel (concat (map msg_bytes msgs)) None
     = Done Raised).
Proof.
  intros Hall Hfuel. apply pairing_keeps. unfold gen_init.
  by apply gen_run_well_framed.
Qed.

(** X15, at a request and the two responses that follow it. *)
Lemma well_framed_stream_exported_witness :
  let msgs := [sample_request_msg; sample_response_msg; wiki_response_msg] in
  (requests_parse (λ _, None) msgs →
   ∃ items,
     write_http_messages_as_xml (λ _, None) 500 (concat (map msg_bytes msgs)) None
     = Done (Returned (items, len items))
     ∧ flat_map item_messages items = msgs
     ∧ Forall item_sound items)
  ∧ (¬ requests_parse (λ _, None) msgs →
     write_http_messages_as_xml (λ _, None) 500 (concat (map msg_bytes msgs)) None
     = Done Raised).
Proof.
  apply (well_framed_stream_exported (λ _, None)
           [sample_request_msg; sample_response_msg; wiki_response_msg] 500).
  - samples_well_framed.
  - vm_compute. lia.
Defined.

(** ** One request followed by one response *)





(** ** A truncated request at the end of the stream *)

(** Well-formed messages in front of a tail on which the generator
    ends without yielding: the messages are yielded, and the generator
    ends. *)
Lemma gen_run_well_framed_tail chunk_size tail msgs :
  0 < chunk_size →
  (∀ fuel buffer rest pc,
     buffer ++ rest = tail → (2 * length rest + 2 ≤ fuel)%nat →
     gen_next fuel chunk_size (GenState buffer rest pc) = Done None) →
  ∀ fuel buffer rest pc,
    Forall (λ msg, well_framed msg ∧ len (msg_bytes msg) ≤ chunk_size * 2) msgs →
    buffer ++ rest = concat (map msg_bytes msgs) ++ tail →
    (pc = AtRead → buffer = []) →
    (3 * length (buffer ++ rest) + length msgs + 3 ≤ fuel)%nat →
    gen_run fuel chunk_size (GenState buffer rest pc) = (msgs, true).
Proof.
  intros Hchunk Htail.
  induction msgs as [|msg msgs IH]; intros fuel buffer rest pc Hall Heq Hpc Hfuel;
    (destruct fuel as [|fuel]; [lia|]); cbn [gen_run].
  - simpl in Heq. rewrite Htail; [done|done|]. rewrite length_app in Hfuel. lia.
  - apply Forall_cons in Hall as [[Hwf Hsize] Hall]. simpl in Heq, Hfuel.
    rewrite <- app_assoc in Heq.
    assert (length (buffer ++ rest)
            = (length (msg_bytes msg) + length (concat (map msg_bytes msgs) ++ tail))%nat)
      as Hlen by (by rewrite Heq, length_app).
    rewrite length_app in Hlen, Hfuel.
    destruct (gen_next_well_framed chunk_size Hchunk msg (concat (map msg_bytes msgs) ++ tail)
                fuel buffer rest pc)
      as (buffer2 & rest2 & -> & Hmore & Hlen2); [done|done|done|done|lia|].
    rewrite (IH fuel buffer2 rest2 AtExtract); [done|done|done|done|].
    rewrite Hmore. lia.
Qed.

(** X23.  A stream of well-formed messages that ends with a request whose
    head declares 999999 body bytes and whose body is shorter, the
    messages and the request each no longer than twice the read size:
    the generator yields the messages, drops the request and reaches
    its end.  And on any input at all, a message that declares 999999
    body bytes is only ever emitted with more than 999999 bytes in it. *)
Theorem truncated_request_dropped msgs head body first_line headers value chunk_size :
  find_next_http_start head = Some (0, "request"%string) →
  find_header_end head 0 = Some (len head - 4, 4) →
  find [LF; LF] head 0 = -1 →
  parse_headers (slice head 0 (len head - 4)) = (first_line, headers) →
  headers !! "content-length"%string = Some value →
  int_of_str value = Some 999999 →
  len body < 999999 →
  0 < chunk_size →
  len (head ++ body) ≤ chunk_size * 2 →
  Forall (λ msg, well_framed msg ∧ len (msg_bytes msg) ≤ chunk_size * 2) msgs →
  let stream := concat (map msg_bytes msgs) ++ head ++ body in
  (∀ fuel,
     (3 * length stream + length msgs + 3 ≤ fuel)%nat →
     iter_http_messages fuel stream chunk_size = (msgs, true))
  ∧ (∀ fuel input size msg declared,
       msg ∈ (iter_http_messages fuel input size).1 →
       headers_of msg !! "content-length"%string = Some declared →
       int_of_str declared = Some 999999 →
       999999 < len (msg_bytes msg)).
Proof.
  intros Hs He Hb Hh Hcl Hv Hshort Hc Hw Hall stream.
  pose proof (gen_next_starved head body first_line headers value 999999
                Hs He Hb Hh Hcl Hv Hshort chunk_size Hc Hw) as Hnext.
  split.
  - intros fuel Hfuel. unfold iter_http_messages, gen_init.
    by apply (gen_run_well_framed_tail chunk_size (head ++ body)).
  - intros fuel input size msg declared Hin Hd Hint.
    by apply (emitted_declared_length fuel input size msg declared 999999).
Qed.

(** X23, at a request and its response, followed by a request with ten body
    bytes. *)
Lemma truncated_request_dropped_witness :
  iter_http_messages 1000
    (concat (map msg_bytes [sample_request_msg; sample_response_msg])
     ++ truncated_head ++ B "0123456789") default_chunk_size
  = ([sample_request_msg; sample_response_msg], true).
Proof.
  refine (proj1
    (truncated_request_dropped [sample_request_msg; sample_response_msg]
       truncated_head (B "0123456789")
       "POST /upload HTTP/1.1" {[ "content-length"%string := "999999"%string ]}
       "999999" default_chunk_size _ _ _ _ _ _ _ _ _ _) 1000%nat _);
    lazymatch goal with
    | |- Forall _ _ => samples_well_framed
    | |- _ => first [vm_compute; reflexivity | vm_compute; discriminate | vm_compute; lia]
    end.
Defined.

(** ** Text written between tags *)

Lemma flat_map_flat_map {A B C} (f : B → list C) (g : A → list B) l :
  flat_map f (flat_map g l) = flat_map (λ x, flat_map f (g x)) l.
Proof.
  induction l as [|x l IH]; simpl; [done|]. by rewrite flat_map_app, IH.
Qed.

(** The three replacements of [escape] are one pass over the text. *)
Lemma escape_one_pass data :
  escape data
  = flat_map (λ c, if (c =? AMP)%N then cps "&amp;"
                   else if (c =? GT)%N then cps "&gt;"
                   else if (c =? LT)%N then cps "&lt;" else [c]) data.
Proof.
  unfold escape, str_replace. rewrite !flat_map_flat_map.
  apply flat_map_ext. intros c.
  destruct (N.eqb_spec c AMP) as [->|Hamp]; [done|].
  simpl. destruct (N.eqb_spec c GT) as [->|Hgt]; [done|].
  simpl. rewrite app_nil_r. by destruct (N.eqb_spec c LT).
Qed.

Lemma escape_cons c data :
  escape (c :: data)
  = (if (c =? AMP)%N then cps "&amp;"
     else if (c =? GT)%N then cps "&gt;"
     else if (c =? LT)%N then cps "&lt;" else [c]) ++ escape data.
Proof. by rewrite !escape_one_pass. Qed.

Lemma app_cons_split {A} (l1 l2 pre post : list A) x :
  x ∉ l1 → l1 ++ l2 = pre ++ x :: post →
  ∃ pre2, pre = l1 ++ pre2 ∧ l2 = pre2 ++ x :: post.
Proof.
  revert pre. induction l1 as [|y l1 IH]; intros pre Hno Heq.
  - by exists pre.
  - destruct pre as [|p pre]; simpl in Heq; injection Heq as -> Heq.
    + exfalso. apply Hno. by left.
    + destruct (IH pre) as (pre2 & -> & ->); [set_solver|done|]. by exists pre2.
Qed.

(** What follows an ampersand in escaped text. *)
Lemma escape_ampersand data : ∀ pre post,
  escape data = pre ++ AMP :: post →
  ∃ name post2, name ∈ [cps "amp;"; cps "gt;"; cps "lt;"] ∧ post = name ++ post2.
Proof.
  induction data as [|c data IH]; intros pre post.
  - by destruct pre.
  - rewrite escape_cons.
    assert (∀ name, name ∈ [cps "amp;"; cps "gt;"; cps "lt;"] →
              (AMP :: name) ++ escape data = pre ++ AMP :: post →
              ∃ name2 post2, name2 ∈ [cps "amp;"; cps "gt;"; cps "lt;"] ∧ post = name2 ++ post2)
      as Hentity.
    { intros name Hin Heq. destruct pre as [|p pre]; simpl in Heq.
      - injection Heq as Heq. exists name, (escape data). by rewrite Heq.
      - injection Heq as Hp Heq. apply app_cons_split in Heq as (pre2 & -> & Heq).
        + by apply IH in Heq.
        + repeat (apply elem_of_cons in Hin as [->|Hin]; [vm_compute; not_in_list|]).
          by apply elem_of_nil in Hin. }
    destruct (N.eqb_spec c AMP) as [->|Hamp]; [apply (Hentity (cps "amp;")); in_list|].
    destruct (N.eqb_spec c GT) as [->|Hgt]; [apply (Hentity (cps "gt;")); in_list|].
    destruct (N.eqb_spec c LT) as [->|Hlt]; [apply (Hentity (cps "lt;")); in_list|].
    destruct pre as [|p pre]; simpl; intros [= Hp Heq]; [done|]. by apply IH in Heq.
Qed.

(** X16.  Whatever the text, what is written for it between two tags holds no
    angle bracket and none of the control characters that the sanitizer
    removes, and every ampersand in it begins one of the entities
    [&amp;], [&gt;] and [&lt;]. *)
Theorem written_text_is_safe text :
  let out := escape (sanitize_xml_text text) in
  (LT ∉ out) ∧ (GT ∉ out)
  ∧ Forall (λ c, XML_INVALID_RE c = false) out
  ∧ ∀ pre post, out = pre ++ AMP :: post →
      ∃ name post2, name ∈ [cps "amp;"; cps "gt;"; cps "lt;"] ∧ post = name ++ post2.
Proof.
  cbv zeta. split_and!; [| | |apply escape_ampersand].
  - induction (sanitize_xml_text text) as [|c data IH]; [by intros ?%elem_of_nil|].
    rewrite escape_cons. intros [Hin|Hin]%elem_of_app; [|done]. revert Hin.
    destruct (N.eqb_spec c AMP); [vm_compute; not_in_list|].
    destruct (N.eqb_spec c GT); [vm_compute; not_in_list|].
    destruct (N.eqb_spec c LT); [vm_compute; not_in_list|].
    intros Hin%list_elem_of_singleton. by subst c.
  - induction (sanitize_xml_text text) as [|c data IH]; [by intros ?%elem_of_nil|].
    rewrite escape_cons. intros [Hin|Hin]%elem_of_app; [|done]. revert Hin.
    destruct (N.eqb_spec c AMP); [vm_compute; not_in_list|].
    destruct (N.eqb_spec c GT); [vm_compute; not_in_list|].
    destruct (N.eqb_spec c LT); [vm_compute; not_in_list|].
    intros Hin%list_elem_of_singleton. by subst c.
  - unfold sanitize_xml_text.
    induction text as [|c text IH]; [constructor|].
    rewrite filter_cons. destruct (decide (XML_INVALID_RE c = false)) as [Hc|Hc]; [|done].
    rewrite escape_cons. apply Forall_app. split; [|done].
    destruct (N.eqb_spec c AMP); [by repeat constructor|].
    destruct (N.eqb_spec c GT); [by repeat constructor|].
    destruct (N.eqb_spec c LT); [by repeat constructor|].
    by constructor.
Qed.

(** Escaping loses nothing. *)
Lemma escape_inj a : ∀ b, escape a = escape b → a = b.
Proof.
  induction a as [|x a IH]; intros [|y b]; rewrite ?escape_cons.
  - done.
  - destruct (y =? AMP)%N, (y =? GT)%N, (y =? LT)%N; done.
  - destruct (x =? AMP)%N, (x =? GT)%N, (x =? LT)%N; done.
  - destruct (N.eqb_spec x AMP) as [->|Hxa]; [|destruct (N.eqb_spec x GT) as [->|Hxg];
      [|destruct (N.eqb_spec x LT) as [->|Hxl]]];
    (destruct (N.eqb_spec y AMP) as [->|Hya]; [|destruct (N.eqb_spec y GT) as [->|Hyg];
      [|destruct (N.eqb_spec y LT) as [->|Hyl]]]);
    simpl; intros Heq; simplify_eq; try done; f_equal; by apply IH.
Qed.

(** X17.  Two texts are written alike exactly when they differ in nothing but
    the control characters that the sanitizer removes; a text without
    these is written differently from every other such text. *)
Theorem written_text_differs a b :
  escape (sanitize_xml_text a) = escape (sanitize_xml_text b)
  ↔ sanitize_xml_text a = sanitize_xml_text b.
Proof. split; [apply escape_inj|by intros ->]. Qed.

(** ** The kind of a payload *)

Lemma startswith_head x sub l :
  startswith (x :: sub) l = true → ∃ l2, l = x :: l2.
Proof.
  destruct l as [|y l]; simpl; [done|].
  destruct (byte_eqb x y) eqn:E; [|done]. apply byte_eqb_eq in E as ->. eauto.
Qed.

(** The tests of [detect_payload] on a payload exclude one another, so
    that their order decides nothing. *)
Lemma payload_tests_exclusive raw :
  (startswith ZIP_MAGIC raw = true →
     startswith SQLITE_MAGIC raw = false
     ∧ startswith (B "<") (lstrip is_space raw) = false)
  ∧ (startswith SQLITE_MAGIC raw = true →
       startswith (B "<") (lstrip is_space raw) = false)
  ∧ (startswith (B "<?xml") (lstrip is_space raw) = true →
       startswith (B "<") (lstrip is_space raw) = true).
Proof.
  split_and!.
  - intros (l2 & ->)%startswith_head. done.
  - intros (l2 & ->)%startswith_head. done.
  - intros (l2 & ->)%startswith_head. done.
Qed.

(** X18.  A payload that is not gzip-compressed is returned as it is, and its
    kind is [zip], [sqlite] or [xml] exactly when it begins with the zip
    magic, with the SQLite magic, or, after leading whitespace, with
    [<]; it is [unknown] exactly when it does none of these. *)
Theorem detect_payload_kinds gunzip raw :
  startswith GZIP_MAGIC raw = false →
  ∃ kind,
    detect_payload gunzip raw = Some (kind, raw)
    ∧ (kind = "zip"%string ↔ startswith ZIP_MAGIC raw = true)
    ∧ (kind = "sqlite"%string ↔ startswith SQLITE_MAGIC raw = true)
    ∧ (kind = "xml"%string ↔ startswith (B "<") (lstrip is_space raw) = true)
    ∧ (kind = "unknown"%string
       ↔ startswith ZIP_MAGIC raw = false ∧ startswith SQLITE_MAGIC raw = false
         ∧ startswith (B "<") (lstrip is_space raw) = false).
Proof.
  intros Hgz. unfold detect_payload. rewrite Hgz. cbn [mbind option_bind].
  destruct (payload_tests_exclusive raw) as (Hz & Hs & Hx).
  destruct (startswith ZIP_MAGIC raw) eqn:Ez.
  { destruct (Hz eq_refl) as [-> ->]. exists "zip"%string.
    split_and!; [done|done|split; done|split; done|split; [done|by intros (? & _)]]. }
  destruct (startswith SQLITE_MAGIC raw) eqn:Es.
  { rewrite (Hs eq_refl). exists "sqlite"%string.
    split_and!; [done|split; done|done|split; done|split; [done|by intros (? & ? & _)]]. }
  destruct (startswith (B "<") (lstrip is_space raw)) eqn:E1.
  { rewrite orb_true_r. exists "xml"%string.
    split_and!; [done|split; done|split; done|done|split; [done|by intros (? & ? & ?)]]. }
  destruct (startswith (B "<?xml") (lstrip is_space raw)) eqn:E5; [by specialize (Hx eq_refl)|].
  exists "unknown"%string. split_and!; [done|split; done|split; done|split; done|done].
Qed.

(** X18, at an XML document behind a blank line. *)
Lemma detect_payload_kinds_witness :
  ∃ kind,
    detect_payload (λ _, None) xml_payload = Some (kind, xml_payload)
    ∧ (kind = "zip"%string ↔ startswith ZIP_MAGIC xml_payload = true)
    ∧ (kind = "sqlite"%string ↔ startswith SQLITE_MAGIC xml_payload = true)
    ∧ (kind = "xml"%string ↔ startswith (B "<") (lstrip is_space xml_payload) = true)
    ∧ (kind = "unknown"%string
       ↔ startswith ZIP_MAGIC xml_payload = false ∧ startswith SQLITE_MAGIC xml_payload = false
         ∧ startswith (B "<") (lstrip is_space xml_payload) = false).
Proof. apply (detect_payload_kinds (λ _, None) xml_payload). vm_compute. reflexivity. Defined.

(** X19.  Compression is undone once: a payload that still begins with the
    gzip magic after decompression is of unknown kind. *)
Theorem detect_payload_unwraps_once gunzip raw inner :
  startswith GZIP_MAGIC raw = true →
  gunzip raw = Some inner →
  startswith GZIP_MAGIC inner = true →
  detect_payload gunzip raw = Some ("unknown"%string, inner).
Proof.
  intros Hgz Hun (l2 & ->)%startswith_head.
  unfold detect_payload. rewrite Hgz, Hun. done.
Qed.

(** X19, at a decompression that takes off a two-byte wrapping. *)
Lemma detect_payload_unwraps_once_witness :
  detect_payload (λ raw, Some (drop 2 raw)) (GZIP_MAGIC ++ GZIP_MAGIC ++ B "<xml/>")
  = Some ("unknown"%string, GZIP_MAGIC ++ B "<xml/>").
Proof.
  apply (detect_payload_unwraps_once (λ raw, Some (drop 2 raw))); vm_compute; reflexivity.
Defined.

(** ** Matches of the issue pattern *)

Lemma chars_match_inv l : ∀ prev s prev2 s2,
  chars_match l prev s = Some (prev2, s2) →
  ∃ w, s = w ++ s2 ∧ spells l w ∧ prev2 = (if w is [] then prev else last w).
Proof.
  induction l as [|x l IH]; intros prev s prev2 s2; simpl.
  - intros [= -> ->]. exists []. split_and!; [done|constructor|done].
  - destruct s as [|y s]; [done|]. destruct (byte_eqb_ic x y) eqn:E; [|done].
    intros (w & -> & Hw & ->)%IH. exists (y :: w). split_and!; [done|by constructor|].
    destruct w as [|z w]; [done|]. by rewrite last_cons_cons.
Qed.

Lemma chars_match_lit l : ∀ prev s,
  chars_match l prev s = None → lit_match l s = None.
Proof.
  induction l as [|x l IH]; intros prev s; simpl; [done|].
  destruct s as [|y s]; [done|]. destruct (byte_eqb_ic x y); [apply IH|done].
Qed.

Lemma greedy_match_inv p k : ∀ s prev pos e,
  greedy_match p prev pos s k = Some e →
  ∃ w s2 prev2,
    s = w ++ s2 ∧ Forall (λ x, p x = true) w ∧ k prev2 (pos + len w) s2 = Some e.
Proof.
  assert (∀ s prev pos e, k prev pos s = Some e →
            ∃ w s2 prev2, s = w ++ s2 ∧ Forall (λ x, p x = true) w
                          ∧ k prev2 (pos + len w) s2 = Some e) as Hstop.
  { intros s prev pos e Hk. exists [], s, prev. split_and!; [done|constructor|].
    change (len (@nil byte)) with 0. by rewrite Z.add_0_r. }
  induction s as [|x s IH]; intros prev pos e; simpl; [apply Hstop|].
  destruct (p x) eqn:Hx; [|apply Hstop].
  destruct (greedy_match p (Some x) (pos + 1) s k) as [e2|] eqn:Hg; [|apply Hstop].
  intros [= ->]. apply IH in Hg as (w & s2 & prev2 & -> & Hw & Hk).
  exists (x :: w), s2, prev2. split_and!; [done|by constructor|].
  rewrite len_cons. by replace (pos + (1 + len w)) with (pos + 1 + len w) by lia.
Qed.

Lemma lazy_match_inv p k : ∀ s prev pos e,
  lazy_match p prev pos s k = Some e →
  ∃ w s2 prev2,
    s = w ++ s2 ∧ k prev2 (pos + len w) s2 = Some e
    ∧ ∀ j : nat, (j < length w)%nat →
        ∃ prev3, k prev3 (pos + Z.of_nat j) (drop j s) = None.
Proof.
  induction s as [|x s IH]; intros prev pos e; simpl.
  - destruct (k prev pos []) as [e2|] eqn:Hk; [|done]. intros [= ->].
    exists [], [], prev. change (len (@nil byte)) with 0. rewrite Z.add_0_r.
    split_and!; [done|done|]. simpl. lia.
  - destruct (k prev pos (x :: s)) as [e2|] eqn:Hk.
    + intros [= ->]. exists [], (x :: s), prev.
      change (len (@nil byte)) with 0. rewrite Z.add_0_r.
      split_and!; [done|done|]. simpl. lia.
    + destruct (p x); [|done]. intros (w & s2 & prev2 & -> & Hk2 & Hnone)%IH.
      exists (x :: w), s2, prev2. split_and!; [done| |].
      * rewrite len_cons. by replace (pos + (1 + len w)) with (pos + 1 + len w) by lia.
      * intros [|j] Hj.
        -- exists prev. by rewrite Z.add_0_r.
        -- destruct (Hnone j) as (prev3 & Hn); [simpl in Hj; lia|].
           exists prev3. simpl. by replace (pos + Z.of_nat (S j)) with (pos + 1 + Z.of_nat j) by lia.
Qed.

Lemma spells_length l w : spells l w → length w = length l.
Proof. intros H. symmetry. by eapply Forall2_length. Qed.

Lemma spells_closing_bracket w : spells (B ">") w → w = B ">".
Proof.
  intros H. apply Forall2_cons_inv_l in H as (y & w2 & Hy & Hw & ->).
  apply Forall2_nil_inv_l in Hw as ->. f_equal. by destruct y.
Qed.

Lemma spells_issue_last w : spells (B "<issue") w → ∃ y, last w = Some y ∧ is_word y = true.
Proof.
  intros H. unfold spells in H.
  do 6 (apply Forall2_cons_inv_l in H as (? & ? & ? & H & ->)).
  apply Forall2_nil_inv_l in H as ->. eexists. split; [done|].
  match goal with H : byte_eqb_ic _ ?y = true |- is_word ?y = true =>
    revert H; destruct y; by vm_compute end.
Qed.

(** A match of the issue pattern is an issue block, and it ends where
    the block ends. *)
Lemma issue_match_inv prev pos s e :
  match_end ISSUE_BLOCK_RE prev pos s = Some e →
  ∃ block rest, s = block ++ rest ∧ issue_block block ∧ e = pos + len block.
Proof.
  unfold match_end, ISSUE_BLOCK_RE. cbn [span].
  destruct (chars_match (B "<issue") prev s) as [[prev1 s1]|] eqn:H1; [|done].
  apply chars_match_inv in H1 as (opening & -> & Hopen & ->).
  destruct (spells_issue_last _ Hopen) as (y & Hlast & Hy).
  assert (opening ≠ []) as Hne by (intros ->; done).
  destruct opening as [|o0 opening]; [done|]. rewrite Hlast. cbn [word_before]. rewrite Hy.
  destruct (word_after s1) eqn:Hword; [done|]. cbn [xorb].
  intros (attrs & s2 & prev2 & -> & Hattrs & Hk)%greedy_match_inv.
  destruct (chars_match (B ">") prev2 s2) as [[prev3 s3]|] eqn:H3; [|done].
  apply chars_match_inv in H3 as (bracket & -> & ->%spells_closing_bracket & ->).
  apply lazy_match_inv in Hk as (inner & s4 & prev4 & -> & Hk & Hleast).
  destruct (chars_match (B "</issue>") prev4 s4) as [[prev5 rest]|] eqn:H5; [|done].
  apply chars_match_inv in H5 as (closing & -> & Hclose & ->).
  injection Hk as <-.
  exists ((o0 :: opening) ++ attrs ++ B ">" ++ inner ++ closing), rest. split_and!.
  - by rewrite <- !app_assoc.
  - exists (o0 :: opening), attrs, inner, closing. split_and!; [done|done| | |done|].
    + eapply Forall_impl; [exact Hattrs|]. intros x Hx ->. done.
    + revert Hword. rewrite !app_assoc. unfold word_after.
      destruct attrs as [|a attrs]; [done|done].
    + intros j Hj. destruct (Hleast j Hj) as (prev6 & Hn).
      cbn beta in Hn. rewrite drop_app_le in Hn by lia.
      destruct (chars_match (B "</issue>") prev6 (drop j inner ++ closing ++ rest))
        as [[? ?]|] eqn:Hc; [done|].
      apply chars_match_lit in Hc. clear Hn.
      destruct (lit_match (B "</issue>") (drop j (inner ++ closing))) as [t|] eqn:Hl; [|done].
      apply (lit_match_app rest) in Hl.
      rewrite drop_app_le, <- app_assoc in Hl by lia. congruence.
  - rewrite !len_app.
    pose proof (spells_length _ _ Hopen) as L1. pose proof (spells_length _ _ Hclose) as L2.
    unfold len in *. rewrite L1, L2. simpl. lia.
Qed.

(** ** The spans that [finditer] finds *)

Lemma ranges_ordered_from a b ranges :
  ranges_ordered a ranges → b ≤ a → ranges_ordered b ranges.
Proof.
  destruct ranges as [|[lo hi] ranges]; [done|]. simpl.
  intros (H1 & H2 & H3) Hb. split_and!; [lia|done|done].
Qed.

Lemma issue_block_length block : issue_block block → 6 ≤ len block.
Proof.
  intros (opening & attrs & inner & closing & -> & Hopen%spells_length & _).
  rewrite len_app. pose proof (len_nonneg (attrs ++ B ">" ++ inner ++ closing)).
  unfold len in *. rewrite Hopen. simpl. lia.
Qed.

(** The spans are in the order of the buffer, do not overlap, lie
    inside the buffer, and each holds an issue block. *)
Lemma finditer_from_spans s : ∀ pre prev (skip : nat),
  let spans := finditer_from ISSUE_BLOCK_RE prev (len pre) s skip in
  ranges_ordered (len pre + Z.of_nat skip) spans
  ∧ Forall (λ m, m.2 ≤ len (pre ++ s) ∧ issue_block (slice (pre ++ s) m.1 m.2)) spans.
Proof.
  induction s as [|x s IH]; intros pre prev skip; cbv zeta; [by split|].
  cbn [finditer_from].
  assert (len (pre ++ [x]) = len pre + 1) as Hlen by (by rewrite len_app).
  assert (pre ++ x :: s = (pre ++ [x]) ++ s) as Happ by (by rewrite <- app_assoc).
  destruct skip as [|skip].
  - destruct (match_end ISSUE_BLOCK_RE prev (len pre) (x :: s)) as [e|] eqn:Hm.
    + apply issue_match_inv in Hm as (block & rest & Hs & Hblock & ->).
      pose proof (issue_block_length _ Hblock) as H6.
      destruct (IH (pre ++ [x]) (Some x) (Z.to_nat (len pre + len block - len pre) - 1)%nat)
        as [Hord Hall].
      rewrite Hlen in Hord, Hall. rewrite <- Happ in Hall. split.
      * cbn [ranges_ordered]. split_and!; [lia|lia|].
        eapply ranges_ordered_from; [exact Hord|]. lia.
      * constructor; [|done]. cbn [fst snd]. rewrite Hs. split.
        -- rewrite !len_app. pose proof (len_nonneg rest). lia.
        -- by rewrite slice_exact.
    + destruct (IH (pre ++ [x]) (Some x) 0%nat) as [Hord Hall].
      rewrite Hlen in Hord, Hall. rewrite <- Happ in Hall. split; [|done].
      eapply ranges_ordered_from; [exact Hord|]. lia.
  - destruct (IH (pre ++ [x]) (Some x) skip) as [Hord Hall].
    rewrite Hlen in Hord, Hall. rewrite <- Happ in Hall. split; [|done].
    eapply ranges_ordered_from; [exact Hord|]. lia.
Qed.

Lemma finditer_spans buffer :
  ranges_ordered 0 (finditer ISSUE_BLOCK_RE buffer)
  ∧ Forall (λ m, m.2 ≤ len buffer ∧ issue_block (slice buffer m.1 m.2))
      (finditer ISSUE_BLOCK_RE buffer).
Proof. exact (finditer_from_spans buffer [] None 0). Qed.

(** ** The blocks that [iter_issue_blocks] yields *)

Lemma laid_out_behind gap s ms : laid_out s ms → laid_out (gap ++ s) ms.
Proof.
  intros [s2|gap2 m rest ms2 H]; [constructor|].
  rewrite app_assoc. by constructor.
Qed.

(** The spans of one buffer, and behind the last of them what later
    rounds yield. *)
Lemma laid_out_spans buffer tail ms2 : ∀ spans from,
  ranges_ordered from spans → 0 ≤ from →
  Forall (λ m : Z * Z, m.2 ≤ len buffer) spans →
  laid_out (drop (Z.to_nat (default from (snd <$> last spans))) buffer ++ tail) ms2 →
  laid_out (drop (Z.to_nat from) buffer ++ tail)
    (map (λ m : Z * Z, slice buffer m.1 m.2) spans ++ ms2).
Proof.
  induction spans as [|[a e] spans IH]; intros from Hord Hfrom Hall Hlater; [done|].
  cbn [ranges_ordered] in Hord. destruct Hord as (Ha & Hae & Hord).
  apply Forall_cons in Hall as [He Hall]. cbn [fst snd] in *.
  cbn [map app fst snd]. rewrite slice_in_range by lia. rewrite ztake_take, zdrop_drop.
  assert (drop (Z.to_nat from) buffer
          = take (Z.to_nat a - Z.to_nat from) (drop (Z.to_nat from) buffer)
            ++ take (Z.to_nat (e - a)) (drop (Z.to_nat a) buffer)
            ++ drop (Z.to_nat e) buffer) as ->.
  { rewrite <- (take_drop (Z.to_nat a - Z.to_nat from) (drop (Z.to_nat from) buffer)) at 1.
    rewrite drop_drop. replace (Z.to_nat from + (Z.to_nat a - Z.to_nat from))%nat
      with (Z.to_nat a) by lia.
    rewrite <- (take_drop (Z.to_nat (e - a)) (drop (Z.to_nat a) buffer)) at 1.
    rewrite drop_drop. by replace (Z.to_nat a + Z.to_nat (e - a))%nat with (Z.to_nat e) by lia. }
  rewrite <- !app_assoc. constructor. apply IH; [done|lia|done|].
  assert (default from (snd <$> last ((a, e) :: spans)) = default e (snd <$> last spans)) as Hd.
  { destruct spans as [|m spans]; [done|]. rewrite last_cons_cons.
    destruct (last (m :: spans)) as [m2|] eqn:E; [done|]. by apply last_None in E. }
  by rewrite <- Hd.
Qed.

Lemma last_end_default spans : last_end spans = default 0 (snd <$> last spans).
Proof. unfold last_end. by destruct (last spans) as [[a e]|]. Qed.

Lemma ranges_ordered_all ranges : ∀ from,
  ranges_ordered from ranges →
  Forall (λ m : Z * Z, from ≤ m.1 ∧ m.1 ≤ m.2) ranges
  ∧ from ≤ default from (snd <$> last ranges).
Proof.
  induction ranges as [|[lo hi] ranges IH]; intros from; [by split|].
  cbn [ranges_ordered]. intros (H1 & H2 & [Hall Hlast]%IH). split.
  - constructor; [done|]. eapply Forall_impl; [exact Hall|]. cbn. lia.
  - destruct ranges as [|m ranges]; [cbn; lia|].
    rewrite last_cons_cons. destruct (last (m :: ranges)) as [m2|] eqn:E; [cbn in *; lia|].
    by apply last_None in E.
Qed.

Lemma slice_from_tail {A} (l : list A) n :
  0 < n → n < len l → len (slice_from l (- n)) = n.
Proof.
  intros Hn Hl. unfold slice_from, norm_index.
  destruct (Z.ltb_spec (- n) 0); [|lia].
  rewrite zdrop_drop. unfold len in *. rewrite length_drop. lia.
Qed.

Lemma file_read_length chunk_size rest chunk rest2 :
  file_read chunk_size rest = (chunk, rest2) → 0 ≤ chunk_size → len chunk ≤ chunk_size.
Proof.
  unfold file_read. destruct (Z.ltb_spec chunk_size 0); [lia|]. intros [= <- _] _.
  rewrite ztake_take. unfold len. rewrite length_take. lia.
Qed.

(** One round of the loop: the buffer that the pattern is run on, the
    blocks of the round, and the buffer that is kept. *)
Lemma issue_round chunk_size buffer :
  let spans := finditer ISSUE_BLOCK_RE buffer in
  let blocks := map (λ m : Z * Z, slice buffer m.1 m.2) spans in
  let kept1 := if last_end spans =? 0 then buffer else slice_from buffer (last_end spans) in
  let kept := if chunk_size <? len kept1 then slice_from kept1 (- chunk_size) else kept1 in
  Forall issue_block blocks
  ∧ Forall (λ b, len b ≤ len buffer) blocks
  ∧ (∀ tail later, laid_out (kept ++ tail) later → laid_out (buffer ++ tail) (blocks ++ later))
  ∧ (0 < chunk_size → len kept ≤ chunk_size).
Proof.
  cbv zeta. destruct (finditer_spans buffer) as [Hord Hall].
  set (spans := finditer ISSUE_BLOCK_RE buffer) in *.
  destruct (ranges_ordered_all _ _ Hord) as [Hpos Hlast].
  rewrite <- last_end_default in Hlast.
  assert (last_end spans ≤ len buffer) as Hle.
  { rewrite last_end_default. pose proof (len_nonneg buffer).
    destruct (last spans) as [m|] eqn:E; [|done].
    apply last_Some_elem_of in E. rewrite Forall_forall in Hall. by apply Hall in E as [? _]. }
  set (kept1 := if last_end spans =? 0 then buffer else slice_from buffer (last_end spans)).
  assert (kept1 = drop (Z.to_nat (last_end spans)) buffer) as Hkept1.
  { unfold kept1. destruct (Z.eqb_spec (last_end spans) 0) as [->|]; [done|].
    unfold slice_from. by rewrite norm_index_id, zdrop_drop by lia. }
  split_and!.
  - apply Forall_fmap. eapply Forall_impl; [exact Hall|]. by intros m [_ ?].
  - apply Forall_fmap. apply Forall_forall. intros m Hin. cbn.
    rewrite Forall_forall in Hall, Hpos.
    destruct (Hall _ Hin) as [He _]. destruct (Hpos _ Hin) as [Ha Hae].
    rewrite slice_len by lia. lia.
  - intros tail later Hlater.
    change (buffer ++ tail) with (drop (Z.to_nat 0) buffer ++ tail).
    apply laid_out_spans; [done|done| |].
    { eapply Forall_impl; [exact Hall|]. by intros m [? _]. }
    rewrite <- last_end_default, <- Hkept1.
    destruct (chunk_size <? len kept1); [|done].
    destruct (slice_from_suffix kept1 (- chunk_size)) as (gap & Hgap).
    rewrite Hgap, <- app_assoc. by apply laid_out_behind.
  - intros Hc. destruct (Z.ltb_spec chunk_size (len kept1)); [|done].
    by rewrite slice_from_tail.
Qed.

Lemma issue_blocks_loop_sound chunk_size fuel : ∀ buffer rest blocks,
  issue_blocks_loop fuel chunk_size buffer rest = Done blocks →
  laid_out (buffer ++ rest) blocks
  ∧ Forall issue_block blocks
  ∧ (0 < chunk_size → len buffer ≤ chunk_size → Forall (λ b, len b ≤ chunk_size * 2) blocks).
Proof.
  induction fuel as [|fuel IH]; intros buffer rest blocks; [done|].
  cbn [issue_blocks_loop]. cbv zeta.
  destruct (file_read chunk_size rest) as [chunk rest2] eqn:Hrd.
  pose proof (file_read_splits _ _ _ _ Hrd) as ->.
  destruct chunk as [|c chunk]; [intros [= <-]; split_and!; by constructor|].
  destruct (issue_round chunk_size (buffer ++ c :: chunk)) as (Hblocks & Hsize & Hlaid & Hkept).
  destruct (issue_blocks_loop fuel chunk_size _ rest2) as [later|] eqn:Hloop; [|done].
  intros [= <-]. apply IH in Hloop as (Hl & Hb & Hs). split_and!.
  - rewrite app_assoc. by apply Hlaid.
  - by apply Forall_app.
  - intros Hc Hbuf. apply Forall_app. split; [|by apply Hs; [|apply Hkept]].
    eapply Forall_impl; [exact Hsize|]. intros b Hb2. cbn in Hb2.
    rewrite len_app in Hb2. pose proof (file_read_length _ _ _ _ Hrd). lia.
Qed.

Lemma issue_blocks_loop_total chunk_size fuel : ∀ buffer rest,
  (length rest < fuel)%nat →
  ∃ blocks, issue_blocks_loop fuel chunk_size buffer rest = Done blocks.
Proof.
  induction fuel as [|fuel IH]; intros buffer rest Hfuel; [lia|].
  cbn [issue_blocks_loop]. cbv zeta.
  destruct (file_read chunk_size rest) as [chunk rest2] eqn:Hrd.
  pose proof (file_read_splits _ _ _ _ Hrd) as Hsplit.
  destruct chunk as [|c chunk]; [eauto|].
  match goal with |- context [issue_blocks_loop fuel chunk_size ?b rest2] =>
    destruct (IH b rest2) as (later & ->) end.
  { rewrite Hsplit, length_app in Hfuel. simpl in Hfuel. lia. }
  eauto.
Qed.

(** X20.  The generator comes to its end on every input, after at most one
    round for each byte, and the blocks it has yielded by then lie in the
    input one after the other, in the order of the yields, without
    sharing a byte. *)
Theorem issue_blocks_in_stream_order input chunk_size (extra : nat) :
  ∃ blocks ranges,
    iter_issue_blocks (S (length input) + extra) input chunk_size = Done blocks
    ∧ Forall2 (λ block r, r.2 ≤ len input ∧ block = slice input r.1 r.2) blocks ranges
    ∧ ranges_ordered 0 ranges.
Proof.
  unfold iter_issue_blocks.
  destruct (issue_blocks_loop_total chunk_size (S (length input) + extra) [] input)
    as (blocks & Hloop); [lia|].
  exists blocks. destruct (issue_blocks_loop_sound _ _ _ _ _ Hloop) as (Hlaid & _).
  destruct (laid_out_ranges _ _ Hlaid []) as (ranges & Hranges & Hord).
  exists ranges. by split_and!.
Qed.

(** X21.  Every block that the generator yields is an issue block: an
    opening tag of the name [issue] in any case of its letters, and
    everything up to the first closing tag behind it. *)
Theorem issue_blocks_are_issue_blocks fuel input chunk_size blocks :
  iter_issue_blocks fuel input chunk_size = Done blocks →
  Forall issue_block blocks.
Proof. by intros (_ & H & _)%issue_blocks_loop_sound. Qed.

(** X21, at two blocks read in one piece. *)
Lemma issue_blocks_are_issue_blocks_witness :
  Forall issue_block [B "<issue><name>XSS</name></issue>"; B "<ISSUE a=1>x</Issue>"].
Proof.
  apply (issue_blocks_are_issue_blocks 3 sample_issues 64). vm_compute. reflexivity.
Defined.

(** X22.  No block that the generator yields is longer than twice the read
    size: a longer issue block of the input is not yielded. *)
Theorem issue_blocks_fit_window fuel input chunk_size blocks :
  0 < chunk_size →
  iter_issue_blocks fuel input chunk_size = Done blocks →
  Forall (λ block, len block ≤ chunk_size * 2) blocks.
Proof.
  intros Hc (_ & _ & H)%issue_blocks_loop_sound. apply H; [done|].
  change (len (@nil byte)) with 0. lia.
Qed.

(** X22, at a read size of sixteen bytes, with which the first block of the
    sample, thirty-one bytes long, is not yielded. *)
Lemma issue_blocks_fit_window_witness :
  Forall (λ block, len block ≤ 16 * 2) [B "<ISSUE a=1>x</Issue>"].
Proof.
  apply (issue_blocks_fit_window 10 sample_issues 16); [lia|]. vm_compute. reflexivity.
Defined.
